(** * webxash3d-fwgs, cs-web-server: a shallow embedding of the Go server

    The development follows the Go sources of [docker/cs-web-server/src/server]:
    the log ring buffer and fan-out (logging.go), the token-bucket rate limiter,
    the credential check and the session tokens (handlers.go, auth.go), the
    virtual network layer and the signaling handler (the SFU files).

    Conventions.
    - A Go [int] is a [Z]; a slice is a [list], indexed through [index], which
      returns [None] where Go panics with "index out of range".
    - A nil pointer is [None]; a function that can panic returns an [option]
      or an explicit outcome type.
    - Code of external packages (encoding/json, crypto/subtle, golang-jwt,
      goxash3d-fwgs) is either a Section variable or a small model of its
      documented behaviour, named where it is introduced. *)

From Stdlib Require Import ZArith QArith Qround Lia.
From Stdlib Require Strings.Byte.
From Stdlib Require Import Ascii String.
From stdpp Require Import base option list strings gmap.

Local Open Scope Z_scope.

(** ** Go slices *)

(** [s[i]] for a Go slice: [None] stands for the run-time panic. *)
Definition index {A} (s : list A) (i : Z) : option A :=
  if i <? 0 then None else s !! Z.to_nat i.

(** [s[i] = x]: [None] stands for the run-time panic. *)
Definition assign {A} (s : list A) (i : Z) (x : A) : option (list A) :=
  if (i <? 0) || (Z.of_nat (length s) <=? i) then None
  else Some (<[Z.to_nat i := x]> s).

(** ** logging.go: the log ring buffer *)

Module Logging.

Record LogEntry := mkLogEntry { Timestamp : Z; Message : string }.

(** [buffer] holds pointers: [None] is the nil pointer of a slot never
    written. A section of code that holds the mutex is one atomic step:
    [Add] is one, [GetAll] is two. *)
Record CircularBuffer := mkCircularBuffer {
  buffer : list (option LogEntry);
  capacity : Z;
  head : Z;
  size : Z
}.

(** [make([]*LogEntry, capacity)] panics on a negative length. *)
Definition NewCircularBuffer (capacity : Z) : option CircularBuffer :=
  if capacity <? 0 then None
  else Some {| buffer := replicate (Z.to_nat capacity) None;
               capacity := capacity; head := 0; size := 0 |}.

(** Go's [%] truncates towards zero ([Z.rem]) and panics on a zero divisor. *)
Definition go_rem (a b : Z) : option Z :=
  if b =? 0 then None else Some (Z.rem a b).

Definition Add (cb : CircularBuffer) (entry : LogEntry) : option CircularBuffer :=
  buf ← assign (buffer cb) (head cb) (Some entry);
  h ← go_rem (head cb + 1) (capacity cb);
  Some {| buffer := buf;
          capacity := capacity cb;
          head := h;
          size := if size cb <? capacity cb then size cb + 1 else size cb |}.

(** The copy loop of [GetAll]: [n] iterations remain, [i] is the loop
    counter, [result] the slice being filled. *)
Fixpoint GetAll_loop (cb : CircularBuffer) (start : Z) (n : nat) (i : Z)
    (result : list (option LogEntry)) : option (list (option LogEntry)) :=
  match n with
  | O => Some result
  | S n' =>
      idx ← go_rem (start + i) (capacity cb);
      e ← index (buffer cb) idx;
      result' ← assign result i e;
      GetAll_loop cb start n' (i + 1) result'
  end.

(** [GetAll] holds the read lock twice: first to read [size] and [head],
    then to copy. [GetAll_copy] is the second part, on the values read. *)
Definition GetAll_copy (cb : CircularBuffer) (size head : Z)
    : option (list (option LogEntry)) :=
  if size =? 0 then Some []
  else if size <? 0 then None
  else
    let result := replicate (Z.to_nat size) None in
    let start := head - size in
    let start := if start <? 0 then start + capacity cb else start in
    GetAll_loop cb start (Z.to_nat size) 0 result.

(** [Add] called for each entry of [l], in order. *)
Fixpoint AddAll (cb : CircularBuffer) (l : list LogEntry) : option CircularBuffer :=
  match l with
  | [] => Some cb
  | e :: l' => cb' ← Add cb e; AddAll cb' l'
  end.

(** GetAll returns all entries in chronological order. It reads [size] and
    [head] under the read lock, releases it, and takes it again to copy:
    [between] are the entries that other goroutines add between the two
    sections, none in a call that no [Add] falls into. *)
Definition GetAll (cb : CircularBuffer) (between : list LogEntry)
    : option (list (option LogEntry)) :=
  let size := size cb in
  let head := head cb in
  cb' ← AddAll cb between;
  GetAll_copy cb' size head.

(** The representation invariant: what the buffer holds after the entries
    of [l] have been added, in order, to a fresh buffer of capacity [N]. *)
Record ring_inv (N : Z) (l : list LogEntry) (cb : CircularBuffer) : Prop := {
  inv_capacity : capacity cb = N;
  inv_length : Z.of_nat (length (buffer cb)) = N;
  inv_head : head cb = Z.of_nat (length l) mod N;
  inv_size : size cb = Z.min (Z.of_nat (length l)) N;
  inv_slots : ∀ (i : nat) e,
    l !! i = Some e → Z.of_nat (length l) - N <= Z.of_nat i →
    index (buffer cb) (Z.of_nat i mod N) = Some (Some e)
}.

End Logging.

(** ** The token-bucket rate limiter *)

Module RateLimit.

Definition uint32 (z : Z) : Z := z mod 2 ^ 32.
Definition uint64 (z : Z) : Z := z mod 2 ^ 64.

(** Conversion of a float to an unsigned integer truncates towards zero; the
    value is then reduced to the width at the use site. *)
Definition Qtrunc (x : Q) : Z :=
  if Qle_bool 0 x then Qfloor x else Qceiling x.

(** [x < y] on floats. *)
Definition Qlt_bool (x y : Q) : bool := negb (Qle_bool y x).

(** tokenMultiplier is the fixed-point precision for atomic token operations *)
Definition tokenMultiplier : Z := 1000.

(** Packed state: upper 32 bits = tokens (fixed-point), lower 32 bits =
    timestamp. [state] is a uint64. *)
Record atomicTokenBucket := mkBucket { state : Z }.

Definition tokensOf (tb : atomicTokenBucket) : Z := Z.shiftr (state tb) 32.
Definition timeOf (tb : atomicTokenBucket) : Z := Z.land (state tb) 4294967295.

Section float64.
(** A float64 is the rational it denotes; every arithmetic operation is the
    exact operation followed by the rounding [rnd] to a representable
    value. The facts below ask of [rnd] what IEEE 754 rounding gives:
    it is monotone, and exact on integers of magnitude up to 2^53. *)
Variable rnd : Q → Q.

Definition fadd (x y : Q) : Q := rnd (x + y).
Definition fsub (x y : Q) : Q := rnd (x - y).
Definition fmul (x y : Q) : Q := rnd (x * y).
Definition fdiv (x y : Q) : Q := rnd (x / y).
Definition float64_of_Z (z : Z) : Q := rnd (inject_Z z).

(** [now] is the reading of [time.Now().Unix()]. *)
Definition newAtomicTokenBucket (capacity : Q) (now : Z) : atomicTokenBucket :=
  let initialTokens := uint32 (Qtrunc (fmul capacity (inject_Z tokenMultiplier))) in
  let initialTime := uint32 now in
  {| state := Z.lor (uint64 (Z.shiftl (uint64 initialTokens) 32)) (uint64 initialTime) |}.

(** The refilled token count of [allow], after the cap at [capacity]. *)
Definition refill (tb : atomicTokenBucket) (rate capacity : Q) (now : Z) : Q :=
  let oldState := state tb in
  let oldTokens := fdiv (float64_of_Z (Z.shiftr oldState 32)) (inject_Z tokenMultiplier) in
  let oldTime := Z.land oldState 4294967295 in
  let elapsed := float64_of_Z (now - oldTime) in
  let newTokens := fadd oldTokens (fmul elapsed rate) in
  if Qlt_bool capacity newTokens then capacity else newTokens.

(** One call of [allow] with no concurrent writer: the compare-and-swap
    succeeds at the first attempt. *)
Definition allow (tb : atomicTokenBucket) (rate capacity : Q) (now : Z)
    : bool * atomicTokenBucket :=
  let newTokens := refill tb rate capacity now in
  if Qlt_bool newTokens 1 then (false, tb)
  else
    let newTokens := fsub newTokens 1 in
    let newState :=
      Z.lor (uint64 (Z.shiftl
               (uint64 (Qtrunc (fmul newTokens (inject_Z tokenMultiplier)))) 32))
            (uint64 now) in
    (true, {| state := newState |}).

(** [allow] with its retry loop. Each element of [contention] is an attempt
    whose compare-and-swap fails: the clock it read, and the bucket another
    goroutine has stored between its load and its compare-and-swap; the loop
    then starts over from that bucket. An attempt that finds less than one
    token returns false at once. *)
Fixpoint allow_contended (contention : list (Z * atomicTokenBucket))
    (tb : atomicTokenBucket) (rate capacity : Q) (now : Z)
    : bool * atomicTokenBucket :=
  match contention with
  | [] => allow tb rate capacity now
  | (now', other) :: contention' =>
      if (allow tb rate capacity now').1
      then allow_contended contention' other rate capacity now
      else (false, tb)
  end.

(** [visitors] is the sync.Map from client IP to bucket. *)
Record RateLimiter := mkRateLimiter {
  visitors : gmap string atomicTokenBucket;
  rate : Q;
  capacity : Q
}.

Definition NewRateLimiter (requestsPerMinute : Q) : RateLimiter :=
  {| visitors := ∅;
     rate := fdiv requestsPerMinute 60;
     capacity := requestsPerMinute |}.

(** [Allow] reads the clock twice: [now0] when it builds the bucket offered
    to [LoadOrStore], [now] inside [allow]. *)
Definition Allow (rl : RateLimiter) (ip : string) (now0 now : Z)
    : bool * RateLimiter :=
  let fresh := newAtomicTokenBucket (capacity rl) now0 in
  let bucket := default fresh (visitors rl !! ip) in
  let '(ok, bucket') := allow bucket (rate rl) (capacity rl) now in
  (ok, {| visitors := <[ip := bucket']> (visitors rl);
          rate := rate rl; capacity := capacity rl |}).

(** A history of [Allow] calls, each with its key and its clock readings. *)
Fixpoint AllowAll (rl : RateLimiter) (calls : list (string * Z * Z))
    : list bool * RateLimiter :=
  match calls with
  | [] => ([], rl)
  | (ip, now0, now) :: calls' =>
      let '(ok, rl') := Allow rl ip now0 now in
      let '(oks, rl'') := AllowAll rl' calls' in
      (ok :: oks, rl'')
  end.

End float64.

(** The number of tokens (in thousandths) of a full bucket. *)
Definition fullTokens (rnd : Q → Q) (capacity : Q) : Z :=
  Qtrunc (fmul rnd capacity (inject_Z tokenMultiplier)).

(** The invariant of a limiter: each of its buckets satisfies [bucket_ok]. *)
Definition limiter_ok (rnd : Q → Q) (rl : RateLimiter) : Prop :=
  map_Forall (λ _ tb, 0 <= tokensOf tb <= fullTokens rnd (capacity rl)) (visitors rl).

(** The bucket whose packed word holds [k] whole tokens and the time [t]. *)
Definition bucket_of (k t : Z) : atomicTokenBucket :=
  {| state := Z.lor (uint64 (Z.shiftl (uint64 (k * tokenMultiplier)) 32)) (uint64 t) |}.

(** The invariant of a bucket: its token field lies between empty and full. *)
Definition bucket_ok (rnd : Q → Q) (capacity : Q) (tb : atomicTokenBucket) : Prop :=
  0 <= tokensOf tb <= fullTokens rnd capacity.

End RateLimit.

(** ** The virtual network layer: SendTo and SendToBatch *)

Module Net.

Definition byte_to_Z (b : Byte.byte) : Z := Z.of_N (Byte.to_N b).

(** [IP] is a [[4]byte]. *)
Record Addr := mkAddr {
  IP : Byte.byte * Byte.byte * Byte.byte * Byte.byte;
  Port : Z
}.

Definition IP0 (a : Addr) : Byte.byte := (IP a).1.1.1.

Record Packet := mkPacket { PAddr : Addr; Data : list Byte.byte }.

(** A Go [int] of [int_bits] bits, two's complement. *)
Definition wrap_int (int_bits : Z) (z : Z) : Z :=
  (z + 2 ^ (int_bits - 1)) mod 2 ^ int_bits - 2 ^ (int_bits - 1).

Section writers.
(** The detached data channels are [io.Writer]s of the WebRTC library:
    [Conn] is the state of one of them, [Write c data] gives its next state,
    the byte count and whether the error is non-nil. *)
Variable Conn : Type.
Variable Write : Conn → list Byte.byte → Conn * Z * bool.
Variable int_bits : Z.

(** [connections] is the table of 256 writers, nil where no peer is
    attached. [wire] is a ghost log of the calls of [Write], each with the
    table index and the payload, oldest first. *)
Record SFUNet := mkSFUNet {
  connections : list (option Conn);
  wire : list (Byte.byte * list Byte.byte)
}.

(** [make([]io.Writer, 256)] *)
Definition NewSFUNet : SFUNet :=
  {| connections := replicate 256 None; wire := [] |}.

(** [SendTo]. A writer is a mutable object: after [Write] the table holds
    its next state at the same index. [None] is the index panic, which a
    byte index into 256 entries never raises. *)
Definition SendTo (n : SFUNet) (fd : Z) (packet : Packet) (flags : Z)
    : option (SFUNet * Z) :=
  conn ← index (connections n) (byte_to_Z (IP0 (PAddr packet)));
  match conn with
  | None => Some (n, -1)
  | Some c =>
      let '(c', nn, err) := Write c (Data packet) in
      let n' := {| connections :=
                     <[Z.to_nat (byte_to_Z (IP0 (PAddr packet))) := Some c']>
                       (connections n);
                   wire := wire n ++ [(IP0 (PAddr packet), Data packet)] |} in
      if err then Some (n', -1) else Some (n', nn)
  end.

(** The loop of [SendToBatch], with the running [sum]. *)
Fixpoint SendToBatch_loop (n : SFUNet) (fd : Z) (packets : list Packet)
    (flags : Z) (sum : Z) : option (SFUNet * Z) :=
  match packets with
  | [] => Some (n, sum)
  | packet :: packets' =>
      '(n', nn) ← SendTo n fd packet flags;
      if nn =? -1 then Some (n', -1)
      else SendToBatch_loop n' fd packets' flags (wrap_int int_bits (sum + nn))
  end.

Definition SendToBatch (n : SFUNet) (fd : Z) (packets : list Packet) (flags : Z)
    : option (SFUNet * Z) :=
  SendToBatch_loop n fd packets flags 0.

(** Specification side: every packet of [packets] is sent with [SendTo],
    one after the other, and every send succeeds; the result is the final
    state and the byte counts. [None] when some send fails. *)
Fixpoint SendEach (n : SFUNet) (fd : Z) (packets : list Packet) (flags : Z)
    : option (SFUNet * list Z) :=
  match packets with
  | [] => Some (n, [])
  | packet :: packets' =>
      '(n', nn) ← SendTo n fd packet flags;
      if nn =? -1 then None
      else '(n'', nns) ← SendEach n' fd packets' flags; Some (n'', nn :: nns)
  end.

Definition sum_list (l : list Z) : Z := foldr Z.add 0 l.

Definition wire_of (packet : Packet) : Byte.byte * list Byte.byte :=
  (IP0 (PAddr packet), Data packet).

End writers.

(** An example writer: it appends what it is given to what it holds and
    refuses messages longer than [limit] bytes. *)
Definition limited_writer (limit : Z) (c : list Byte.byte) (data : list Byte.byte)
    : list Byte.byte * Z * bool :=
  if limit <? Z.of_nat (length data) then (c, 0, true)
  else (c ++ data, Z.of_nat (length data), false).

End Net.

(** ** handlers.go: the RCON handler *)

Module Rcon.

Set Warnings "-register-all".

(** A JSON value, which is also what encoding/json stores in an
    [interface{}]: nil for null, bool, float64, string, [[]interface{}],
    [map[string]interface{}]. *)
Inductive value :=
| VNil
| VBool (b : bool)
| VNumber (q : Q)
| VString (s : string)
| VArray (l : list value)
| VObject (fields : list (string * value)).

(** The anonymous struct of [rconHandler]. *)
Record requestBody := mkRequestBody { Command : value }.

Definition ascii_lower (c : ascii) : ascii :=
  let n := nat_of_ascii c in
  if ((65 <=? n) && (n <=? 90))%nat then ascii_of_nat (n + 32) else c.

(** encoding/json compares an object key with a field name exactly or,
    failing that, after Unicode simple case folding. Of a name made of ASCII
    letters this is: the ASCII letters without regard to case, and the two
    other characters that fold to an ASCII letter, U+017F (the long s,
    bytes C5 BF in UTF-8) as s and U+212A (the Kelvin sign, bytes E2 84 AA)
    as k. [fold] gives the key in lower case. *)
Fixpoint fold (s : string) : string :=
  match s with
  | EmptyString => EmptyString
  | String c s' =>
      match s' with
      | EmptyString => String (ascii_lower c) EmptyString
      | String c1 s1 =>
          if Ascii.eqb c "197" && Ascii.eqb c1 "191" then String "s" (fold s1)
          else
            match s1 with
            | EmptyString => String (ascii_lower c) (fold s')
            | String c2 s2 =>
                if Ascii.eqb c "226" && Ascii.eqb c1 "132" && Ascii.eqb c2 "170"
                then String "k" (fold s2)
                else String (ascii_lower c) (fold s')
            end
      end
  end.

(** The field tagged "command". *)
Definition key_matches (key : string) : bool := String.eqb (fold key) "command".

(** [json.NewDecoder(r.Body).Decode(&requestBody)]. [body] is the first JSON
    value of the request body, [None] when there is none (syntax error or
    empty body). null leaves the struct as it is; an object assigns each
    matching key in turn, so the last one stays; any other value is an
    UnmarshalTypeError. *)
Definition Decode (body : option value) : option requestBody :=
  match body with
  | None => None
  | Some VNil => Some {| Command := VNil |}
  | Some (VObject fields) =>
      Some (foldl (λ rb kv, if key_matches kv.1 then {| Command := kv.2 |} else rb)
              {| Command := VNil |} fields)
  | Some _ => None
  end.

(** The engine's command buffer: the texts [Cbuf_AddText] reads, one per
    call. *)
Definition Engine := list string.

Definition newline : string := String "010"%char EmptyString.

(** [C.CString] copies the bytes of a Go string and ends the copy with a NUL
    byte; C reads the text up to the first NUL byte, so what comes after a
    NUL byte of the Go string is not read. *)
Fixpoint CString (s : string) : string :=
  match s with
  | EmptyString => EmptyString
  | String c s' => if Ascii.eqb c "000" then EmptyString else String c (CString s')
  end.

Definition ExecuteCommand (engine : Engine) (command : string) : Engine :=
  let commandWithNewline := (command ++ newline)%string in
  let cCommand := CString commandWithNewline in
  engine ++ [cCommand].

Definition StatusNoContent : Z := 204.
Definition StatusBadRequest : Z := 400.
Definition StatusMethodNotAllowed : Z := 405.

(** The [for _, c := range cmd] loop. *)
Fixpoint execute_each (engine : Engine) (cmd : list value) : Engine :=
  match cmd with
  | [] => engine
  | c :: cmd' =>
      match c with
      | VString str =>
          if negb (String.eqb str "")
          then execute_each (ExecuteCommand engine str) cmd'
          else execute_each engine cmd'
      | _ => execute_each engine cmd'
      end
  end.

(** [rconHandler]: the status written and the engine's command buffer. *)
Definition rconHandler (method : string) (body : option value) (engine : Engine)
    : Z * Engine :=
  if negb (String.eqb method "POST") then (StatusMethodNotAllowed, engine)
  else
    match Decode body with
    | None => (StatusBadRequest, engine)
    | Some requestBody =>
        match Command requestBody with
        | VNil => (StatusBadRequest, engine)
        | VString cmd =>
            if String.eqb cmd "" then (StatusBadRequest, engine)
            else (StatusNoContent, ExecuteCommand engine cmd)
        | VArray cmd =>
            if (length cmd =? 0)%nat then (StatusBadRequest, engine)
            else (StatusNoContent, execute_each engine cmd)
        | _ => (StatusBadRequest, engine)
        end
    end.

(** Specification side: the elements of an array that are non-empty strings. *)
Definition nonempty_string (v : value) : option string :=
  match v with
  | VString s => if decide (s = ""%string) then None else Some s
  | _ => None
  end.

Definition nonempty_strings (l : list value) : list string := omap nonempty_string l.



Definition NUL_free (s : string) : Prop := "000"%char ∉ list_ascii_of_string s.

End Rcon.

(** ** handlers.go: the credential check *)

Module Credentials.

(** What an observer of the execution's shape sees: the outcome of each
    branch, the index of each slice access, each call of a library routine
    with the length of its input. The values of bytes are not observable. *)
Inductive leak :=
| LBranch (taken : bool)
| LIndex (i : Z)
| LCall (name : string) (input_length : nat).

(** A computation with its trace of observations. *)
Definition Traced (A : Type) : Type := A * list leak.

Definition ret {A} (x : A) : Traced A := (x, []).
Definition bind {A B} (m : Traced A) (f : A → Traced B) : Traced B :=
  let '(x, t1) := m in let '(y, t2) := f x in (y, t1 ++ t2).
Definition observe (l : leak) : Traced unit := (tt, [l]).

Notation "x ←' m ; f" := (bind m (λ x, f))
  (at level 20, m at level 100, f at level 200, only parsing, right associativity).

(** [[]byte(s)] *)
Definition bytes (s : string) : list ascii := list_ascii_of_string s.

Definition byte_val (c : ascii) : Z := Z.of_N (N_of_ascii c).

(** crypto/subtle: [int((uint32(x^y) - 1) >> 31)] *)
Definition ConstantTimeByteEq (x y : Z) : Z :=
  Z.shiftr ((Z.lxor x y - 1) mod 2 ^ 32) 31.

(** The loop [for i := 0; i < len(x); i++ { v |= x[i] ^ y[i] }] of
    crypto/subtle's ConstantTimeCompare, on slices of equal length. *)
Fixpoint compare_loop (x y : list ascii) (i : Z) (v : Z) : Traced Z :=
  match x, y with
  | a :: x', b :: y' =>
      _ ←' observe (LIndex i);
      compare_loop x' y' (i + 1) (Z.lor v (Z.lxor (byte_val a) (byte_val b)))
  | _, _ => ret v
  end.

(** crypto/subtle: it returns 0 at once when the lengths differ. *)
Definition ConstantTimeCompare (x y : list ascii) : Traced Z :=
  _ ←' observe (LBranch (negb (length x =? length y)%nat));
  if negb (length x =? length y)%nat then ret 0
  else
    v ←' compare_loop x y 0 0;
    ret (ConstantTimeByteEq v 0).

Section credentials.
(** [hex.EncodeToString] of the SHA-512 digest of a string. *)
Variable sha512_hex : string → string.

Variables adminUsername adminPassword passwordSalt : string.

(** computePasswordHash computes SHA-512 hash of password + salt *)
Definition computePasswordHash (password salt : string) : Traced string :=
  _ ←' observe (LCall "sha512" (String.length (password ++ salt)));
  ret (sha512_hex (password ++ salt)).

(** The final [usernameMatch && hashMatch] combines two booleans already
    computed; it runs no comparison of its own. *)
Definition checkCredentials (username passwordHash : string) : Traced bool :=
  usernameMatch ←' ConstantTimeCompare (bytes username) (bytes adminUsername);
  expectedHash ←' computePasswordHash adminPassword passwordSalt;
  hashMatch ←' ConstantTimeCompare (bytes passwordHash) (bytes expectedHash);
  ret ((usernameMatch =? 1) && (hashMatch =? 1)).

End credentials.

(** Specification side: what one constant-time comparison of slices of
    lengths [n] and [m] shows. *)
Definition compare_shape (n m : nat) : list leak :=
  LBranch (negb (n =? m)%nat) ::
  (if (n =? m)%nat then (λ i, LIndex (Z.of_nat i)) <$> seq 0 n else []).

End Credentials.

(** ** auth.go: session tokens *)

Module Auth.

(** A [time.Time] is its count of nanoseconds since the Unix epoch; a
    [jwt.NumericDate] is a count of whole seconds, which is what the token
    carries. *)
Definition second : Z := 1000000000.
Definition jwtExpiration : Z := 24 * 3600 * second.

(** [jwt.NewNumericDate] truncates to the second. *)
Definition NewNumericDate (t : Z) : Z := t / second.

Record RegisteredClaims := mkRegisteredClaims {
  Issuer : string;
  ExpiresAt : option Z;
  NotBefore : option Z;
  IssuedAt : option Z
}.

(** Claims represents the JWT claims *)
Record Claims := mkClaims {
  Role : string;
  Username : string;
  Registered : RegisteredClaims
}.

(** The signing methods golang-jwt registers: the three HMAC methods, and
    the others (RSA, ECDSA, RSA-PSS, EdDSA, none) under their names. *)
Inductive SigningMethod :=
| HS256 | HS384 | HS512
| OtherMethod (alg : string).

Definition Alg (method : SigningMethod) : string :=
  match method with
  | HS256 => "HS256" | HS384 => "HS384" | HS512 => "HS512"
  | OtherMethod alg => alg
  end.

Definition GetSigningMethod (alg : string) : option SigningMethod :=
  if String.eqb alg "HS256" then Some HS256
  else if String.eqb alg "HS384" then Some HS384
  else if String.eqb alg "HS512" then Some HS512
  else if bool_decide (alg ∈ ["RS256"; "RS384"; "RS512"; "ES256"; "ES384"; "ES512";
                              "PS256"; "PS384"; "PS512"; "EdDSA"; "none"]%string)
       then Some (OtherMethod alg)
  else None.

(** A token string: three dot-separated segments, the last one decoded from
    base64 to the signature bytes; [Malformed] is every other string. *)
Inductive tokenString :=
| Malformed
| Segments (header claims : string) (signature : list ascii).

Inductive error :=
| ErrTokenMalformed
| ErrTokenUnverifiable
| ErrTokenSignatureInvalid
| ErrTokenExpired
| ErrTokenNotValidYet
| ErrSignatureInvalid.

Section jwt.
(** golang-jwt v5 and the crypto it calls: the HMAC of a signing string
    under a key for each of the three hashes, and the encoding of the
    header and claims segments with their decoders. *)
Variable hmac : SigningMethod → list ascii → string → list ascii.
(** [decode_header] gives the "alg" entry of a header segment: [None]
    for a segment that does not decode, [Some None] for a header without
    the entry. *)
Variable encode_header : string → string.
Variable decode_header : string → option (option string).
Variable encode_claims : Claims → string.
Variable decode_claims : string → option Claims.

Variable jwtSecret : list ascii.

Definition signingString (header claims : string) : string :=
  (header ++ "." ++ claims)%string.

(** generateToken creates a new JWT token for authenticated users.
    [now] and [now'] are the two readings of the clock. *)
Definition generateToken (username : string) (now now' : Z) : tokenString + error :=
  let expirationTime := now + jwtExpiration in
  let claims :=
    {| Role := "admin";
       Username := username;
       Registered := {| ExpiresAt := Some (NewNumericDate expirationTime);
                        IssuedAt := Some (NewNumericDate now');
                        NotBefore := None;
                        Issuer := "xash3d-server" |} |} in
  let header := encode_header (Alg HS256) in
  let body := encode_claims claims in
  inl (Segments header body (hmac HS256 jwtSecret (signingString header body))).

(** [Method.Verify] with a [[]byte] key: the HMAC methods compare the
    signature with [hmac.Equal]; every other method rejects the key. *)
Definition Verify (method : SigningMethod) (text : string) (signature : list ascii)
    : bool :=
  match method with
  | OtherMethod _ => false
  | _ => (Credentials.ConstantTimeCompare signature (hmac method jwtSecret text)).1 =? 1
  end.

(** [Validator.Validate] with the default options: exp and nbf are checked
    when present, against the clock reading [now]. *)
Definition Validate (claims : Claims) (now : Z) : option error :=
  match ExpiresAt (Registered claims) with
  | Some exp => if now <? exp * second then
      match NotBefore (Registered claims) with
      | Some nbf => if now <? nbf * second then Some ErrTokenNotValidYet else None
      | None => None
      end
    else Some ErrTokenExpired
  | None =>
      match NotBefore (Registered claims) with
      | Some nbf => if now <? nbf * second then Some ErrTokenNotValidYet else None
      | None => None
      end
  end.

(** [jwt.ParseWithClaims] with a key function that returns [jwtSecret]:
    the token's [Valid] flag and claims, or the error. *)
Definition ParseWithClaims (token : tokenString) (now : Z) : (bool * Claims) + error :=
  match token with
  | Malformed => inr ErrTokenMalformed
  | Segments header body signature =>
      match decode_header header, decode_claims body with
      | Some alg, Some claims =>
          match alg ≫= GetSigningMethod with
          | None => inr ErrTokenUnverifiable
          | Some method =>
              if Verify method (signingString header body) signature then
                match Validate claims now with
                | Some err => inr err
                | None => inl (true, claims)
                end
              else inr ErrTokenSignatureInvalid
          end
      | _, _ => inr ErrTokenMalformed
      end
  end.

(** validateToken validates and parses a JWT token *)
Definition validateToken (token : tokenString) (now : Z) : Claims + error :=
  match ParseWithClaims token now with
  | inr err => inr err
  | inl (valid, claims) =>
      if negb valid then inr ErrSignatureInvalid else inl claims
  end.

End jwt.

End Auth.

(** ** The HTTP server: init, the middlewares, the handlers, ServeHTTP *)

Module Server.

(** The environment variables [init] reads; [os.Getenv] gives the empty
    string for a variable that is not set. *)
Record Env := mkEnv {
  ADMIN_PANEL_USER : string;
  ADMIN_PANEL_PASSWORD : string;
  ADMIN_LOG_LEVEL : string
}.

(** The package-level variables. A nil [*RateLimiter] is [None]. *)
Record Globals := mkGlobals {
  adminPassword : string;
  adminUsername : string;
  passwordSalt : string;
  adminLogLevel : string;
  jwtSecret : list ascii;
  loginRateLimiter : option RateLimit.RateLimiter;
  rconRateLimiter : option RateLimit.RateLimiter;
  engine : Rcon.Engine
}.

(** What the handlers read of an [*http.Request]. [Header.Get] gives the
    empty string for an absent header. [Body] is the first JSON value of the
    body, [None] when there is none. *)
Record Request := mkRequest {
  Path : string;
  Method : string;
  Authorization : string;
  XForwardedFor : string;
  XRealIP : string;
  RemoteAddr : string;
  Body : option Rcon.value
}.

(** What the client gets of [ServeHTTP]. [Panic] is a run-time panic inside
    the handler before it has answered: net/http recovers it, logs it and
    closes the connection with no response. [Upgrade] is the call of
    [upgrader.Upgrade], with which a WebSocket handler takes the connection
    over: an outcome says nothing of what that handler does from there on.
    [File] is the answer of [http.ServeFile]. *)
Inductive outcome :=
| Status (code : Z)
| Salt (salt : string)
| Login (token : string) (expiresIn : Z) (logLevel : string)
| Config
| File (path : string)
| Upgrade (endpoint : string)
| Panic.

Definition StatusUnauthorized : Z := 401.
Definition StatusForbidden : Z := 403.
Definition StatusNotFound : Z := 404.
Definition StatusTooManyRequests : Z := 429.
Definition StatusInternalServerError : Z := 500.
Definition StatusServiceUnavailable : Z := 503.

(** LoginRequest represents the login request body *)
Record LoginRequest := mkLoginRequest { Username : string; PasswordHash : string }.

(** encoding/json into [LoginRequest]: a key that matches the field tagged
    "username" or "passwordHash" ([Rcon.fold]) takes a string, leaves the
    field on null and is a type error on anything else. *)
Definition decode_field (key : string) (v : Rcon.value) (req : LoginRequest)
    : option LoginRequest :=
  if String.eqb (Rcon.fold key) "username" then
    match v with
    | Rcon.VString s => Some {| Username := s; PasswordHash := PasswordHash req |}
    | Rcon.VNil => Some req
    | _ => None
    end
  else if String.eqb (Rcon.fold key) "passwordhash" then
    match v with
    | Rcon.VString s => Some {| Username := Username req; PasswordHash := s |}
    | Rcon.VNil => Some req
    | _ => None
    end
  else Some req.

Definition DecodeLogin (body : option Rcon.value) : option LoginRequest :=
  match body with
  | Some Rcon.VNil => Some {| Username := ""; PasswordHash := "" |}
  | Some (Rcon.VObject fields) =>
      foldl (λ acc kv, req ← acc; decode_field kv.1 kv.2 req)
            (Some {| Username := ""; PasswordHash := "" |}) fields
  | _ => None
  end.

(** [strings.Split(s, " ")] *)
Fixpoint split_space (s : string) : list string :=
  match s with
  | EmptyString => [EmptyString]
  | String c s' =>
      if Ascii.eqb c " " then EmptyString :: split_space s'
      else match split_space s' with
           | w :: ws => String c w :: ws
           | [] => [String c EmptyString]
           end
  end.

(** extractToken extracts the JWT token from the Authorization header *)
Definition extractToken (r : Request) : string :=
  let bearerToken := Authorization r in
  match split_space bearerToken with
  | [_; token] => token
  | _ => ""
  end.

(** extractFirstIP extracts the first IP from a comma-separated list *)
Fixpoint extractFirstIP (ips : string) : string :=
  match ips with
  | EmptyString => EmptyString
  | String c ips' => if Ascii.eqb c "," then EmptyString else String c (extractFirstIP ips')
  end.

Section server.
Variable rnd : Q → Q.
Variable sha512_hex : string → string.
Variable hmac : Auth.SigningMethod → list ascii → string → list ascii.
Variable encode_header : string → string.
Variable decode_header : string → option (option string).
Variable encode_claims : Auth.Claims → string.
Variable decode_claims : string → option Auth.Claims.
(** A token on the wire and its segments. *)
Variable render_token : Auth.tokenString → string.
Variable parse_token : string → Auth.tokenString.
(** [net.SplitHostPort], [None] on error. *)
Variable SplitHostPort : string → option string.
(** [os.Stat] on a path under "public": does the file exist. *)
Variable file_exists : string → bool.
(** [time.Now()] called again: [later t] is the reading of the clock that
    follows a reading [t]. Nothing is assumed of it. *)
Variable later : Z → Z.
(** The 32 random bytes of [generateJWTSecret] and the salt of
    [generatePasswordSalt]. *)
Variable random_secret : list ascii.
Variable random_salt : string.

(** [init], as far as the credentials and the limiters go. *)
Definition init (env : Env) : Globals :=
  let adminUsername :=
    if String.eqb (ADMIN_PANEL_USER env) "" then "admin"%string
    else ADMIN_PANEL_USER env in
  let adminPassword := ADMIN_PANEL_PASSWORD env in
  let adminLogLevel :=
    if String.eqb (ADMIN_LOG_LEVEL env) "" then "info"%string
    else if bool_decide (ADMIN_LOG_LEVEL env ∈
              ["debug"; "info"; "warn"; "error"; "silent"]%string)
    then ADMIN_LOG_LEVEL env else "info"%string in
  if String.eqb adminPassword "" then
    {| adminPassword := adminPassword; adminUsername := adminUsername;
       passwordSalt := ""; adminLogLevel := adminLogLevel; jwtSecret := [];
       loginRateLimiter := None; rconRateLimiter := None; engine := [] |}
  else
    {| adminPassword := adminPassword; adminUsername := adminUsername;
       passwordSalt := random_salt; adminLogLevel := adminLogLevel;
       jwtSecret := random_secret;
       loginRateLimiter := Some (RateLimit.NewRateLimiter rnd 5);
       rconRateLimiter := Some (RateLimit.NewRateLimiter rnd 30);
       engine := [] |}.

(** getClientIP extracts the real client IP from the request *)
Definition getClientIP (r : Request) : string :=
  let forwarded := XForwardedFor r in
  let ip := extractFirstIP forwarded in
  if negb (String.eqb forwarded "") && negb (String.eqb ip "") then ip
  else
    let realIP := XRealIP r in
    if negb (String.eqb realIP "") then realIP
    else match SplitHostPort (RemoteAddr r) with
         | Some ip => ip
         | None => RemoteAddr r
         end.

Definition handler := Request → Z → Globals → outcome * Globals.

(** [rl.Middleware(next)]: [rl] is the limiter, [set] stores its new
    state. On a nil limiter the call of [rl.Allow] dereferences the nil
    pointer. [now] is the clock in nanoseconds. *)
Definition Middleware (rl : Globals → option RateLimit.RateLimiter)
    (set : RateLimit.RateLimiter → Globals → Globals) (next : handler) : handler :=
  λ r now g,
    let ip := getClientIP r in
    match rl g with
    | None => (Panic, g)
    | Some limiter =>
        let '(ok, limiter') :=
          RateLimit.Allow rnd limiter ip (now / Auth.second) (now / Auth.second) in
        if negb ok then (Status StatusTooManyRequests, set limiter' g)
        else next r now (set limiter' g)
    end.

Definition set_login (rl : RateLimit.RateLimiter) (g : Globals) : Globals :=
  {| adminPassword := adminPassword g; adminUsername := adminUsername g;
     passwordSalt := passwordSalt g; adminLogLevel := adminLogLevel g;
     jwtSecret := jwtSecret g; loginRateLimiter := Some rl;
     rconRateLimiter := rconRateLimiter g; engine := engine g |}.

Definition set_rcon (rl : RateLimit.RateLimiter) (g : Globals) : Globals :=
  {| adminPassword := adminPassword g; adminUsername := adminUsername g;
     passwordSalt := passwordSalt g; adminLogLevel := adminLogLevel g;
     jwtSecret := jwtSecret g; loginRateLimiter := loginRateLimiter g;
     rconRateLimiter := Some rl; engine := engine g |}.

Definition set_engine (e : Rcon.Engine) (g : Globals) : Globals :=
  {| adminPassword := adminPassword g; adminUsername := adminUsername g;
     passwordSalt := passwordSalt g; adminLogLevel := adminLogLevel g;
     jwtSecret := jwtSecret g; loginRateLimiter := loginRateLimiter g;
     rconRateLimiter := rconRateLimiter g; engine := e |}.

(** The test every privileged handler starts with. *)
Definition disabled (g : Globals) : bool :=
  String.eqb (adminPassword g) "" || String.eqb (adminUsername g) "".

(** loginHandler handles authentication and returns a JWT token.
    [generateToken] reads the clock twice, after the reading [now] of the
    limiter. *)
Definition loginHandler : handler :=
  λ r now g,
    if disabled g then (Status StatusServiceUnavailable, g)
    else if negb (String.eqb (Method r) "POST")
    then (Status Rcon.StatusMethodNotAllowed, g)
    else match DecodeLogin (Body r) with
    | None => (Status Rcon.StatusBadRequest, g)
    | Some req =>
        if (String.length (Username req) =? 0)%nat
        then (Status Rcon.StatusBadRequest, g)
        else if (String.length (PasswordHash req) =? 0)%nat
        then (Status Rcon.StatusBadRequest, g)
        else if negb (Credentials.checkCredentials sha512_hex (adminUsername g)
                        (adminPassword g) (passwordSalt g)
                        (Username req) (PasswordHash req)).1
        then (Status StatusUnauthorized, g)
        else match Auth.generateToken hmac encode_header encode_claims
                     (jwtSecret g) (Username req) (later now) (later (later now)) with
             | inr _ => (Status StatusInternalServerError, g)
             | inl token =>
                 (Login (render_token token) (Auth.jwtExpiration / Auth.second)
                    (adminLogLevel g), g)
             end
    end.

(** saltHandler returns the password salt for client-side hashing *)
Definition saltHandler : handler :=
  λ r now g,
    if disabled g then (Status StatusServiceUnavailable, g)
    else if negb (String.eqb (Method r) "GET")
    then (Status Rcon.StatusMethodNotAllowed, g)
    else (Salt (passwordSalt g), g).

(** authMiddleware validates JWT token from request *)
Definition authMiddleware (next : handler) : handler :=
  λ r now g,
    if disabled g then (Status StatusServiceUnavailable, g)
    else
      let tokenString := extractToken r in
      if String.eqb tokenString "" then (Status StatusUnauthorized, g)
      else match Auth.validateToken hmac decode_header decode_claims (jwtSecret g)
                   (parse_token tokenString) now with
      | inr _ => (Status StatusUnauthorized, g)
      | inl claims =>
          if negb (String.eqb (Auth.Role claims) "admin")
          then (Status StatusForbidden, g)
          else if negb (String.eqb (Auth.Username claims) (adminUsername g))
          then (Status StatusUnauthorized, g)
          else next r now g
      end.

Definition rconHandler : handler :=
  λ r now g,
    let '(code, e) := Rcon.rconHandler (Method r) (Body r) (engine g) in
    (Status code, set_engine e g).

Definition configHandler : handler := λ r now g, (Config, g).

Definition public_file (path : string) (g : Globals) : outcome * Globals :=
  if negb (file_exists path) then (Status StatusNotFound, g) else (File path, g).

(** adminHandler serves the admin panel *)
Definition adminHandler : handler :=
  λ r now g,
    if disabled g then (Status StatusServiceUnavailable, g)
    else public_file "public/admin/index.html" g.

(** logsWebSocketHandler up to its call of [upgrader.Upgrade]. What it does
    from there on is in [LogsSocket] (the authentication) and in
    [LogFanout.logsWebSocketHandler] (the replay and the registration). *)
Definition logsWebSocketHandler : handler :=
  λ r now g,
    if disabled g then (Status StatusServiceUnavailable, g)
    else (Upgrade "/websocket/logs", g).

(** websocketHandler up to its call of [upgrader.Upgrade], with which it
    starts. What it does from there on is in [Signaling.websocketHandler];
    the panics of its callbacks on a failed [Detach] and of [addTrack] are
    panics of other goroutines and of no request. *)
Definition websocketHandler : handler := λ r now g, (Upgrade "/websocket", g).

Definition ServeHTTP : handler :=
  λ r now g,
    if String.eqb (Path r) "/websocket" then websocketHandler r now g
    else if String.eqb (Path r) "/v1/auth" then
      if String.eqb (Method r) "GET" then saltHandler r now g
      else if String.eqb (Method r) "POST"
      then Middleware loginRateLimiter set_login loginHandler r now g
      else (Status Rcon.StatusMethodNotAllowed, g)
    else if String.eqb (Path r) "/v1/config" then configHandler r now g
    else if String.eqb (Path r) "/v1/rcon"
    then Middleware rconRateLimiter set_rcon (authMiddleware rconHandler) r now g
    else if String.eqb (Path r) "/websocket/logs" then logsWebSocketHandler r now g
    else if String.eqb (Path r) "/admin" || String.eqb (Path r) "/admin/"
    then adminHandler r now g
    else
      let p := if String.eqb (Path r) "/" then "index.html"%string else Path r in
      public_file ("public/" ++ p) g.

End server.

End Server.

(** ** The address pool and the signaling handler *)

Module Signaling.

(** Modelled from the spec: [BytesPool] of the package goxash3d-fwgs, whose
    source is not part of this repository. The spec's AddressPool is a
    fixed-capacity set of available indices with [acquire() -> (index, ok)],
    which fails when exhausted, and [release(index)]. The index returned
    with [ok = false] is not specified: it is the parameter [exhausted]. *)
Record BytesPool := mkBytesPool { free : list Byte.byte; cap : nat }.

Definition NewBytesPool (n : nat) : BytesPool :=
  {| free := omap Byte.of_nat (seq 0 n); cap := n |}.

Definition TryGet (exhausted : Byte.byte) (p : BytesPool) : Byte.byte * bool * BytesPool :=
  match free p with
  | [] => (exhausted, false, p)
  | b :: rest => (b, true, {| free := rest; cap := cap p |})
  end.

Definition TryPut (p : BytesPool) (b : Byte.byte) : bool * BytesPool :=
  if (length (free p) <? cap p)%nat
  then (true, {| free := free p ++ [b]; cap := cap p |})
  else (false, p).

(** The calls that take a session down: the deferred calls of
    [websocketHandler], and the [peerConnection.Close()] of its
    [OnConnectionStateChange] callback. *)
Inductive action :=
| CloseWebsocket
| ClosePeerConnection
| PoolPut (index : Byte.byte)
| CloseReadChannel
| CloseWriteChannel.

(** What a run of the handler does that others can see; [sid] numbers the
    signaling connections in the order of their arrival. *)
Inductive event :=
| UpgradeFailed (sid : nat)
| Acquired (sid : nat) (index : Byte.byte) (ok : bool)
| Joined (sid : nat) (index : Byte.byte)
| Attached (sid : nat) (index : Byte.byte)
| Ran (sid : nat) (a : action).

(** What the environment decides for one connection: which calls fail, and
    the random bytes of the address. *)
Record Script := mkScript {
  upgrade_ok : bool;
  peer_connection_ok : bool;
  transceiver_ok : bool;
  write_channel_ok : bool;
  random_ip : Byte.byte * Byte.byte * Byte.byte * Byte.byte
}.

(** A handler blocked in its message loop. [defers] is its stack of deferred
    calls, the last deferred first; [readChannel] tells whether the variable
    of that name is non-nil. *)
Record Session := mkSession {
  sid : nat;
  index : Byte.byte;
  ip : Byte.byte * Byte.byte * Byte.byte * Byte.byte;
  defers : list action;
  readChannel : bool
}.

(** [connections] is the writer table of the virtual network: the session
    whose write channel is stored at each index. *)
Record World := mkWorld {
  pool : BytesPool;
  connections : list (option nat);
  live : list Session;
  trace : list event;
  next_sid : nat
}.

Definition World0 : World :=
  {| pool := NewBytesPool 256; connections := replicate 256 None;
     live := []; trace := []; next_sid := 0 |}.

Definition emit (e : event) (w : World) : World :=
  {| pool := pool w; connections := connections w; live := live w;
     trace := trace w ++ [e]; next_sid := next_sid w |}.

(** One deferred call, run for the session [s]. *)
Definition run_action (s : Session) (w : World) (a : action) : World :=
  match a with
  | PoolPut b =>
      let w := emit (Ran (sid s) a) w in
      {| pool := (TryPut (pool w) b).2; connections := connections w;
         live := live w; trace := trace w; next_sid := next_sid w |}
  | CloseReadChannel =>
      if readChannel s then emit (Ran (sid s) a) w else w
  | _ => emit (Ran (sid s) a) w
  end.

(** The function returns: its deferred calls run, last deferred first. *)
Definition return_ (s : Session) (w : World) : World :=
  foldl (run_action s) w (defers s).

Section handler.
Variable exhausted : Byte.byte.

(** [websocketHandler] from its start to the message loop, or to its
    return when a call fails. The test of [err] that precedes the pool is
    dead code ([err] is nil there) and has no counterpart here; the second
    result of [TryGet] is discarded, as in [index, _ := pool.TryGet()]. *)
Definition websocketHandler (sc : Script) (w : World) : World :=
  let id := next_sid w in
  let w := {| pool := pool w; connections := connections w; live := live w;
              trace := trace w; next_sid := S id |} in
  let s := {| sid := id; index := exhausted; ip := random_ip sc;
              defers := []; readChannel := false |} in
  if negb (upgrade_ok sc) then emit (UpgradeFailed id) w
  else
    let defers := [CloseWebsocket] in
    if negb (peer_connection_ok sc)
    then return_ {| sid := id; index := index s; ip := ip s;
                    defers := defers; readChannel := false |} w
    else
      let defers := ClosePeerConnection :: defers in
      if negb (transceiver_ok sc)
      then return_ {| sid := id; index := index s; ip := ip s;
                      defers := defers; readChannel := false |} w
      else
        let '(index, ok, pool') := TryGet exhausted (pool w) in
        let w := emit (Acquired id index ok)
                   {| pool := pool'; connections := connections w; live := live w;
                      trace := trace w; next_sid := next_sid w |} in
        let '(_, b1, b2, b3) := random_ip sc in
        let ip := (index, b1, b2, b3) in
        let defers := PoolPut index :: defers in
        if negb (write_channel_ok sc)
        then return_ {| sid := id; index := index; ip := ip;
                        defers := defers; readChannel := false |} w
        else
          let defers := CloseWriteChannel :: CloseReadChannel :: defers in
          let s := {| sid := id; index := index; ip := ip;
                      defers := defers; readChannel := false |} in
          emit (Joined id index)
            {| pool := pool w; connections := connections w;
               live := live w ++ [s]; trace := trace w; next_sid := next_sid w |}.

(** The steps of the world: a connection arrives and its handler runs to
    the message loop; the write channel of a live session opens (the
    [OnOpen] callback stores the writer and creates the read channel,
    which may fail); the peer connection of a live session fails (the
    [OnConnectionStateChange] callback closes it, while the handler stays
    in its message loop); the message loop of a live session ends and the
    handler returns. *)
Inductive step :=
| Connect (sc : Script)
| OnOpen (id : nat) (read_channel_ok : bool)
| OnConnectionStateChange (id : nat)
| Return (id : nat).

Definition find_session (w : World) (id : nat) : option Session :=
  list_find (λ s, sid s = id) (live w) ≫= λ p, Some p.2.

Definition apply_step (w : World) (st : step) : World :=
  match st with
  | Connect sc => websocketHandler sc w
  | OnOpen id read_channel_ok =>
      match find_session w id with
      | None => w
      | Some s =>
          let s' := {| sid := sid s; index := index s; ip := ip s; defers := defers s;
                       readChannel := read_channel_ok |} in
          emit (Attached id (index s))
            {| pool := pool w;
               connections := <[Z.to_nat (Net.byte_to_Z (index s)) := Some id]>
                                (connections w);
               live := (λ x, if decide (sid x = id) then s' else x) <$> live w;
               trace := trace w; next_sid := next_sid w |}
      end
  | OnConnectionStateChange id =>
      match find_session w id with
      | None => w
      | Some s => emit (Ran id ClosePeerConnection) w
      end
  | Return id =>
      match find_session w id with
      | None => w
      | Some s =>
          return_ s {| pool := pool w; connections := connections w;
                       live := filter (λ x, sid x ≠ id) (live w);
                       trace := trace w; next_sid := next_sid w |}
      end
  end.

Definition run (w : World) (steps : list step) : World := foldl apply_step w steps.

End handler.

(** The stack of deferred calls of a handler that reached its message loop. *)
Definition standard_defers (s : Session) : Prop :=
  defers s = [CloseWriteChannel; CloseReadChannel; PoolPut (index s);
              ClosePeerConnection; CloseWebsocket].

(** A connection for which every call succeeds. *)
Definition ok_script : Script :=
  {| upgrade_ok := true; peer_connection_ok := true; transceiver_ok := true;
     write_channel_ok := true; random_ip := (Byte.x00, Byte.x11, Byte.x22, Byte.x33) |}.

(** Specification side, from the claim's words: in a trace, the index of a
    session goes back to the pool only after the session's data channel and
    its peer connection have been closed. *)
Definition released_after_teardown (tr : list event) : Prop :=
  ∀ (i : nat) id b, tr !! i = Some (Ran id (PoolPut b)) →
    ∃ j k : nat, (j < i)%nat ∧ (k < i)%nat ∧
                 tr !! j = Some (Ran id CloseWriteChannel) ∧
                 tr !! k = Some (Ran id ClosePeerConnection).

End Signaling.

(** ** logging.go and handlers.go: the log fan-out *)

Module LogFanout.

(** A frame written to a log-stream connection. *)
Inductive frame :=
| History (logs : list (option Logging.LogEntry))
| Log (message : string).

(** Where [logsWebSocketHandler] stands for a connection once the client
    has authenticated: between the two lock sections of the [GetAll] of
    [sendHistory], with the size and the head it has read; after
    [sendHistory]; after the registration, in its read loop; returned. A
    connection without a phase is about to call [sendHistory]. *)
Inductive phase :=
| Reading (size head : Z)
| Replayed
| Registered
| Returned.

(** [logBroadcast] and the client channels are buffered channels of
    capacity 256, oldest message first. [logClients] maps a connection to its
    channel, [wire] to the frames written to it, [handlers] to the phase of
    its handler. Two ghost records: [published], the entries added to the
    ring, and [offered], the lines that entered the broadcast queue, both
    oldest first. *)
Record State := mkState {
  logBuffer : Logging.CircularBuffer;
  logBroadcast : list string;
  logClients : gmap nat (list string);
  wire : gmap nat (list frame);
  handlers : gmap nat phase;
  published : list Logging.LogEntry;
  offered : list string
}.

Definition chan_capacity : nat := 256.

(** [select { case ch <- m: default: }] *)
Definition offer (ch : list string) (m : string) : list string :=
  if (length ch <? chan_capacity)%nat then ch ++ [m] else ch.

(** The part of [init] that sets up log streaming. *)
Definition init : option State :=
  buf ← Logging.NewCircularBuffer 1000;
  Some {| logBuffer := buf; logBroadcast := []; logClients := ∅; wire := ∅;
          handlers := ∅; published := []; offered := [] |}.

(** [logBuffer.Add(entry)], which both publishers call. After [init]
    neither [logBuffer] nor [logBroadcast] is nil. *)
Definition ring_add (st : State) (entry : Logging.LogEntry) : option State :=
  buf ← Logging.Add (logBuffer st) entry;
  Some {| logBuffer := buf; logBroadcast := logBroadcast st;
          logClients := logClients st; wire := wire st; handlers := handlers st;
          published := published st ++ [entry]; offered := offered st |}.

(** [select { case logBroadcast <- message: default: }], which both
    publishers run: on a full queue the line is dropped. *)
Definition queue_offer (st : State) (message : string) : State :=
  {| logBuffer := logBuffer st;
     logBroadcast := offer (logBroadcast st) message;
     logClients := logClients st; wire := wire st; handlers := handlers st;
     published := published st;
     offered := if (length (logBroadcast st) <? chan_capacity)%nat
                then offered st ++ [message] else offered st |}.

(** One iteration of [logBroadcaster]; on an empty queue it waits. *)
Definition logBroadcaster (st : State) : State :=
  match logBroadcast st with
  | [] => st
  | message :: queue =>
      {| logBuffer := logBuffer st; logBroadcast := queue;
         logClients := (λ clientChan, offer clientChan message) <$> logClients st;
         wire := wire st; handlers := handlers st;
         published := published st; offered := offered st |}
  end.

Definition write (st : State) (conn : nat) (f : frame) : State :=
  {| logBuffer := logBuffer st; logBroadcast := logBroadcast st;
     logClients := logClients st;
     wire := <[conn := default [] (wire st !! conn) ++ [f]]> (wire st);
     handlers := handlers st; published := published st; offered := offered st |}.

Definition set_phase (st : State) (conn : nat) (p : phase) : State :=
  {| logBuffer := logBuffer st; logBroadcast := logBroadcast st;
     logClients := logClients st; wire := wire st;
     handlers := <[conn := p]> (handlers st);
     published := published st; offered := offered st |}.

(** sendHistory sends the log history to a newly connected client. Its
    first step is the first lock section of [GetAll]: on a size of 0
    [GetAll] returns nil and [sendHistory] returns nil with it. *)
Definition sendHistory_read (st : State) (conn : nat) : State :=
  let size := Logging.size (logBuffer st) in
  let head := Logging.head (logBuffer st) in
  if size =? 0 then set_phase st conn Replayed
  else set_phase st conn (Reading size head).

(** The second step of [sendHistory]: the second lock section of [GetAll],
    on the size and the head read in the first, and the [WriteJSON] of the
    history, which succeeds or not as [ok] tells. On an error the handler
    returns. Nothing else writes to the connection before the handler has
    returned from [sendHistory], so the copy and the write are one step. *)
Definition sendHistory_copy (st : State) (conn : nat) (size head : Z) (ok : bool)
    : option State :=
  history ← Logging.GetAll_copy (logBuffer st) size head;
  if (length history =? 0)%nat then Some (set_phase st conn Replayed)
  else if ok then Some (set_phase (write st conn (History history)) conn Replayed)
  else Some (set_phase st conn Returned).

(** [logClients[conn] = clientChan] with a fresh channel *)
Definition register (st : State) (conn : nat) : State :=
  {| logBuffer := logBuffer st; logBroadcast := logBroadcast st;
     logClients := <[conn := []]> (logClients st);
     wire := wire st; handlers := handlers st;
     published := published st; offered := offered st |}.

(** [delete(logClients, conn)] *)
Definition unregister (st : State) (conn : nat) : State :=
  {| logBuffer := logBuffer st; logBroadcast := logBroadcast st;
     logClients := delete conn (logClients st);
     wire := wire st; handlers := handlers st;
     published := published st; offered := offered st |}.

(** The next step of [logsWebSocketHandler] for a connection whose client
    has authenticated: [sendHistory] in its two steps, the registration, the
    read loop, in which [ok] tells whether [NextReader] returns a message or
    an error, and after an error the deferred unregistration. *)
Definition logsWebSocketHandler (st : State) (conn : nat) (ok : bool) : option State :=
  match handlers st !! conn with
  | None => Some (sendHistory_read st conn)
  | Some (Reading size head) => sendHistory_copy st conn size head ok
  | Some Replayed => Some (set_phase (register st conn) conn Registered)
  | Some Registered =>
      if ok then Some st else Some (set_phase (unregister st conn) conn Returned)
  | Some Returned => Some st
  end.

(** One message taken by the write pump of [conn]. *)
Definition pump (st : State) (conn : nat) : State :=
  match logClients st !! conn with
  | Some (message :: rest) =>
      write {| logBuffer := logBuffer st; logBroadcast := logBroadcast st;
               logClients := <[conn := rest]> (logClients st);
               wire := wire st; handlers := handlers st;
               published := published st; offered := offered st |}
            conn (Log message)
  | _ => st
  end.

(** The steps that the goroutines take, in any order: each is a section of
    code under one lock, or one channel operation. *)
Inductive step :=
| RingAdd (entry : Logging.LogEntry)
| QueueOffer (message : string)
| Dispatch
| Handler (conn : nat) (ok : bool)
| Pump (conn : nat).

Definition apply_step (st : State) (s : step) : option State :=
  match s with
  | RingAdd entry => ring_add st entry
  | QueueOffer message => Some (queue_offer st message)
  | Dispatch => Some (logBroadcaster st)
  | Handler conn ok => logsWebSocketHandler st conn ok
  | Pump conn => Some (pump st conn)
  end.

Fixpoint run (st : State) (steps : list step) : option State :=
  match steps with
  | [] => Some st
  | s :: steps' => st' ← apply_step st s; run st' steps'
  end.


(** [Logger.broadcast]: the queue first, then the ring, with no lock over
    the two. *)
Definition Logger_broadcast (fullMessage : string) (now : Z) : list step :=
  [QueueOffer fullMessage; RingAdd (Logging.mkLogEntry now fullMessage)].

(** The invariant of the fan-out: the ring holds the last entries
    published, and a handler between the two lock sections of [GetAll] has
    read a size and a head of the ring. *)
Definition ring_ok (st : State) : Prop :=
  Logging.ring_inv 1000 (published st) (logBuffer st) ∧
  ∀ conn size head, handlers st !! conn = Some (Reading size head) →
    0 < size <= 1000 ∧ 0 <= head < 1000.





End LogFanout.

(** ** Runs of the HTTP server *)

Module ServerRun.

(** The characters of a string. *)
Definition chars (s : string) : list ascii := list_ascii_of_string s.

(** [strings.Join(words, " ")] *)
Fixpoint join_space (words : list string) : string :=
  match words with
  | [] => EmptyString
  | [w] => w
  | w :: ws => (w ++ " " ++ join_space ws)%string
  end.

Section run.
Variable rnd : Q → Q.
Variable sha512_hex : string → string.
Variable hmac : Auth.SigningMethod → list ascii → string → list ascii.
Variable encode_header : string → string.
Variable decode_header : string → option (option string).
Variable encode_claims : Auth.Claims → string.
Variable decode_claims : string → option Auth.Claims.
Variable render_token : Auth.tokenString → string.
Variable parse_token : string → Auth.tokenString.
Variable SplitHostPort : string → option string.
Variable file_exists : string → bool.
Variable later : Z → Z.

(** The requests of a list served one after the other, each with the clock
    reading that comes with it. *)
Fixpoint serve_all (requests : list (Server.Request * Z)) (g : Server.Globals)
    : list Server.outcome * Server.Globals :=
  match requests with
  | [] => ([], g)
  | (r, now) :: requests' =>
      let '(o, g') :=
        Server.ServeHTTP rnd sha512_hex hmac encode_header decode_header
          encode_claims decode_claims render_token parse_token SplitHostPort
          file_exists later r now g in
      let '(os, g'') := serve_all requests' g' in
      (o :: os, g'')
  end.

End run.

(** What no handler changes: the credentials, the salt, the secret, the log
    level, and the presence of the two limiters. *)
Definition same_settings (g g' : Server.Globals) : Prop :=
  Server.adminPassword g' = Server.adminPassword g ∧
  Server.adminUsername g' = Server.adminUsername g ∧
  Server.passwordSalt g' = Server.passwordSalt g ∧
  Server.adminLogLevel g' = Server.adminLogLevel g ∧
  Server.jwtSecret g' = Server.jwtSecret g ∧
  (is_Some (Server.loginRateLimiter g) → is_Some (Server.loginRateLimiter g')) ∧
  (is_Some (Server.rconRateLimiter g) → is_Some (Server.rconRateLimiter g')).

(** The library routines the server is built on, in one record. *)
Record Library := mkLibrary {
  lib_rnd : Q → Q;
  lib_sha512_hex : string → string;
  lib_hmac : Auth.SigningMethod → list ascii → string → list ascii;
  lib_encode_header : string → string;
  lib_decode_header : string → option (option string);
  lib_encode_claims : Auth.Claims → string;
  lib_decode_claims : string → option Auth.Claims;
  lib_render_token : Auth.tokenString → string;
  lib_parse_token : string → Auth.tokenString;
  lib_SplitHostPort : string → option string;
  lib_file_exists : string → bool;
  lib_later : Z → Z;
  lib_random_secret : list ascii;
  lib_random_salt : string
}.

(** [init], then the requests of a list served in order. *)
Definition start (L : Library) (env : Server.Env) : Server.Globals :=
  Server.init (lib_rnd L) (lib_random_secret L) (lib_random_salt L) env.

Definition serve (L : Library) : Server.handler :=
  Server.ServeHTTP (lib_rnd L) (lib_sha512_hex L) (lib_hmac L) (lib_encode_header L)
    (lib_decode_header L) (lib_encode_claims L) (lib_decode_claims L)
    (lib_render_token L) (lib_parse_token L) (lib_SplitHostPort L) (lib_file_exists L)
    (lib_later L).

Definition run (L : Library) (requests : list (Server.Request * Z))
    (g : Server.Globals) : list Server.outcome * Server.Globals :=
  serve_all (lib_rnd L) (lib_sha512_hex L) (lib_hmac L) (lib_encode_header L)
    (lib_decode_header L) (lib_encode_claims L) (lib_decode_claims L)
    (lib_render_token L) (lib_parse_token L) (lib_SplitHostPort L) (lib_file_exists L)
    (lib_later L) requests g.

(** What IEEE 754 rounding gives: monotone, and exact on integers of
    magnitude up to 2^53. *)
Definition float64_rounding (rnd : Q → Q) : Prop :=
  (∀ x y : Q, (x <= y)%Q → (rnd x <= rnd y)%Q) ∧
  (∀ z : Z, Z.abs z <= 2 ^ 53 → (rnd (inject_Z z) == inject_Z z)%Q).

(** An example: exact arithmetic, codecs that keep the parts of a token apart,
    every file present. *)
Definition example_library : Library :=
  {| lib_rnd := λ x, x;
     lib_sha512_hex := λ s, ("h(" ++ s ++ ")")%string;
     lib_hmac := λ _ key text, key ++ list_ascii_of_string text;
     lib_encode_header := λ alg, alg;
     lib_decode_header := λ s, Some (Some s);
     lib_encode_claims := λ c, Auth.Username c;
     lib_decode_claims := λ s,
       Some (Auth.mkClaims "admin" s
               (Auth.mkRegisteredClaims "xash3d-server" (Some 86400) None (Some 0)));
     lib_render_token := λ t,
       match t with
       | Auth.Malformed => ""%string
       | Auth.Segments h c sig => (h ++ "." ++ c ++ "." ++ string_of_list_ascii sig)%string
       end;
     lib_parse_token := λ s,
       if String.eqb s "HS256.admin.kHS256.admin"
       then Auth.Segments "HS256" "admin" (list_ascii_of_string "kHS256.admin")
       else Auth.Malformed;
     lib_SplitHostPort := λ s, Some s;
     lib_file_exists := λ _, true;
     lib_later := λ t, t;
     lib_random_secret := ["k"%char];
     lib_random_salt := "73616c74" |}.

(** The handlers over a library. *)
Definition login (L : Library) : Server.handler :=
  Server.loginHandler (lib_sha512_hex L) (lib_hmac L) (lib_encode_header L)
    (lib_encode_claims L) (lib_render_token L) (lib_later L).

Definition authorised (L : Library) (next : Server.handler) : Server.handler :=
  Server.authMiddleware (lib_hmac L) (lib_decode_header L) (lib_decode_claims L)
    (lib_parse_token L) next.

(** The claims [generateToken] writes for [username] when its two readings
    of the clock are [now] and [now'], and the token it signs with the
    server's secret. *)
Definition issued_claims (username : string) (now now' : Z) : Auth.Claims :=
  {| Auth.Role := "admin";
     Auth.Username := username;
     Auth.Registered :=
       {| Auth.ExpiresAt := Some (Auth.NewNumericDate (now + Auth.jwtExpiration));
          Auth.IssuedAt := Some (Auth.NewNumericDate now');
          Auth.NotBefore := None;
          Auth.Issuer := "xash3d-server" |} |}.

Definition issued_token (L : Library) (g : Server.Globals) (now now' : Z)
    : Auth.tokenString :=
  let header := lib_encode_header L (Auth.Alg Auth.HS256) in
  let body := lib_encode_claims L (issued_claims (Server.adminUsername g) now now') in
  Auth.Segments header body
    (lib_hmac L Auth.HS256 (Server.jwtSecret g) (Auth.signingString header body)).

(** Outcomes of which the first [k] are not 429 and all later ones are. *)
Definition limited_from (k : nat) (os : list Server.outcome) : Prop :=
  ∀ (i : nat) o, os !! i = Some o →
    ((i < k)%nat → o ≠ Server.Status Server.StatusTooManyRequests) ∧
    ((k <= i)%nat → o = Server.Status Server.StatusTooManyRequests).

(** A server with a password configured: the privileged features are on and
    both limiters exist. *)
Definition enabled (g : Server.Globals) : Prop :=
  Server.disabled g = false ∧
  is_Some (Server.loginRateLimiter g) ∧ is_Some (Server.rconRateLimiter g).

End ServerRun.

(** ** The log stream as its subscribers see it *)

Module LogStream.
Import LogFanout.

(** The line of a live frame; a history frame is not live. *)
Definition log_lines (f : frame) : list string :=
  match f with
  | History _ => []
  | Log message => [message]
  end.

(** The live lines of a connection: those written to it, then those waiting
    in its channel. *)
Definition live (st : State) (conn : nat) : list string :=
  (default [] (wire st !! conn) ≫= log_lines) ++ default [] (logClients st !! conn).


(** Is the step one of the dispatcher and the publishers, or of the handler
    or the write pump of [conn]. *)
Definition concerns (conn : nat) (s : step) : bool :=
  match s with
  | Handler c _ | Pump c => bool_decide (c = conn)
  | _ => true
  end.

(** What the handler of [conn] and its client can see of the state. *)
Definition view (st : State) (conn : nat)
    : Logging.CircularBuffer * list string * list Logging.LogEntry * list string
      * option (list string) * option (list frame) * option phase :=
  (logBuffer st, logBroadcast st, published st, offered st,
   logClients st !! conn, wire st !! conn, handlers st !! conn).

End LogStream.

(** ** The limiter's visitors over time *)

Module Visitors.
Import RateLimit.

(** getLastTime returns the last refill time (for cleanup) *)
Definition getLastTime (tb : atomicTokenBucket) : Z :=
  let state := state tb in
  Z.land state 4294967295.

(** One round of [cleanupVisitors], at a tick of its ticker: [now] is the
    clock reading, and an entry goes when it has not been used in 10
    minutes. *)
Definition cleanupVisitors (rl : RateLimiter) (now : Z) : RateLimiter :=
  {| visitors :=
       filter (λ kv : string * atomicTokenBucket, ¬ (now - getLastTime kv.2 > 600))
              (visitors rl);
     rate := rate rl; capacity := capacity rl |}.

(** What happens to a limiter: a request of a client, or a round of the
    cleanup, each at its clock reading (in seconds). *)
Inductive event :=
| Call (ip : string) (now : Z)
| Tick (now : Z).

Definition event_time (e : event) : Z :=
  match e with Call _ now => now | Tick now => now end.

Definition is_call (e : event) : bool :=
  match e with Call _ _ => true | Tick _ => false end.

(** The answers to the calls of a history, in order. *)
Fixpoint run (rnd : Q → Q) (rl : RateLimiter) (events : list event)
    : list bool * RateLimiter :=
  match events with
  | [] => ([], rl)
  | Call ip now :: events' =>
      let '(ok, rl') := Allow rnd rl ip now now in
      let '(oks, rl'') := run rnd rl' events' in
      (ok :: oks, rl'')
  | Tick now :: events' => run rnd (cleanupVisitors rl now) events'
  end.

(** The clock does not go back, from [t0] on, and fits the bucket's 32-bit
    time field. *)
Fixpoint clock (t0 : Z) (events : list event) : Prop :=
  match events with
  | [] => True
  | e :: events' => t0 <= event_time e < 2 ^ 32 ∧ clock (event_time e) events'
  end.

(** Two limiters that differ only in entries the first has dropped, each
    unused in the 10 minutes before [t0]. *)
Definition idle_only (t0 : Z) (rl1 rl2 : RateLimiter) : Prop :=
  rate rl1 = rate rl2 ∧ capacity rl1 = capacity rl2 ∧
  (∀ ip tb, visitors rl2 !! ip = Some tb → 0 <= tokensOf tb) ∧
  ∀ ip, visitors rl1 !! ip = visitors rl2 !! ip ∨
        (visitors rl1 !! ip = None ∧
         ∃ tb, visitors rl2 !! ip = Some tb ∧ t0 - getLastTime tb > 600).

End Visitors.

(** ** The log socket's authentication *)

Module LogsSocket.
Import Server.

(** What the client of a log socket is told before the stream starts:
    [Unavailable] is the 503 of the disabled state, [NoUpgrade] a failed
    upgrade, [AuthError] the "v1:error" message that precedes the close,
    [AuthOk] the confirmation, after which the history is sent and the
    client registered. *)
Inductive reply :=
| Unavailable
| NoUpgrade
| AuthError (error : string)
| AuthOk.

Section auth.
Variable hmac : Auth.SigningMethod → list ascii → string → list ascii.
Variable decode_header : string → option (option string).
Variable decode_claims : string → option Auth.Claims.
Variable parse_token : string → Auth.tokenString.

(** logsWebSocketHandler up to the confirmation. [upgraded] tells whether
    [upgrader.Upgrade] succeeds; [authMsg] is what [conn.ReadJSON] reads
    within the 5 seconds, the event and the token, [None] on an error. *)
Definition logsWebSocketHandler (g : Globals) (upgraded : bool)
    (authMsg : option (string * string)) (now : Z) : reply :=
  if disabled g then Unavailable
  else if negb upgraded then NoUpgrade
  else match authMsg with
  | None => AuthError "Failed to read auth message"
  | Some (Event, Token) =>
      if negb (String.eqb Event "v1:auth") || String.eqb Token ""
      then AuthError "Invalid auth message"
      else match Auth.validateToken hmac decode_header decode_claims (jwtSecret g)
                   (parse_token Token) now with
      | inr _ => AuthError "Invalid or expired token"
      | inl claims =>
          if negb (String.eqb (Auth.Role claims) "admin")
          then AuthError "Insufficient permissions"
          else if negb (String.eqb (Auth.Username claims) (adminUsername g))
          then AuthError "Invalid token"
          else AuthOk
      end
  end.

End auth.

End LogsSocket.

(** ** The sessions and the indices they hold *)

Module Sessions.
Import Signaling.

(** [TryGet] has never failed. *)
Definition never_exhausted (tr : list event) : Prop :=
  ∀ id b, Acquired id b false ∉ tr.

(** The indices that live sessions hold. *)
Definition held (w : World) : list Byte.byte := index <$> live w.

(** What the runs keep of a world: the capacity of the pool, and sessions
    numbered apart, below the next number. *)
Record numbered (w : World) : Prop := {
  numbered_NoDup : NoDup (sid <$> live w);
  numbered_below : Forall (λ s, (sid s < next_sid w)%nat) (live w)
}.

End Sessions.

(** ** config.go: the engine configuration *)

Module Config.

(** [strings.Split(s, sep)] for a separator of one byte. *)
Fixpoint Split (sep : ascii) (s : string) : list string :=
  match s with
  | EmptyString => [EmptyString]
  | String c s' =>
      if Ascii.eqb c sep then EmptyString :: Split sep s'
      else match Split sep s' with
           | w :: ws => String c w :: ws
           | [] => [String c EmptyString]
           end
  end.

(** [strings.SplitN(s, sep, 2)]: the string cut at the first separator. *)
Fixpoint SplitN2 (sep : ascii) (s : string) : list string :=
  match s with
  | EmptyString => [EmptyString]
  | String c s' =>
      if Ascii.eqb c sep then [EmptyString; s']
      else match SplitN2 sep s' with
           | w :: ws => String c w :: ws
           | [] => [String c EmptyString]
           end
  end.

(** [strings.Join(words, sep)] *)
Fixpoint Join (sep : ascii) (words : list string) : string :=
  match words with
  | [] => EmptyString
  | [w] => w
  | w :: ws => (w ++ String sep (Join sep ws))%string
  end.

Section config.
(** [strings.TrimSpace] *)
Variable TrimSpace : string → string.

(** sliceArgs converts a comma-separated string into a slice of strings *)
Definition sliceArgs (value : string) : list string :=
  if String.eqb value "" then []
  else
    let parts := Split "," value in
    foldl (λ result part,
             let trimmed := TrimSpace part in
             if negb (String.eqb trimmed "") then result ++ [trimmed] else result)
          [] parts.

(** parseFilesMap converts "from:to,from:to" format into map[string]string *)
Definition parseFilesMap (value : string) : gmap string string :=
  let result : gmap string string := ∅ in
  if String.eqb value "" then result
  else
    let pairs := Split "," value in
    foldl (λ result pair,
             match SplitN2 ":" (TrimSpace pair) with
             | [from; to] => <[TrimSpace from := TrimSpace to]> result
             | _ => result
             end)
          result pairs.

End config.

(** An example of [TrimSpace]: it trims the white space of ASCII. *)
Definition is_space (c : ascii) : bool :=
  let n := nat_of_ascii c in ((9 <=? n) && (n <=? 13) || (n =? 32))%nat.

Fixpoint trim_left (s : string) : string :=
  match s with
  | EmptyString => EmptyString
  | String c s' => if is_space c then trim_left s' else s
  end.

Fixpoint trim_right (s : string) : string :=
  match s with
  | EmptyString => EmptyString
  | String c s' =>
      match trim_right s' with
      | EmptyString => if is_space c then EmptyString else String c EmptyString
      | t => String c t
      end
  end.

Definition trim_ascii (s : string) : string := trim_right (trim_left s).

(** The text of one entry of FILES_MAP. *)
Definition entry (kv : string * string) : string :=
  (kv.1 ++ String ":" kv.2)%string.

End Config.

(** ** ReadLoop: from a data channel to the virtual network *)

Module Reader.
Import Net.

Definition messageSize : Z := 1024 * 8.

(** One call of [d.Read(buffer)]: the bytes the reader puts at the start of
    the buffer, and whether the error is non-nil. An [io.Reader] may give
    both, and gives no more bytes than the buffer holds. *)
Definition read : Type := list Byte.byte * bool.

(** [ReadLoop] over the results of its calls of [Read], in order. [buffer]
    is the one buffer that every call reuses, [pushed] the packets given to
    [net.PushPacket] so far. The result tells whether the loop has returned:
    it has not when the reads run out, and then waits in [Read]. [None] is
    the panic of [buffer[:n]] for an [n] beyond the buffer. *)
Fixpoint ReadLoop (reads : list read) (ip : Byte.byte * Byte.byte * Byte.byte * Byte.byte)
    (buffer : list Byte.byte) (pushed : list Packet) : option (list Packet * bool) :=
  match reads with
  | [] => Some (pushed, false)
  | (bytes, err) :: reads' =>
      let n := length bytes in
      let buffer := take (length buffer) (bytes ++ drop n buffer) in
      if err then Some (pushed, true)
      else if (length buffer <? n)%nat then None
      else
        let data := take n buffer in
        ReadLoop reads' ip buffer
          (pushed ++ [{| PAddr := {| IP := ip; Port := 1000 |}; Data := data |}])
  end.

(** The reads before the first error. *)
Fixpoint before_error (reads : list read) : list read :=
  match reads with
  | [] => []
  | (bytes, err) :: reads' => if err then [] else (bytes, err) :: before_error reads'
  end.

End Reader.

(** ** signalPeerConnections *)

Module Signal.

(** A [peerConnectionState]: [pc] names the PeerConnection, [Closed] tells
    whether its state is [PeerConnectionStateClosed]. *)
Record peerConnectionState := mkPeer {
  pc : nat;
  Closed : bool;
  signalsCount : Z
}.

Section signal.
(** What the WebRTC library and the websocket do for one peer in one
    attempt: whether the track updates, [CreateOffer], [SetLocalDescription]
    and the writing of the offer all succeed. *)
Variable negotiate : nat → peerConnectionState → bool.

(** The loop of [attemptSync] from the index [length before] on; [offers]
    lists the peers an offer was written to. The result starts with
    [tryAgain]. *)
Fixpoint attemptSync_loop (syncAttempt : nat) (before rest : list peerConnectionState)
    (offers : list nat) : bool * list peerConnectionState * list nat :=
  match rest with
  | [] => (false, before, offers)
  | p :: rest' =>
      if signalsCount p <=? 0
      then attemptSync_loop syncAttempt (before ++ [p]) rest' offers
      else if Closed p then (true, before ++ rest', offers)
      else if negb (negotiate syncAttempt p) then (true, before ++ p :: rest', offers)
      else attemptSync_loop syncAttempt (before ++ [p]) rest' (offers ++ [pc p])
  end.

Definition attemptSync (syncAttempt : nat) (peerConnections : list peerConnectionState)
    : bool * list peerConnectionState * list nat :=
  attemptSync_loop syncAttempt [] peerConnections [].

(** The loop [for syncAttempt := 0; ; syncAttempt++] with [left] attempts
    left before the 25th. The last result tells whether the function gave up
    and scheduled itself again in 3 seconds. *)
Fixpoint sync_loop (left syncAttempt : nat) (peerConnections : list peerConnectionState)
    (offers : list nat) : list peerConnectionState * list nat * bool :=
  match left with
  | O => (peerConnections, offers, true)
  | S left' =>
      let '(tryAgain, peerConnections', sent) := attemptSync syncAttempt peerConnections in
      if negb tryAgain then (peerConnections', offers ++ sent, false)
      else sync_loop left' (S syncAttempt) peerConnections' (offers ++ sent)
  end.

(** signalPeerConnections updates each PeerConnection so that it is getting
    all the expected media tracks. *)
Definition signalPeerConnections (peerConnections : list peerConnectionState)
    : list peerConnectionState * list nat * bool :=
  sync_loop 25 0 peerConnections [].

End signal.

(** A peer that [attemptSync] removes: closed, with signals left. *)
Definition removable (p : peerConnectionState) : bool :=
  Closed p && (0 <? signalsCount p).

End Signal.

(** ** addTrack and removeTrack *)

Module Tracks.
Import Signal.

Definition DefaultSignalsCount : Z := 5.

(** [for _, con := range peerConnections { con.signalsCount = DefaultSignalsCount }] *)
Definition reset_signals (peerConnections : list peerConnectionState)
    : list peerConnectionState :=
  (λ con, {| pc := pc con; Closed := Closed con; signalsCount := DefaultSignalsCount |})
    <$> peerConnections.

Section tracks.
Variable negotiate : nat → peerConnectionState → bool.

(** [trackLocals] maps the ID of a track to the local track made for it,
    here the ID again. The deferred function runs [signalPeerConnections]
    after the body; its result comes with the new map. *)
Definition addTrack (trackLocals : gmap string string) (id : string)
    (peerConnections : list peerConnectionState)
    : gmap string string * (list peerConnectionState * list nat * bool) :=
  let trackLocals := <[id := id]> trackLocals in
  let peerConnections := reset_signals peerConnections in
  (trackLocals, signalPeerConnections negotiate peerConnections).

Definition removeTrack (trackLocals : gmap string string) (id : string)
    (peerConnections : list peerConnectionState)
    : gmap string string * (list peerConnectionState * list nat * bool) :=
  let peerConnections := reset_signals peerConnections in
  let trackLocals := delete id trackLocals in
  (trackLocals, signalPeerConnections negotiate peerConnections).

End tracks.

End Tracks.

(** * Facts *)

(** ** Go slices *)

Lemma index_Some {A} (s : list A) i x :
  index s i = Some x ↔ 0 <= i ∧ s !! Z.to_nat i = Some x.
Proof.
  unfold index. destruct (Z.ltb_spec i 0); split.
  - done.
  - intros [? ?]; lia.
  - intros; split; [lia | done].
  - by intros [? ?].
Qed.

Lemma index_of_nat {A} (s : list A) (n : nat) :
  index s (Z.of_nat n) = s !! n.
Proof.
  unfold index. destruct (Z.ltb_spec (Z.of_nat n) 0); [lia |].
  by rewrite Nat2Z.id.
Qed.

Lemma assign_Some {A} (s : list A) i x :
  0 <= i < Z.of_nat (length s) →
  assign s i x = Some (<[Z.to_nat i := x]> s).
Proof.
  intros Hi. unfold assign.
  destruct (Z.ltb_spec i 0); [lia |].
  destruct (Z.leb_spec (Z.of_nat (length s)) i); [lia | done].
Qed.

(** ** The ring buffer *)

Section ring_buffer.
Import Logging.

Lemma AddAll_snoc cb l e :
  AddAll cb (l ++ [e]) = (AddAll cb l ≫= λ cb', Add cb' e).
Proof.
  revert cb. induction l as [|x l IH]; intros cb; simpl.
  - by destruct (Add cb e).
  - destruct (Add cb x) as [cb'|]; simpl; [apply IH | done].
Qed.

(** Two distinct positions less than [N] apart use distinct slots. *)
Lemma slot_distinct (N i m : Z) :
  0 < N → 0 <= i < m → m - i < N → i mod N ≠ m mod N.
Proof.
  intros HN Hi Hd Heq.
  assert (H0 : (m - i) mod N = 0).
  { rewrite Zminus_mod, Heq, Z.sub_diag. by apply Z.mod_0_l, Z.neq_sym, Z.lt_neq. }
  rewrite Z.mod_small in H0 by lia. lia.
Qed.

Lemma ring_inv_New N :
  0 < N → ∃ cb, NewCircularBuffer N = Some cb ∧ ring_inv N [] cb.
Proof.
  intros HN. unfold NewCircularBuffer.
  destruct (Z.ltb_spec N 0); [lia |].
  eexists; split; [done |]. split; simpl.
  - done.
  - rewrite length_replicate. lia.
  - done.
  - lia.
  - done.
Qed.

Lemma ring_inv_Add N l cb e :
  0 < N → ring_inv N l cb →
  ∃ cb', Add cb e = Some cb' ∧ ring_inv N (l ++ [e]) cb'.
Proof.
  intros HN [Hc Hl Hh Hs Hsl].
  assert (Hhr : 0 <= head cb < N) by (rewrite Hh; by apply Z.mod_pos_bound).
  unfold Add. rewrite assign_Some by lia. simpl.
  unfold go_rem. rewrite Hc.
  destruct (Z.eqb_spec N 0); [lia |]. simpl.
  eexists; split; [done |].
  split; simpl.
  - done.
  - rewrite length_insert. lia.
  - rewrite length_app, Z.rem_mod_nonneg by lia. simpl.
    rewrite Hh, Zplus_mod_idemp_l. f_equal. lia.
  - rewrite length_app. simpl. rewrite Hs.
    destruct (Z.ltb_spec (Z.min (Z.of_nat (length l)) N) N); lia.
  - intros i x Hi Hw. rewrite length_app in Hw. simpl in Hw.
    apply index_Some. split; [apply Z.mod_pos_bound; lia |].
    destruct (decide (i = length l)) as [->|Hne].
    + rewrite list_lookup_middle in Hi by done. injection Hi as <-.
      rewrite <- Hh. apply list_lookup_insert_eq. lia.
    + assert (Hlt : (i < length l)%nat).
      { apply lookup_lt_Some in Hi. rewrite length_app in Hi. simpl in Hi. lia. }
      rewrite lookup_app_l in Hi by done.
      rewrite list_lookup_insert_ne.
      * specialize (Hsl i x Hi). apply index_Some in Hsl; [tauto | lia].
      * rewrite Hh. intros Heq. apply Z2Nat.inj in Heq;
          try (apply Z.mod_pos_bound; lia).
        symmetry in Heq. revert Heq. apply slot_distinct; lia.
Qed.

Lemma ring_inv_AddAll N l :
  0 < N →
  ∃ cb0 cb, NewCircularBuffer N = Some cb0 ∧ AddAll cb0 l = Some cb ∧
            ring_inv N l cb.
Proof.
  intros HN. destruct (ring_inv_New N HN) as (cb0 & H0 & Hinv0).
  exists cb0. induction l as [|e l IH] using rev_ind.
  - by exists cb0.
  - destruct IH as (cb & ? & Hadd & Hinv).
    destruct (ring_inv_Add N l cb e HN Hinv) as (cb' & HA & Hinv').
    exists cb'. split; [done |]. split; [| done].
    rewrite AddAll_snoc, Hadd. done.
Qed.

(** The copy loop fills the remaining cells of [result] with what it reads. *)
Lemma GetAll_loop_spec cb start xs pre :
  capacity cb ≠ 0 →
  (∀ (k : nat) x, xs !! k = Some x →
     index (buffer cb)
       (Z.rem (start + (Z.of_nat (length pre) + Z.of_nat k)) (capacity cb)) = Some x) →
  GetAll_loop cb start (length xs) (Z.of_nat (length pre))
    (pre ++ replicate (length xs) None) = Some (pre ++ xs).
Proof.
  intros Hc. revert pre. induction xs as [|x xs IH]; intros pre Hrd; simpl.
  - done.
  - unfold go_rem. destruct (Z.eqb_spec (capacity cb) 0); [done |]. simpl.
    specialize (Hrd 0%nat x eq_refl) as Hx. simpl in Hx.
    rewrite Z.add_0_r in Hx. rewrite Hx. simpl.
    rewrite assign_Some by (rewrite length_app; simpl; lia). simpl.
    rewrite Nat2Z.id.
    replace (<[length pre:=x]> (pre ++ None :: replicate (length xs) None))
      with ((pre ++ [x]) ++ replicate (length xs) None).
    2:{ rewrite <- app_assoc. simpl.
        pose proof (insert_app_r pre (None :: replicate (length xs) None) 0 x) as Hins.
        rewrite Nat.add_0_r in Hins. by rewrite Hins. }
    replace (Z.of_nat (length pre) + 1) with (Z.of_nat (length (pre ++ [x])))
      by (rewrite length_app; simpl; lia).
    rewrite IH.
    + by rewrite <- app_assoc.
    + intros k y Hk. rewrite length_app. simpl.
      specialize (Hrd (S k) y Hk).
      replace (Z.of_nat (length pre + 1) + Z.of_nat k)
        with (Z.of_nat (length pre) + Z.of_nat (S k)) by lia.
      done.
Qed.

Lemma ring_inv_GetAll N l cb :
  0 < N → ring_inv N l cb →
  GetAll cb [] = Some (Some <$> drop (length l - Z.to_nat N) l).
Proof.
  intros HN [Hc Hl Hh Hs Hsl]. unfold GetAll, GetAll_copy. cbn [AddAll mbind option_bind].
  set (d := (length l - Z.to_nat N)%nat).
  assert (Hlen : Z.of_nat (length (drop d l)) = size cb).
  { rewrite length_drop, Hs. unfold d. lia. }
  destruct (Z.eqb_spec (size cb) 0) as [H0|H0].
  - rewrite H0 in Hlen. destruct (drop d l); [done | simpl in Hlen; lia].
  - destruct (Z.ltb_spec (size cb) 0); [lia |].
    set (start := if head cb - size cb <? 0 then _ else _).
    assert (Hst : 0 <= start ∧ start mod N = Z.of_nat d mod N).
    { unfold start. rewrite Hc, Hh, Hs.
      destruct (Z.le_gt_cases N (Z.of_nat (length l))) as [Hge|Hlt].
      - rewrite Z.min_r by lia.
        pose proof (Z.mod_pos_bound (Z.of_nat (length l)) N HN).
        destruct (Z.ltb_spec (Z.of_nat (length l) mod N - N) 0); [| lia].
        split; [lia |].
        replace (Z.of_nat (length l) mod N - N + N)
          with (Z.of_nat (length l) mod N) by lia.
        rewrite Z.mod_mod by lia.
        replace (Z.of_nat (length l)) with (Z.of_nat d + 1 * N) by (unfold d; lia).
        by rewrite Z.mod_add by lia.
      - rewrite Z.min_l, Z.mod_small by lia.
        destruct (Z.ltb_spec (Z.of_nat (length l) - Z.of_nat (length l)) 0); [lia |].
        replace d with 0%nat by (unfold d; lia).
        split; [lia |]. f_equal. lia. }
    destruct Hst as [Hst0 Hst].
    pose proof (GetAll_loop_spec cb start (Some <$> drop d l) [] ) as Hloop.
    rewrite length_fmap in Hloop. simpl in Hloop.
    rewrite <- Hlen, Nat2Z.id. apply Hloop; [lia |].
    intros k x Hk. rewrite list_lookup_fmap, lookup_drop in Hk.
    destruct (l !! (d + k)%nat) as [e|] eqn:He; [| done].
    injection Hk as <-. rewrite Hc, Z.rem_mod_nonneg by lia.
    rewrite <- Zplus_mod_idemp_l, Hst, Zplus_mod_idemp_l.
    replace (Z.of_nat d + (Z.of_nat 0 + Z.of_nat k)) with (Z.of_nat (d + k)) by lia.
    apply Hsl; [done |]. unfold d. lia.
Qed.

End ring_buffer.

(** C6 (the code at the failing input). A ring of capacity 4 to which five
    entries have been added, and one call of [GetAll]. When no [Add] falls into the call it returns the last
    four entries, oldest first. When a sixth entry is added between the two
    lock sections of the call, the result starts with that newest entry,
    followed by three older ones: it is not in chronological order, and it
    is not the last four entries in order of any moment. *)
Theorem GetAll_torn_by_concurrent_Add :
  let e := λ n : Z, Logging.mkLogEntry n "line" in
  ∃ cb0 cb,
    Logging.NewCircularBuffer 4 = Some cb0 ∧
    Logging.AddAll cb0 [e 1; e 2; e 3; e 4; e 5] = Some cb ∧
    Logging.GetAll cb [] = Some [Some (e 2); Some (e 3); Some (e 4); Some (e 5)] ∧
    Logging.GetAll cb [e 6] = Some [Some (e 6); Some (e 3); Some (e 4); Some (e 5)].
Proof. intros e. eexists _, _. repeat split; reflexivity. Qed.

(** X25. For a ring buffer of capacity [N > 0], after the entries of [l]
    have been added in order, a call of [GetAll] that no [Add] falls into
    returns the entries of [l] from the oldest one still held to the newest:
    the list [l] without its first [length l - N] entries, so at most [N] of
    them; when [l] has [N + k] entries these are exactly its last [N]
    entries. No call panics. *)
Theorem CircularBuffer_GetAll_last_entries (N : Z) (l : list Logging.LogEntry) :
  0 < N →
  ∃ cb0 cb out,
    Logging.NewCircularBuffer N = Some cb0 ∧
    Logging.AddAll cb0 l = Some cb ∧
    Logging.GetAll cb [] = Some out ∧
    out = Some <$> drop (length l - Z.to_nat N) l ∧
    Z.of_nat (length out) <= N ∧
    (∀ k : nat, Z.of_nat (length l) = N + Z.of_nat k →
       out = Some <$> drop k l ∧ Z.of_nat (length out) = N).
Proof.
  intros HN.
  destruct (ring_inv_AddAll N l HN) as (cb0 & cb & Hnew & Hadd & Hinv).
  exists cb0, cb, (Some <$> drop (length l - Z.to_nat N) l).
  repeat split; try done.
  - by apply ring_inv_GetAll.
  - rewrite length_fmap, length_drop. lia.
  - f_equal. f_equal. lia.
  - rewrite length_fmap, length_drop. lia.
Qed.

Lemma CircularBuffer_GetAll_last_entries_witness :
  0 < 2 ∧
  ∃ cb0 cb out,
    Logging.NewCircularBuffer 2 = Some cb0 ∧
    Logging.AddAll cb0
      [Logging.mkLogEntry 1 "a"; Logging.mkLogEntry 2 "b"; Logging.mkLogEntry 3 "c"]
      = Some cb ∧
    Logging.GetAll cb [] = Some out ∧
    out = [Some (Logging.mkLogEntry 2 "b"); Some (Logging.mkLogEntry 3 "c")].
Proof.
  split; [lia |].
  destruct (CircularBuffer_GetAll_last_entries 2
              [Logging.mkLogEntry 1 "a"; Logging.mkLogEntry 2 "b";
               Logging.mkLogEntry 3 "c"]) as (cb0 & cb & out & ? & ? & ? & ? & _);
    [lia |].
  by exists cb0, cb, out.
Defined.


(** ** The token bucket *)

Section token_bucket.
Import RateLimit.

Lemma Qtrunc_Z (z : Z) : Qtrunc (inject_Z z) = z.
Proof. unfold Qtrunc. destruct (Qle_bool 0 (inject_Z z)); [apply Qfloor_Z | apply Qceiling_Z]. Qed.

Lemma Qtrunc_mono (x y : Q) : (x <= y)%Q → Qtrunc x <= Qtrunc y.
Proof.
  intros Hxy. unfold Qtrunc.
  destruct (Qle_bool 0 x) eqn:Hx, (Qle_bool 0 y) eqn:Hy.
  - by apply Qfloor_resp_le.
  - apply Qle_bool_iff in Hx. assert (Hy' : (0 <= y)%Q) by (by apply Qle_trans with x).
    apply Qle_bool_iff in Hy'. congruence.
  - apply Qle_bool_iff in Hy.
    assert (Hx' : (x <= 0)%Q).
    { apply Qnot_lt_le. intros Hlt. apply Qlt_le_weak, Qle_bool_iff in Hlt. congruence. }
    transitivity 0.
    + change 0 with (Qceiling (inject_Z 0)). by apply Qceiling_resp_le.
    + change 0 with (Qfloor (inject_Z 0)). by apply Qfloor_resp_le.
  - by apply Qceiling_resp_le.
Qed.

#[local] Instance Qtrunc_proper : Proper (Qeq ==> eq) Qtrunc.
Proof.
  intros x y Hxy. unfold Qtrunc.
  rewrite (Qleb_comp 0%Q 0%Q (Qeq_refl 0%Q) x y Hxy).
  by rewrite (Qfloor_comp x y Hxy), (Qceiling_comp x y Hxy).
Qed.

#[local] Instance Qlt_bool_proper : Proper (Qeq ==> Qeq ==> eq) Qlt_bool.
Proof.
  intros x y Hxy x' y' Hxy'. unfold Qlt_bool.
  by rewrite (Qleb_comp x' y' Hxy' x y Hxy).
Qed.

Lemma Qlt_bool_false (x y : Q) : Qlt_bool x y = false ↔ (y <= x)%Q.
Proof.
  unfold Qlt_bool. rewrite negb_false_iff. apply Qle_bool_iff.
Qed.

(** *** The packed word *)

Lemma pack_tokens (v t : Z) :
  0 <= v < 2 ^ 32 → 0 <= t < 2 ^ 32 →
  Z.shiftr (Z.lor (uint64 (Z.shiftl (uint64 v) 32)) (uint64 t)) 32 = v.
Proof.
  intros Hv Ht. unfold uint64.
  rewrite (Z.mod_small v), (Z.mod_small t) by lia.
  rewrite Z.shiftl_mul_pow2 by lia.
  rewrite (Z.mod_small (v * 2 ^ 32)) by lia.
  rewrite Z.shiftr_lor, !Z.shiftr_div_pow2 by lia.
  rewrite Z.div_mul by lia. rewrite (Z.div_small t) by lia.
  apply Z.lor_0_r.
Qed.

Lemma pack_time (v t : Z) :
  0 <= v < 2 ^ 32 → 0 <= t < 2 ^ 32 →
  Z.land (Z.lor (uint64 (Z.shiftl (uint64 v) 32)) (uint64 t)) 4294967295 = t.
Proof.
  intros Hv Ht. unfold uint64.
  rewrite (Z.mod_small v), (Z.mod_small t) by lia.
  rewrite Z.shiftl_mul_pow2 by lia.
  rewrite (Z.mod_small (v * 2 ^ 32)) by lia.
  change 4294967295 with (Z.ones 32).
  rewrite Z.land_lor_distr_l, !Z.land_ones by lia.
  rewrite Z.mod_mul by lia. rewrite (Z.mod_small t) by lia.
  apply Z.lor_0_l.
Qed.

Variable rnd : Q → Q.
Hypothesis rnd_mono : ∀ x y : Q, (x <= y)%Q → (rnd x <= rnd y)%Q.
Hypothesis rnd_int : ∀ z : Z, Z.abs z <= 2 ^ 53 → (rnd (inject_Z z) == inject_Z z)%Q.

#[local] Instance rnd_proper : Proper (Qeq ==> Qeq) rnd.
Proof.
  intros x y Hxy. apply Qle_antisym; apply rnd_mono; rewrite Hxy; apply Qle_refl.
Qed.

Lemma rnd_nonneg (x : Q) : (0 <= x)%Q → (0 <= rnd x)%Q.
Proof.
  intros Hx. rewrite <- (rnd_int 0) by (simpl; lia). by apply rnd_mono.
Qed.

(** *** One call *)

Lemma refill_le_capacity tb rate capacity now :
  (refill rnd tb rate capacity now <= capacity)%Q.
Proof.
  unfold refill. match goal with |- context [Qlt_bool ?a ?b] =>
    destruct (Qlt_bool a b) eqn:Hc end.
  - apply Qle_refl.
  - by apply Qlt_bool_false.
Qed.

Section capacity.
Variable capacity : Q.
Hypothesis capacity_float : (rnd capacity == capacity)%Q.
Hypothesis capacity_nonneg : (0 <= capacity)%Q.
Hypothesis capacity_range : fullTokens rnd capacity < 2 ^ 32.

Abbreviation bucket_ok := (RateLimit.bucket_ok rnd capacity).

Lemma fullTokens_nonneg : 0 <= fullTokens rnd capacity.
Proof.
  unfold fullTokens, fmul. rewrite <- (Qtrunc_Z 0).
  apply Qtrunc_mono, rnd_nonneg, Qmult_le_0_compat; [done |]. done.
Qed.

Lemma newAtomicTokenBucket_full now :
  tokensOf (newAtomicTokenBucket rnd capacity now) = fullTokens rnd capacity.
Proof.
  pose proof fullTokens_nonneg as H0.
  unfold tokensOf, newAtomicTokenBucket. simpl.
  fold (fullTokens rnd capacity).
  unfold uint32 at 1. rewrite (Z.mod_small (fullTokens rnd capacity)) by lia.
  apply pack_tokens; [lia |]. unfold uint32. apply Z.mod_pos_bound. lia.
Qed.

(** What a successful [allow] leaves in the bucket. *)
Lemma allow_true tb rate now tb' :
  0 <= now < 2 ^ 32 →
  allow rnd tb rate capacity now = (true, tb') →
  let newTokens := fsub rnd (refill rnd tb rate capacity now) 1 in
  (1 <= refill rnd tb rate capacity now)%Q ∧
  (0 <= newTokens)%Q ∧ (newTokens <= capacity)%Q ∧
  tokensOf tb' = Qtrunc (fmul rnd newTokens (inject_Z tokenMultiplier)) ∧
  timeOf tb' = now ∧ bucket_ok tb'.
Proof.
  intros Hnow. unfold allow.
  pose proof (refill_le_capacity tb rate capacity now) as Hle.
  set (r := refill rnd tb rate capacity now) in *.
  destruct (Qlt_bool r 1) eqn:H1; [done |].
  apply Qlt_bool_false in H1. intros [= <-]. simpl.
  assert (Hn0 : (0 <= fsub rnd r 1)%Q).
  { apply rnd_nonneg. by apply (Qle_minus_iff 1 r). }
  assert (Hnc : (fsub rnd r 1 <= capacity)%Q).
  { unfold fsub. rewrite <- capacity_float. apply rnd_mono.
    apply Qle_trans with r; [| done].
    apply Qle_minus_iff. ring_simplify. done. }
  set (v := Qtrunc (fmul rnd (fsub rnd r 1) (inject_Z tokenMultiplier))).
  assert (Hv : 0 <= v <= fullTokens rnd capacity).
  { split.
    - rewrite <- (Qtrunc_Z 0). apply Qtrunc_mono, rnd_nonneg.
      apply Qmult_le_0_compat; [done | done].
    - apply Qtrunc_mono, rnd_mono, Qmult_le_compat_r; [done | done]. }
  assert (Hu : uint64 v = v) by (unfold uint64; apply Z.mod_small; lia).
  assert (Ht : tokensOf
            {| state := Z.lor (uint64 (Z.shiftl (uint64 v) 32)) (uint64 now) |} = v).
  { unfold tokensOf. simpl. apply pack_tokens; lia. }
  repeat split; try done.
  - unfold timeOf. simpl. apply pack_time; lia.
  - rewrite Ht. lia.
  - rewrite Ht. lia.
Qed.

Lemma allow_false tb rate now tb' :
  allow rnd tb rate capacity now = (false, tb') → tb' = tb.
Proof.
  unfold allow. destruct (Qlt_bool _ 1); [by intros [= <-] | done].
Qed.

Lemma allow_bucket_ok tb rate now :
  0 <= now < 2 ^ 32 → bucket_ok tb →
  bucket_ok (allow rnd tb rate capacity now).2.
Proof.
  intros Hnow Hok.
  destruct (allow rnd tb rate capacity now) as [[] tb'] eqn:Ha; simpl.
  - by apply allow_true in Ha as (_ & _ & _ & _ & _ & ?).
  - by apply allow_false in Ha as ->.
Qed.

(** The retry loop keeps the invariant when the buckets stored by the other
    goroutines satisfy it. *)
Lemma allow_contended_bucket_ok contention : ∀ tb rate now,
  0 <= now < 2 ^ 32 → bucket_ok tb →
  Forall (λ c : Z * atomicTokenBucket, bucket_ok c.2) contention →
  bucket_ok (allow_contended rnd contention tb rate capacity now).2.
Proof.
  induction contention as [|[now' other] contention IH]; intros tb rate now Hnow Hok Hc.
  - by apply allow_bucket_ok.
  - apply Forall_cons in Hc as [Ho Hc]. simpl.
    destruct (allow rnd tb rate capacity now').1; [by apply IH | done].
Qed.


(** *** A history of calls *)

Lemma Allow_fields rl ip now0 now :
  rate (Allow rnd rl ip now0 now).2 = rate rl ∧
  RateLimit.capacity (Allow rnd rl ip now0 now).2 = RateLimit.capacity rl.
Proof. unfold Allow. by destruct (allow _ _ _ _ _). Qed.

Lemma Allow_limiter_ok rl ip now0 now :
  RateLimit.capacity rl = capacity → 0 <= now < 2 ^ 32 →
  limiter_ok rnd rl → limiter_ok rnd (Allow rnd rl ip now0 now).2.
Proof.
  intros Hc Hnow Hok. unfold limiter_ok in *.
  pose proof (Allow_fields rl ip now0 now) as [_ Hc'].
  rewrite Hc'. unfold Allow. rewrite Hc in *.
  set (b := default _ _).
  pose proof (allow_bucket_ok b (rate rl) now Hnow) as Hb.
  destruct (allow rnd b (rate rl) capacity now) as [ok b'] eqn:Ha. simpl in *.
  apply map_Forall_insert_2; [| done].
  apply Hb. unfold b. destruct (visitors rl !! ip) as [tb|] eqn:Hl; simpl.
  - by apply (Hok ip tb).
  - unfold RateLimit.bucket_ok. rewrite newAtomicTokenBucket_full.
    pose proof fullTokens_nonneg. lia.
Qed.

Lemma AllowAll_limiter_ok calls : ∀ rl,
  RateLimit.capacity rl = capacity →
  Forall (λ c : string * Z * Z, 0 <= c.2 < 2 ^ 32) calls →
  limiter_ok rnd rl → limiter_ok rnd (AllowAll rnd rl calls).2.
Proof.
  induction calls as [|[[ip now0] now] calls IH]; intros rl Hc Hts Hok; [done |].
  apply Forall_cons in Hts as [Hnow Hts]. simpl in *.
  pose proof (Allow_limiter_ok rl ip now0 now Hc Hnow Hok) as Hok'.
  pose proof (Allow_fields rl ip now0 now) as [_ Hc'].
  destruct (Allow rnd rl ip now0 now) as [ok rl'].
  specialize (IH rl'). destruct (AllowAll rnd rl' calls) as [oks rl''].
  simpl in *. apply IH; [congruence | done | done].
Qed.

End capacity.

(** *** A burst in one instant *)

Section burst.
Variables (n t : Z) (capacity : Q).
Hypothesis capacity_int : (capacity == inject_Z n)%Q.
Hypothesis n_range : 0 <= n ∧ n * 1000 < 2 ^ 32.
Hypothesis t_range : 0 <= t < 2 ^ 32.

Lemma refill_same_instant k rate :
  0 <= k <= n →
  (refill rnd (bucket_of k t) rate capacity t == inject_Z k)%Q.
Proof.
  intros Hk. unfold refill, bucket_of, tokenMultiplier. simpl.
  rewrite pack_tokens, pack_time by lia.
  assert (He : (fmul rnd (float64_of_Z rnd (t - t)) rate == 0)%Q).
  { unfold fmul, float64_of_Z. rewrite Z.sub_diag.
    rewrite (rnd_int 0) by (simpl; lia).
    rewrite Qmult_0_l. apply (rnd_int 0). simpl; lia. }
  assert (Ho : (fdiv rnd (float64_of_Z rnd (k * 1000)) (inject_Z 1000)
                == inject_Z k)%Q).
  { unfold fdiv, float64_of_Z. rewrite rnd_int by lia.
    rewrite inject_Z_mult, Qdiv_mult_l by done. apply rnd_int. lia. }
  assert (Hn : (fadd rnd (fdiv rnd (float64_of_Z rnd (k * 1000)) (inject_Z 1000))
                  (fmul rnd (float64_of_Z rnd (t - t)) rate) == inject_Z k)%Q).
  { unfold fadd. rewrite Ho, He, Qplus_0_r. apply rnd_int. lia. }
  match goal with |- context [Qlt_bool ?a ?b] =>
    destruct (Qlt_bool a b) eqn:Hc end; [| done].
  exfalso. rewrite (Qlt_bool_proper _ _ capacity_int _ _ Hn) in Hc.
  assert (Hle : (inject_Z k <= inject_Z n)%Q) by (rewrite <- Zle_Qle; lia).
  apply Qlt_bool_false in Hle. congruence.
Qed.

Lemma allow_same_instant k rate :
  0 <= k <= n →
  allow rnd (bucket_of k t) rate capacity t =
    if k =? 0 then (false, bucket_of k t) else (true, bucket_of (k - 1) t).
Proof.
  intros Hk. unfold allow.
  pose proof (refill_same_instant k rate Hk) as Hr.
  set (r := refill rnd (bucket_of k t) rate capacity t) in *.
  rewrite (Qlt_bool_proper _ _ Hr _ _ (Qeq_refl 1%Q)).
  destruct (Z.eqb_spec k 0) as [->|Hk0].
  - done.
  - assert (H1 : Qlt_bool (inject_Z k) 1 = false).
    { apply Qlt_bool_false. change 1%Q with (inject_Z 1). rewrite <- Zle_Qle. lia. }
    rewrite H1. f_equal. unfold bucket_of, tokenMultiplier. do 4 f_equal.
    assert (Hs : (fsub rnd r 1 == inject_Z (k - 1))%Q).
    { unfold fsub. rewrite Hr. change 1%Q with (inject_Z 1).
      unfold Qminus. rewrite <- inject_Z_opp, <- inject_Z_plus.
      apply rnd_int. lia. }
    assert (Hm : (fmul rnd (fsub rnd r 1) (inject_Z 1000)
                  == inject_Z ((k - 1) * 1000))%Q).
    { unfold fmul. rewrite Hs, <- inject_Z_mult. apply rnd_int. lia. }
    by rewrite (Qtrunc_proper _ _ Hm), Qtrunc_Z.
Qed.

Lemma newAtomicTokenBucket_int :
  newAtomicTokenBucket rnd capacity t = bucket_of n t.
Proof.
  unfold newAtomicTokenBucket, bucket_of, tokenMultiplier.
  assert (Hm : (fmul rnd capacity (inject_Z 1000) == inject_Z (n * 1000))%Q).
  { unfold fmul. rewrite capacity_int, <- inject_Z_mult. apply rnd_int. lia. }
  rewrite (Qtrunc_proper _ _ Hm), Qtrunc_Z.
  unfold uint32. by rewrite !Z.mod_small by lia.
Qed.

Lemma AllowAll_same_instant ip (m : nat) : ∀ k rl,
  0 <= k <= n → RateLimit.capacity rl = capacity →
  default (bucket_of n t) (visitors rl !! ip) = bucket_of k t →
  (AllowAll rnd rl (replicate m (ip, t, t))).1 =
    replicate (m `min` Z.to_nat k) true ++ replicate (m - Z.to_nat k) false.
Proof.
  induction m as [|m IH]; intros k rl Hk Hc Hb; [done |].
  simpl. unfold Allow at 1. rewrite Hc, newAtomicTokenBucket_int, Hb.
  rewrite allow_same_instant by done.
  destruct (Z.eqb_spec k 0) as [->|Hk0].
  - match goal with |- context [AllowAll rnd ?rl' _] =>
      specialize (IH 0 rl'); destruct (AllowAll rnd rl' _) as [oks rl''] end.
    simpl in *. rewrite IH; [| lia | done | by rewrite lookup_insert_eq].
    change (Z.to_nat 0) with 0%nat. by rewrite Nat.min_0_r, Nat.sub_0_r.
  - match goal with |- context [AllowAll rnd ?rl' _] =>
      specialize (IH (k - 1) rl'); destruct (AllowAll rnd rl' _) as [oks rl''] end.
    simpl in *. rewrite IH; [| lia | done | by rewrite lookup_insert_eq].
    by replace (Z.to_nat k) with (S (Z.to_nat (k - 1))) by lia.
Qed.

End burst.
End token_bucket.

(** C5. Take any float64 rounding [rnd] that is monotone and exact on
    integers up to 2^53, and a limiter built by [NewRateLimiter] whose
    capacity is a non-negative float64 that fits the 32-bit token field.
    After every history of [Allow] calls (any keys, any clock readings that
    fit the 32-bit time field), each bucket's token field lies between zero
    and the level of a full bucket; whenever [allow] then runs, the token
    count it computes is at most the capacity, and after a successful consume
    the count is not negative and is what the bucket stores. For a whole
    capacity [n], [n] calls on a fresh key in one instant all succeed and the
    next call in that instant fails. *)
Theorem token_bucket_bounds (rnd : Q → Q) (requestsPerMinute : Q) :
  (∀ x y : Q, (x <= y)%Q → (rnd x <= rnd y)%Q) →
  (∀ z : Z, Z.abs z <= 2 ^ 53 → (rnd (inject_Z z) == inject_Z z)%Q) →
  (rnd requestsPerMinute == requestsPerMinute)%Q →
  (0 <= requestsPerMinute)%Q →
  RateLimit.fullTokens rnd requestsPerMinute < 2 ^ 32 →
  let rl0 := RateLimit.NewRateLimiter rnd requestsPerMinute in
  (∀ calls : list (string * Z * Z),
     Forall (λ c, 0 <= c.2 < 2 ^ 32) calls →
     ∀ ip tb,
       RateLimit.visitors (RateLimit.AllowAll rnd rl0 calls).2 !! ip = Some tb →
       0 <= RateLimit.tokensOf tb <= RateLimit.fullTokens rnd requestsPerMinute ∧
       ∀ now, 0 <= now < 2 ^ 32 →
         let newTokens := RateLimit.refill rnd tb (RateLimit.rate rl0) requestsPerMinute now in
         (newTokens <= requestsPerMinute)%Q ∧
         ∀ tb', RateLimit.allow rnd tb (RateLimit.rate rl0) requestsPerMinute now = (true, tb') →
           (0 <= RateLimit.fsub rnd newTokens 1)%Q ∧
           RateLimit.tokensOf tb' =
             RateLimit.Qtrunc (RateLimit.fmul rnd (RateLimit.fsub rnd newTokens 1)
                                 (inject_Z RateLimit.tokenMultiplier)) ∧
           0 <= RateLimit.tokensOf tb' <= RateLimit.fullTokens rnd requestsPerMinute) ∧
  (∀ (n : nat) (rl : RateLimit.RateLimiter) ip t,
     (requestsPerMinute == inject_Z (Z.of_nat n))%Q →
     RateLimit.capacity rl = requestsPerMinute →
     RateLimit.visitors rl !! ip = None →
     0 <= t < 2 ^ 32 →
     (RateLimit.AllowAll rnd rl (replicate (S n) (ip, t, t))).1 =
       replicate n true ++ [false]).
Proof.
  intros Hmono Hint Hfloat Hnonneg Hrange rl0. split.
  - intros calls Hcalls ip tb Hlook.
    pose proof (AllowAll_limiter_ok rnd Hmono Hint requestsPerMinute Hfloat
                  Hnonneg Hrange calls rl0 eq_refl Hcalls) as Hok.
    assert (Hc : RateLimit.capacity (RateLimit.AllowAll rnd rl0 calls).2
                 = requestsPerMinute).
    { clear. generalize rl0 (eq_refl : RateLimit.capacity rl0 = requestsPerMinute).
      induction calls as [|[[ip now0] now] calls IH]; intros rl Hc; [done |].
      simpl. pose proof (Allow_fields rnd rl ip now0 now) as [_ Hc'].
      destruct (RateLimit.Allow rnd rl ip now0 now) as [ok rl'].
      specialize (IH rl'). destruct (RateLimit.AllowAll rnd rl' calls).
      simpl in *. apply IH. congruence. }
    specialize (Hok ltac:(apply map_Forall_empty) ip tb Hlook).
    simpl in Hok. rewrite Hc in Hok. split; [done |].
    intros now Hnow newTokens. split; [apply refill_le_capacity |].
    intros tb' Ha.
    by destruct (allow_true rnd Hmono Hint requestsPerMinute Hfloat Hrange
                   tb _ now tb' Hnow Ha) as (_ & ? & _ & ? & _ & ?).
  - intros n rl ip t Hn Hc Hfresh Ht.
    assert (Hr : 0 <= Z.of_nat n ∧ Z.of_nat n * 1000 < 2 ^ 32).
    { split; [lia |]. unfold RateLimit.fullTokens, RateLimit.tokenMultiplier in Hrange.
      assert (Hm : (RateLimit.fmul rnd requestsPerMinute (inject_Z 1000)
                    == inject_Z (Z.of_nat n * 1000))%Q).
      { unfold RateLimit.fmul.
        destruct (Z.le_gt_cases (Z.of_nat n * 1000) (2 ^ 53)) as [Hs|Hb].
        - rewrite (rnd_proper rnd Hmono _ _ (Qmult_comp _ _ Hn _ _ (Qeq_refl _))).
          rewrite <- inject_Z_mult. apply Hint. lia.
        - exfalso.
          assert (Hle : (inject_Z (2 ^ 53) <= rnd (requestsPerMinute * inject_Z 1000))%Q).
          { rewrite <- (Hint (2 ^ 53)) by lia. apply Hmono.
            rewrite Hn, <- inject_Z_mult, <- Zle_Qle. by apply Z.lt_le_incl. }
          apply Qtrunc_mono in Hle. rewrite Qtrunc_Z in Hle.
          unfold RateLimit.fmul in Hrange. lia. }
      rewrite (Qtrunc_proper _ _ Hm), Qtrunc_Z in Hrange. done. }
    rewrite (AllowAll_same_instant rnd Hmono Hint (Z.of_nat n) t requestsPerMinute
               Hn Hr Ht ip (S n) (Z.of_nat n) rl); [| lia | done |].
    + rewrite Nat2Z.id. replace (S n `min` n)%nat with n by lia.
      by replace (S n - n)%nat with 1%nat by lia.
    + by rewrite Hfresh.
Qed.

Lemma token_bucket_bounds_witness :
  (RateLimit.AllowAll (λ x, x) (RateLimit.NewRateLimiter (λ x, x) 5)
     (replicate 6 ("203.0.113.7", 1700000000, 1700000000))).1
  = [true; true; true; true; true; false].
Proof.
  refine (proj2 (token_bucket_bounds (λ x, x) 5 _ _ _ _ _) 5%nat _ _ _ _ _ _ _).
  - by intros x y H.
  - by intros z _.
  - reflexivity.
  - by vm_compute.
  - by vm_compute.
  - reflexivity.
  - reflexivity.
  - reflexivity.
  - lia.
Defined.

(** ** The virtual network layer *)

Section send_batch.
Import Net.
Context {Conn : Type}.
Variable Write : Conn → list Byte.byte → Conn * Z * bool.
Variable int_bits : Z.

(** The contract of [io.Writer]: [0 <= n <= len(p)]. *)
Hypothesis Write_count : ∀ c data,
  0 <= (Write c data).1.2 <= Z.of_nat (length data).
Hypothesis int_bits_pos : 0 < int_bits.

Abbreviation SendTo := (Net.SendTo Conn Write).
Abbreviation SendEach := (Net.SendEach Conn Write).
Abbreviation SendToBatch_loop := (Net.SendToBatch_loop Conn Write int_bits).

Lemma byte_to_Z_range b : 0 <= byte_to_Z b < 256.
Proof.
  unfold byte_to_Z. pose proof (Byte.to_N_bounded b). lia.
Qed.

Lemma wrap_int_small z :
  - 2 ^ (int_bits - 1) <= z < 2 ^ (int_bits - 1) → wrap_int int_bits z = z.
Proof.
  intros Hz. unfold wrap_int.
  assert (H2 : 2 ^ int_bits = 2 * 2 ^ (int_bits - 1)).
  { rewrite <- Z.pow_succ_r by lia. f_equal. lia. }
  rewrite Z.mod_small by lia. lia.
Qed.

(** [SendTo] never panics on a table of 256 entries, keeps the table's
    size, and its result is -1 or a count. *)
Lemma SendTo_total n fd packet flags :
  length (connections Conn n) = 256%nat →
  ∃ n' nn, SendTo n fd packet flags = Some (n', nn) ∧
           length (connections Conn n') = 256%nat ∧
           (nn = -1 ∨ 0 <= nn <= Z.of_nat (length (Data packet))) ∧
           ∃ attempt, wire Conn n' = wire Conn n ++ attempt ∧
                      (attempt = [] ∨ attempt = [wire_of packet]).
Proof.
  intros Hlen. unfold Net.SendTo.
  pose proof (byte_to_Z_range (IP0 (PAddr packet))) as Hb.
  destruct (lookup_lt_is_Some_2 (connections Conn n)
              (Z.to_nat (byte_to_Z (IP0 (PAddr packet))))) as [conn Hconn]; [lia |].
  assert (Hi : index (connections Conn n) (byte_to_Z (IP0 (PAddr packet))) = Some conn)
    by (apply index_Some; split; [lia | done]).
  rewrite Hi. simpl. destruct conn as [c|].
  - pose proof (Write_count c (Data packet)) as Hw.
    destruct (Write c (Data packet)) as [[c' nn] err]. simpl in Hw.
    destruct err; eexists _, _; (split; [done |]); simpl;
      rewrite length_insert; (split; [done |]);
      (split; [eauto |]); exists [wire_of packet]; eauto.
  - exists n, (-1). repeat split; eauto. exists []. rewrite app_nil_r. eauto.
Qed.

Lemma SendEach_wire packets : ∀ n fd flags n' nns,
  SendEach n fd packets flags = Some (n', nns) →
  wire Conn n' = wire Conn n ++ (wire_of <$> packets) ∧ length nns = length packets.
Proof.
  induction packets as [|p ps IH]; intros n fd flags n' nns; simpl.
  - intros [= <- <-]. by rewrite app_nil_r.
  - unfold Net.SendTo at 1.
    destruct (index _ _) as [[c|]|]; simpl; [| done | done].
    destruct (Write c (Data p)) as [[c' nn] err].
    destruct err; simpl; [done |].
    destruct (nn =? -1); [done |].
    destruct (SendEach _ fd ps flags) as [[n'' nns']|] eqn:He; simpl; [| done].
    intros [= <- <-]. apply IH in He as [-> Hl]. simpl.
    by rewrite <- app_assoc, Hl.
Qed.

Lemma SendEach_counts packets : ∀ n fd flags n' nns,
  SendEach n fd packets flags = Some (n', nns) → Forall (λ nn, 0 <= nn) nns.
Proof.
  induction packets as [|p ps IH]; intros n fd flags n' nns; simpl.
  - by intros [= <- <-].
  - unfold Net.SendTo at 1.
    destruct (index _ _) as [[c|]|]; simpl; [| done | done].
    pose proof (Write_count c (Data p)) as Hw.
    destruct (Write c (Data p)) as [[c' nn] err]. simpl in Hw.
    destruct err; simpl; [done |].
    destruct (nn =? -1); [done |].
    destruct (SendEach _ fd ps flags) as [[n'' nns']|] eqn:He; simpl; [| done].
    intros [= <- <-]. apply IH in He. constructor; [lia | done].
Qed.

Lemma SendEach_cons n fd p ps flags n' nns :
  SendEach n fd (p :: ps) flags = Some (n', nns) →
  ∃ n1 nn nns', SendTo n fd p flags = Some (n1, nn) ∧ nn ≠ -1 ∧
                SendEach n1 fd ps flags = Some (n', nns') ∧ nns = nn :: nns'.
Proof.
  simpl. destruct (SendTo n fd p flags) as [[n1 nn]|]; simpl; [| done].
  destruct (Z.eqb_spec nn (-1)); [done |].
  destruct (SendEach n1 fd ps flags) as [[n2 nns']|] eqn:He; simpl; [| done].
  intros [= <- <-]. by exists n1, nn, nns'.
Qed.

(** All sends succeed: the loop returns the running sum plus the counts. *)
Lemma SendToBatch_loop_all packets : ∀ n fd flags sum n' nns,
  SendEach n fd packets flags = Some (n', nns) →
  0 <= sum → sum + sum_list nns < 2 ^ (int_bits - 1) →
  SendToBatch_loop n fd packets flags sum = Some (n', sum + sum_list nns).
Proof.
  induction packets as [|p ps IH]; intros n fd flags sum n' nns He Hs Hfit.
  - injection He as <- <-. simpl. f_equal. f_equal. lia.
  - pose proof (SendEach_counts _ _ _ _ _ _ He) as Hpos.
    apply SendEach_cons in He as (n1 & nn & nns' & Hp & Hne & He & ->).
    apply Forall_cons in Hpos as [Hnn Hpos].
    assert (Hsum : 0 <= sum_list nns').
    { clear -Hpos. induction Hpos; simpl; lia. }
    simpl in *. rewrite Hp. simpl.
    destruct (Z.eqb_spec nn (-1)); [done |].
    rewrite wrap_int_small by lia.
    rewrite (IH n1 fd flags (sum + nn) n' nns' He) by lia.
    f_equal. f_equal. lia.
Qed.

(** The first failure: the loop stops there with -1. *)
Lemma SendToBatch_loop_abort pre : ∀ n fd flags sum n1 nns p post n2,
  SendEach n fd pre flags = Some (n1, nns) →
  SendTo n1 fd p flags = Some (n2, -1) →
  SendToBatch_loop n fd (pre ++ p :: post) flags sum = Some (n2, -1).
Proof.
  induction pre as [|q pre IH]; intros n fd flags sum n1 nns p post n2 He Hp.
  - injection He as <- <-. simpl. by rewrite Hp.
  - apply SendEach_cons in He as (n' & nn & nns' & Hq & Hne & He & ->).
    simpl. rewrite Hq. simpl.
    destruct (Z.eqb_spec nn (-1)); [done |].
    by apply (IH n' fd flags _ n1 nns').
Qed.

(** Either every send succeeds or there is a first one that fails. *)
Lemma SendEach_or_first_failure packets : ∀ n fd flags,
  length (connections Conn n) = 256%nat →
  (∃ n' nns, SendEach n fd packets flags = Some (n', nns)) ∨
  (∃ pre p post n1 nns n2,
      packets = pre ++ p :: post ∧
      SendEach n fd pre flags = Some (n1, nns) ∧
      SendTo n1 fd p flags = Some (n2, -1)).
Proof.
  induction packets as [|p ps IH]; intros n fd flags Hlen.
  - left. by exists n, [].
  - destruct (SendTo_total n fd p flags Hlen) as (n1 & nn & Hp & Hlen1 & _ & _).
    destruct (Z.eqb_spec nn (-1)) as [->|Hne].
    + right. by exists [], p, ps, n, [], n1.
    + destruct (IH n1 fd flags Hlen1)
        as [(n' & nns & He) | (pre & q & post & n2 & nns & n3 & -> & He & Hq)].
      * left. exists n', (nn :: nns). simpl. rewrite Hp. simpl.
        destruct (Z.eqb_spec nn (-1)); [done |]. by rewrite He.
      * right. exists (p :: pre), q, post, n2, (nn :: nns), n3.
        split; [done |]. split; [| done]. simpl. rewrite Hp. simpl.
        destruct (Z.eqb_spec nn (-1)); [done |]. by rewrite He.
Qed.

End send_batch.

(** C9. On a table of 256 writers that keep the [io.Writer] contract,
    [SendToBatch] does not panic and either every packet is sent, one call
    of [Write] per packet in order, and the result is the total byte count
    (provided the total fits a Go [int]); or there is a first packet [p]
    whose [SendTo] returns -1: the result is then -1, the packets before [p]
    have been written and stay written, [p] has been attempted at most once,
    and no later packet has been written. *)
Theorem SendToBatch_total_or_first_failure {Conn : Type}
    (Write : Conn → list Byte.byte → Conn * Z * bool) (int_bits : Z)
    (n : Net.SFUNet Conn) (fd : Z) (packets : list Net.Packet) (flags : Z) :
  (∀ c data, 0 <= (Write c data).1.2 <= Z.of_nat (length data)) →
  0 < int_bits →
  length (Net.connections Conn n) = 256%nat →
  (∃ n' nns,
      Net.SendEach Conn Write n fd packets flags = Some (n', nns) ∧
      Net.wire Conn n' = Net.wire Conn n ++ (Net.wire_of <$> packets) ∧
      (Net.sum_list nns < 2 ^ (int_bits - 1) →
       Net.SendToBatch Conn Write int_bits n fd packets flags
         = Some (n', Net.sum_list nns))) ∨
  (∃ pre p post n1 nns n2 attempt,
      packets = pre ++ p :: post ∧
      Net.SendEach Conn Write n fd pre flags = Some (n1, nns) ∧
      Net.SendTo Conn Write n1 fd p flags = Some (n2, -1) ∧
      Net.SendToBatch Conn Write int_bits n fd packets flags = Some (n2, -1) ∧
      Net.wire Conn n2 = Net.wire Conn n ++ (Net.wire_of <$> pre) ++ attempt ∧
      (attempt = [] ∨ attempt = [Net.wire_of p])).
Proof.
  intros Hw Hbits Hlen.
  destruct (SendEach_or_first_failure Write Hw packets n fd flags Hlen)
    as [(n' & nns & He) | (pre & p & post & n1 & nns & n2 & -> & He & Hp)].
  - left. exists n', nns. split; [done |].
    split; [by apply (SendEach_wire Write) in He as [? _] |].
    intros Hfit. unfold Net.SendToBatch.
    by rewrite (SendToBatch_loop_all Write int_bits Hw Hbits packets n fd flags 0 n' nns He).
  - right.
    assert (Hlen1 : length (Net.connections Conn n1) = 256%nat).
    { clear Hp. revert n He Hlen. revert nns.
      induction pre as [|q pre IH]; intros nns n He Hlen.
      - by injection He as <- <-.
      - apply SendEach_cons in He as (n0 & nn & nns' & Hq & _ & He & _).
        destruct (SendTo_total Write Hw n fd q flags Hlen) as (? & ? & Hq' & Hl0 & _).
        rewrite Hq in Hq'. injection Hq' as <- <-. by apply (IH nns' n0). }
    destruct (SendTo_total Write Hw n1 fd p flags Hlen1)
      as (n2' & nn & Hp' & _ & _ & attempt & Hwire & Hatt).
    rewrite Hp in Hp'. injection Hp' as <- <-.
    exists pre, p, post, n1, nns, n2, attempt.
    split; [done |]. split; [done |]. split; [done |].
    split; [by apply (SendToBatch_loop_abort Write int_bits pre n fd flags 0 n1 nns) |].
    split; [| done].
    apply (SendEach_wire Write) in He as [Hw1 _]. by rewrite Hwire, Hw1, <- app_assoc.
Qed.

Lemma SendToBatch_total_or_first_failure_witness :
  let n := {| Net.connections := <[1%nat := Some []]> (replicate 256 None);
              Net.wire := [] |} in
  let to b data := Net.mkPacket (Net.mkAddr (b, Byte.x00, Byte.x00, Byte.x00) 1000) data in
  let packets := [to Byte.x01 [Byte.x61; Byte.x62];
                  to Byte.x02 [Byte.x63];
                  to Byte.x01 [Byte.x64]] in
  ∃ n2, Net.SendToBatch (list Byte.byte) (Net.limited_writer 1200) 32 n 3 packets 0
        = Some (n2, -1) ∧
        Net.wire (list Byte.byte) n2 = [(Byte.x01, [Byte.x61; Byte.x62])].
Proof.
  intros n to packets.
  destruct (SendToBatch_total_or_first_failure (Net.limited_writer 1200) 32 n 3 packets 0)
    as [(n' & nns & He & _) | (pre & p & post & n1 & nns & n2 & att & _ & _ & _ & Hb & _)].
  - intros c data. unfold Net.limited_writer.
    destruct (1200 <? Z.of_nat (length data)); simpl; lia.
  - lia.
  - reflexivity.
  - vm_compute in He. discriminate.
  - exists n2. split; [done |]. vm_compute in Hb. by injection Hb as <-.
Defined.

(** ** The RCON handler *)

Section rcon.
Import Rcon.


(** What C reads of a Go string: all of it when it has no NUL byte, else
    what precedes the first one. *)
Lemma CString_spec (s : string) :
  NUL_free (CString s) ∧
  (CString s = s ∨ ∃ rest, s = (CString s ++ String "000" rest)%string).
Proof.
  unfold NUL_free. induction s as [|c s [IHf IHc]]; simpl.
  - split; [by intros ?%elem_of_nil | by left].
  - destruct (Ascii.eqb_spec c "000") as [->|Hc]; simpl.
    + split; [by intros ?%elem_of_nil |]. right. by exists s.
    + split.
      * intros [?|?]%elem_of_cons; [by apply Hc | by apply IHf].
      * destruct IHc as [->|[rest Hrest]]; [by left |].
        right. exists rest. by rewrite Hrest at 1.
Qed.


Lemma execute_each_spec l : ∀ engine,
  execute_each engine l =
    engine ++ ((λ s, CString (s ++ newline)) <$> nonempty_strings l).
Proof.
  unfold nonempty_strings.
  induction l as [|v l IH]; intros engine; simpl.
  - by rewrite app_nil_r.
  - destruct v as [| | |s| |]; simpl; try apply IH.
    destruct (String.eqb_spec s ""), (decide (s = ""%string)); simpl; try done.
    rewrite IH. unfold ExecuteCommand. by rewrite <- app_assoc.
Qed.







End rcon.



(** ** The credential check *)

Section credentials.
Import Credentials.

Lemma bind_trace {A B} (m : Traced A) (f : A → Traced B) :
  (bind m f).2 = m.2 ++ (f m.1).2.
Proof. unfold bind. destruct m as [x t1]. simpl. by destruct (f x). Qed.

Lemma bind_value {A B} (m : Traced A) (f : A → Traced B) :
  (bind m f).1 = (f m.1).1.
Proof. unfold bind. destruct m as [x t1]. simpl. by destruct (f x). Qed.

#[local] Arguments bind : simpl never.

(** The loop shows its indices and nothing else. *)
Lemma compare_loop_trace x : ∀ y i v,
  length x = length y →
  (compare_loop x y i v).2 = (λ k, LIndex (i + Z.of_nat k)) <$> seq 0 (length x).
Proof.
  induction x as [|a x IH]; intros [|b y] i v Hlen; try done.
  simpl in *. rewrite bind_trace. simpl. rewrite Z.add_0_r. f_equal.
  rewrite IH by lia. rewrite <- fmap_S_seq, <- list_fmap_compose.
  apply list_fmap_ext. intros _ k _. simpl. f_equal. lia.
Qed.

Lemma ConstantTimeCompare_trace x y :
  (ConstantTimeCompare x y).2 = compare_shape (length x) (length y).
Proof.
  unfold ConstantTimeCompare, compare_shape. rewrite bind_trace. simpl. f_equal.
  destruct (Nat.eqb_spec (length x) (length y)) as [Hlen|Hlen]; simpl; [| done].
  rewrite bind_trace, compare_loop_trace by done. simpl. by rewrite app_nil_r.
Qed.

(** The value of the comparison. *)
Lemma byte_val_range c : 0 <= byte_val c < 256.
Proof.
  unfold byte_val. pose proof (N_ascii_bounded c). lia.
Qed.

Lemma byte_val_inj a b : byte_val a = byte_val b → a = b.
Proof.
  unfold byte_val. intros H. apply N2Z.inj in H.
  by rewrite <- (ascii_N_embedding a), <- (ascii_N_embedding b), H.
Qed.

Lemma lor_lxor_range v a b :
  0 <= v < 256 → 0 <= a < 256 → 0 <= b < 256 → 0 <= Z.lor v (Z.lxor a b) < 256.
Proof.
  intros Hv Ha Hb.
  assert (H0 : 0 <= Z.lxor a b) by (apply Z.lxor_nonneg; lia).
  assert (H1 : 0 <= Z.lor v (Z.lxor a b)) by (apply Z.lor_nonneg; lia).
  split; [done |].
  destruct (Z.eq_dec (Z.lor v (Z.lxor a b)) 0) as [->|Hne]; [lia |].
  change 256 with (2 ^ 8). apply Z.log2_lt_pow2; [lia |].
  rewrite Z.log2_lor by lia.
  assert (Hlog : ∀ z, 0 <= z < 256 → Z.log2 z < 8).
  { intros z Hz. destruct (Z.eq_dec z 0) as [->|]; [done |].
    apply Z.log2_lt_pow2; lia. }
  pose proof (Z.log2_lxor a b ltac:(lia) ltac:(lia)).
  pose proof (Hlog v Hv). pose proof (Hlog a Ha). pose proof (Hlog b Hb). lia.
Qed.

Lemma compare_loop_value x : ∀ y i v,
  length x = length y → 0 <= v < 256 →
  0 <= (compare_loop x y i v).1 < 256 ∧
  ((compare_loop x y i v).1 = 0 ↔ v = 0 ∧ x = y).
Proof.
  induction x as [|a x IH]; intros [|b y] i v Hlen Hv; try done.
  - simpl. split; [done |]. split; [by intros -> | by intros [-> _]].
  - simpl in *. rewrite bind_value. simpl.
    pose proof (byte_val_range a). pose proof (byte_val_range b).
    destruct (IH y (i + 1) (Z.lor v (Z.lxor (byte_val a) (byte_val b))))
      as [Hr Hz]; [lia | by apply lor_lxor_range |].
    split; [done |]. rewrite Hz, Z.lor_eq_0_iff, Z.lxor_eq_0_iff.
    split.
    + intros [[-> Hab] ->]. by apply byte_val_inj in Hab as ->.
    + by intros [-> [= -> ->]].
Qed.

Lemma ConstantTimeByteEq_zero v :
  0 <= v < 256 → ConstantTimeByteEq v 0 = if v =? 0 then 1 else 0.
Proof.
  intros Hv. unfold ConstantTimeByteEq. rewrite Z.lxor_0_r.
  destruct (Z.eqb_spec v 0) as [->|Hne]; [done |].
  rewrite Z.mod_small by lia. rewrite Z.shiftr_div_pow2 by lia.
  apply Z.div_small. lia.
Qed.

Lemma ConstantTimeCompare_value x y :
  (ConstantTimeCompare x y).1 = if decide (x = y) then 1 else 0.
Proof.
  unfold ConstantTimeCompare. rewrite bind_value. simpl.
  destruct (Nat.eqb_spec (length x) (length y)) as [Hlen|Hlen]; simpl.
  - rewrite bind_value. simpl.
    destruct (compare_loop_value x y 0 0 Hlen) as [Hr Hz]; [lia |].
    rewrite ConstantTimeByteEq_zero by done.
    destruct (Z.eqb_spec (compare_loop x y 0 0).1 0) as [H0|H0],
      (decide (x = y)) as [Hxy|Hxy]; try done.
    + by apply Hz in H0 as [_ ?].
    + exfalso. apply H0, Hz. by split.
  - destruct (decide (x = y)) as [->|]; done.
Qed.

End credentials.

(** C8. [checkCredentials] runs the constant-time comparison of the username,
    then the hash computation, then the constant-time comparison of the
    password hash, whatever the outcome of the first: the shape of its
    execution is that of the two comparisons around the hash call. The shape
    of a comparison depends on the lengths only, so two attempts whose
    usernames have equal length and whose hashes have equal length (a wrong
    username, a wrong password) run through the same shape. The result is
    true exactly for the configured username and the expected hash. *)
Theorem checkCredentials_shape (sha512_hex : string → string)
    (adminUsername adminPassword passwordSalt : string) :
  let check := Credentials.checkCredentials sha512_hex adminUsername adminPassword
                 passwordSalt in
  let expectedHash := sha512_hex (adminPassword ++ passwordSalt)%string in
  (∀ username passwordHash,
     (check username passwordHash).2 =
       Credentials.compare_shape (String.length username) (String.length adminUsername)
       ++ [Credentials.LCall "sha512" (String.length (adminPassword ++ passwordSalt))]
       ++ Credentials.compare_shape (String.length passwordHash)
            (String.length expectedHash) ∧
     ((check username passwordHash).1 = true ↔
        username = adminUsername ∧ passwordHash = expectedHash)) ∧
  (∀ username1 passwordHash1 username2 passwordHash2,
     String.length username1 = String.length username2 →
     String.length passwordHash1 = String.length passwordHash2 →
     (check username1 passwordHash1).2 = (check username2 passwordHash2).2).
Proof.
  intros check expectedHash.
  assert (Hlen : ∀ s, length (Credentials.bytes s) = String.length s).
  { intros s. unfold Credentials.bytes. induction s; simpl; congruence. }
  assert (Hinj : ∀ s1 s2, Credentials.bytes s1 = Credentials.bytes s2 → s1 = s2).
  { intros s1 s2 H. unfold Credentials.bytes in H.
    by rewrite <- (string_of_list_ascii_of_string s1),
               <- (string_of_list_ascii_of_string s2), H. }
  assert (Hshape : ∀ username passwordHash,
     (check username passwordHash).2 =
       Credentials.compare_shape (String.length username) (String.length adminUsername)
       ++ [Credentials.LCall "sha512" (String.length (adminPassword ++ passwordSalt))]
       ++ Credentials.compare_shape (String.length passwordHash)
            (String.length expectedHash)).
  { intros username passwordHash. unfold check, Credentials.checkCredentials.
    rewrite bind_trace, ConstantTimeCompare_trace, !Hlen. f_equal.
    rewrite bind_trace. simpl. f_equal.
    rewrite bind_trace, ConstantTimeCompare_trace, !Hlen. simpl.
    by rewrite app_nil_r. }
  split.
  - intros username passwordHash. split; [apply Hshape |].
    unfold check, Credentials.checkCredentials.
    rewrite !bind_value. simpl. rewrite !ConstantTimeCompare_value.
    fold expectedHash.
    destruct (decide (Credentials.bytes username = Credentials.bytes adminUsername))
      as [Hu|Hu], (decide (Credentials.bytes passwordHash = Credentials.bytes expectedHash))
      as [Hh|Hh]; simpl; split; try done.
    + intros _. split; by apply Hinj.
    + intros [_ ->]. done.
    + intros [-> _]. done.
    + intros [-> _]. done.
  - intros u1 h1 u2 h2 Hu Hh. by rewrite !Hshape, Hu, Hh.
Qed.

Lemma checkCredentials_shape_witness :
  let check := Credentials.checkCredentials (λ _, "5e88")%string "admin" "secret" "ab" in
  String.length "admix" = String.length "admin" ∧
  String.length "5e89" = String.length "5e88" ∧
  (check "admix" "5e88")%string.2 = (check "admin" "5e89")%string.2.
Proof.
  intros check. split; [reflexivity |]. split; [reflexivity |].
  apply (proj2 (checkCredentials_shape (λ _, "5e88")%string "admin" "secret" "ab"));
    reflexivity.
Defined.

(** ** Session tokens *)

(** [hmac.Equal], the constant-time comparison, decides equality. *)
Lemma hmac_Equal (x y : list ascii) :
  ((Credentials.ConstantTimeCompare x y).1 =? 1) = bool_decide (x = y).
Proof.
  rewrite ConstantTimeCompare_value.
  destruct (decide (x = y)).
  - by rewrite bool_decide_eq_true_2.
  - by rewrite bool_decide_eq_false_2.
Qed.

(** The expiry [generateToken] writes: the second of the clock reading
    plus 24 hours, which are 86400 seconds. *)
Lemma NewNumericDate_expiry (now : Z) :
  Auth.NewNumericDate (now + Auth.jwtExpiration) = now / 1000000000 + 86400.
Proof.
  unfold Auth.NewNumericDate.
  change Auth.jwtExpiration with (86400 * 1000000000).
  change Auth.second with 1000000000.
  by rewrite Z.div_add by lia.
Qed.

(** C7. With any HMAC and any encoding of the segments that decodes what it
    encodes, a token from [generateToken] carries the expiry [exp]: the
    second of the first clock reading [now] (in nanoseconds) plus 86400
    seconds, which is 24 hours. At every time before [exp] [validateToken]
    returns claims with the same username and the role "admin"; from [exp]
    on it returns an error; and with any other signature bytes in place of
    the token's it returns an error at every time. *)
Theorem generateToken_validateToken
    (hmac : Auth.SigningMethod → list ascii → string → list ascii)
    (encode_header : string → string)
    (decode_header : string → option (option string))
    (encode_claims : Auth.Claims → string)
    (decode_claims : string → option Auth.Claims)
    (jwtSecret : list ascii) (username : string) (now now' : Z) :
  let validate :=
    Auth.validateToken hmac decode_header decode_claims jwtSecret in
  let exp := now / 1000000000 + 86400 in
  let issued :=
    Auth.mkClaims "admin" username
      (Auth.mkRegisteredClaims "xash3d-server" (Some exp) None
         (Some (now' / 1000000000))) in
  decode_header (encode_header "HS256") = Some (Some "HS256"%string) →
  decode_claims (encode_claims issued) = Some issued →
  ∃ header body signature,
    Auth.generateToken hmac encode_header encode_claims jwtSecret username now now'
      = inl (Auth.Segments header body signature) ∧
    (∀ t, t < exp * 1000000000 →
       ∃ claims, validate (Auth.Segments header body signature) t = inl claims ∧
                 Auth.Username claims = username ∧ Auth.Role claims = "admin"%string ∧
                 Auth.ExpiresAt (Auth.Registered claims) = Some exp) ∧
    (∀ t, exp * 1000000000 <= t →
       validate (Auth.Segments header body signature) t = inr Auth.ErrTokenExpired) ∧
    (∀ t signature', signature' ≠ signature →
       validate (Auth.Segments header body signature') t
         = inr Auth.ErrTokenSignatureInvalid).
Proof.
  intros validate exp issued Hh Hc. unfold Auth.generateToken.
  eexists _, _, _. split; [done |].
  unfold validate, Auth.validateToken, Auth.ParseWithClaims.
  rewrite NewNumericDate_expiry. change (Auth.NewNumericDate now') with (now' / 1000000000).
  fold exp. simpl Auth.Alg. fold issued.
  rewrite Hh, Hc. simpl. rewrite !hmac_Equal.
  split; [| split].
  - intros t Ht. rewrite (bool_decide_eq_true_2 _ eq_refl).
    unfold Auth.Validate. simpl. fold exp. change Auth.second with 1000000000.
    destruct (Z.ltb_spec t (exp * 1000000000)); [| lia]. simpl.
    eexists. split; [done |]. done.
  - intros t Ht. rewrite (bool_decide_eq_true_2 _ eq_refl).
    unfold Auth.Validate. simpl. fold exp. change Auth.second with 1000000000.
    destruct (Z.ltb_spec t (exp * 1000000000)); [lia | done].
  - intros t signature' Hne. rewrite hmac_Equal. by rewrite (bool_decide_eq_false_2 _ Hne).
Qed.

Lemma generateToken_validateToken_witness :
  let hmac := λ (_ : Auth.SigningMethod) (key : list ascii) (text : string),
                key ++ list_ascii_of_string text in
  let header := λ alg : string, alg in
  let unheader := λ s : string, Some (Some s) in
  let body := λ c : Auth.Claims, Auth.Username c in
  let unbody := λ s : string,
    Some (Auth.mkClaims "admin" s
            (Auth.mkRegisteredClaims "xash3d-server" (Some 86500) None (Some 100))) in
  ∃ claims,
    Auth.validateToken hmac unheader unbody ["k"%char]
      (Auth.Segments "HS256" "admin" (list_ascii_of_string "kHS256.admin"))
      (86499 * Auth.second)
    = inl claims ∧ Auth.Username claims = "admin"%string.
Proof.
  intros hmac header unheader body unbody.
  destruct (generateToken_validateToken hmac header unheader body unbody
              ["k"%char] "admin" (100 * Auth.second) (100 * Auth.second))
    as (h & b & sig & Hgen & Hvalid & _); [reflexivity | reflexivity |].
  injection Hgen as <- <- <-.
  destruct (Hvalid (86499 * Auth.second)) as (claims & Hc & Hu & _); [done |].
  by exists claims.
Defined.

(** ** The HTTP server in the disabled state *)

Section server_disabled.
Import Server.
Variable rnd : Q → Q.
Variable sha512_hex : string → string.
Variable hmac : Auth.SigningMethod → list ascii → string → list ascii.
Variable encode_header : string → string.
Variable decode_header : string → option (option string).
Variable encode_claims : Auth.Claims → string.
Variable decode_claims : string → option Auth.Claims.
Variable render_token : Auth.tokenString → string.
Variable parse_token : string → Auth.tokenString.
Variable SplitHostPort : string → option string.
Variable file_exists : string → bool.
Variable later : Z → Z.
Variable random_secret : list ascii.
Variable random_salt : string.

Abbreviation serve :=
  (ServeHTTP rnd sha512_hex hmac encode_header decode_header encode_claims
     decode_claims render_token parse_token SplitHostPort file_exists later).
Abbreviation start := (init rnd random_secret random_salt).

Lemma init_disabled user level :
  disabled (start (mkEnv user "" level)) = true ∧
  loginRateLimiter (start (mkEnv user "" level)) = None ∧
  rconRateLimiter (start (mkEnv user "" level)) = None.
Proof. done. Qed.

(** The privileged endpoints that are not behind a rate limiter answer 503
    when no password is configured. *)
Lemma ServeHTTP_disabled_503 user level method auth xff xrip remote body now :
  let g := start (mkEnv user "" level) in
  serve (mkRequest "/v1/auth" "GET" auth xff xrip remote body) now g
    = (Status 503, g) ∧
  serve (mkRequest "/websocket/logs" method auth xff xrip remote body) now g
    = (Status 503, g) ∧
  serve (mkRequest "/admin" method auth xff xrip remote body) now g
    = (Status 503, g) ∧
  serve (mkRequest "/admin/" method auth xff xrip remote body) now g
    = (Status 503, g).
Proof. done. Qed.

(** With a limiter in place, the handlers behind it answer 503 when the
    limiter lets the request through: the check exists, it is only never
    reached in the disabled state. *)
Lemma loginHandler_disabled_503 r now g :
  disabled g = true →
  loginHandler sha512_hex hmac encode_header encode_claims render_token later r now g
    = (Status 503, g) ∧
  authMiddleware hmac decode_header decode_claims parse_token rconHandler r now g
    = (Status 503, g).
Proof. intros Hd. unfold loginHandler, authMiddleware. by rewrite Hd. Qed.

End server_disabled.

(** C1 (the code at the failing input). When ADMIN_PANEL_PASSWORD is not
    set, [init] leaves both rate limiters nil, and every POST /v1/auth and
    every request to /v1/rcon panics on the nil limiter before the handler's
    own check for the disabled state is reached: the client gets no 503. *)
Theorem ServeHTTP_disabled_limited_endpoints_panic
    (rnd : Q → Q) (sha512_hex : string → string)
    (hmac : Auth.SigningMethod → list ascii → string → list ascii)
    (encode_header : string → string)
    (decode_header : string → option (option string))
    (encode_claims : Auth.Claims → string)
    (decode_claims : string → option Auth.Claims)
    (render_token : Auth.tokenString → string)
    (parse_token : string → Auth.tokenString)
    (SplitHostPort : string → option string) (file_exists : string → bool)
    (later : Z → Z) (random_secret : list ascii) (random_salt : string)
    (user level method auth xff xrip remote : string) (body : option Rcon.value)
    (now : Z) :
  let g := Server.init rnd random_secret random_salt (Server.mkEnv user "" level) in
  let serve :=
    Server.ServeHTTP rnd sha512_hex hmac encode_header decode_header encode_claims
      decode_claims render_token parse_token SplitHostPort file_exists later in
  serve (Server.mkRequest "/v1/auth" "POST" auth xff xrip remote body) now g
    = (Server.Panic, g) ∧
  serve (Server.mkRequest "/v1/rcon" method auth xff xrip remote body) now g
    = (Server.Panic, g).
Proof. done. Qed.

(** ** The signaling handler and the address pool *)

Section signaling.
Import Signaling.

(** After 256 connections the pool is empty and the [n]-th session holds
    the index [n]. *)
Lemma connected_256 exhausted :
  let w := run exhausted World0 (replicate 256 (Connect ok_script)) in
  free (pool w) = [] ∧ next_sid w = 256%nat ∧ length (live w) = 256%nat ∧
  forallb (λ n, match Byte.of_nat n, live w !! n with
                | Some b, Some s => Byte.eqb (index s) b && (sid s =? n)%nat
                | _, _ => false
                end) (seq 0 256) = true.
Proof. vm_compute. done. Qed.

(** On an empty pool the handler goes on with the index [TryGet] returns. *)
Lemma websocketHandler_exhausted exhausted w :
  free (pool w) = [] →
  websocketHandler exhausted ok_script w =
    {| pool := pool w; connections := connections w;
       live := live w ++
         [mkSession (next_sid w) exhausted (exhausted, Byte.x11, Byte.x22, Byte.x33)
            [CloseWriteChannel; CloseReadChannel; PoolPut exhausted;
             ClosePeerConnection; CloseWebsocket] false];
       trace := (trace w ++ [Acquired (next_sid w) exhausted false]) ++
                [Joined (next_sid w) exhausted];
       next_sid := S (next_sid w) |}.
Proof.
  destruct w as [[fr cp] cs lv tr nx]. simpl. intros ->. reflexivity.
Qed.

Lemma exhausted_joins exhausted w :
  free (pool w) = [] → next_sid w = 256%nat → length (live w) = 256%nat →
  forallb (λ n, match Byte.of_nat n, live w !! n with
                | Some b, Some s => Byte.eqb (index s) b && (sid s =? n)%nat
                | _, _ => false
                end) (seq 0 256) = true →
  let w' := apply_step exhausted w (Connect ok_script) in
  trace w' = trace w ++ [Acquired 256 exhausted false; Joined 256 exhausted] ∧
  ∃ s s', s ∈ live w' ∧ s' ∈ live w' ∧ sid s = 256%nat ∧ sid s' ≠ 256%nat ∧
          index s = exhausted ∧ index s' = exhausted.
Proof.
  intros Hfree Hnext Hlen Hall w'. unfold w', apply_step.
  rewrite (websocketHandler_exhausted exhausted w Hfree), Hnext.
  cbn [trace live]. split; [by rewrite <- app_assoc |].
  rewrite forallb_forall in Hall.
  specialize (Hall (Byte.to_nat exhausted)).
  rewrite Byte.of_to_nat in Hall.
  pose proof (Byte.to_nat_bounded exhausted) as Hb.
  destruct (live w !! Byte.to_nat exhausted) as [s'|] eqn:Hs'.
  2:{ apply lookup_ge_None in Hs'. lia. }
  specialize (Hall ltac:(apply in_seq; lia)).
  apply andb_true_iff in Hall as [Hi Hsid].
  apply Byte.byte_dec_bl in Hi. apply Nat.eqb_eq in Hsid.
  eexists _, s'.
  split; [apply elem_of_app; right; apply list_elem_of_singleton; reflexivity |].
  split; [apply elem_of_app; left; by eapply list_elem_of_lookup_2 |].
  cbn [sid index]. repeat split; try done. lia.
Qed.

(** *** The order of the deferred calls *)

Lemma run_action_live s w a : live (run_action s w a) = live w.
Proof. destruct a; simpl; try done. by destruct (readChannel s). Qed.

Lemma return_live s w : live (return_ s w) = live w.
Proof.
  unfold return_. generalize (defers s) as ds. intros ds. revert w.
  induction ds as [|a ds IH]; intros w; simpl; [done |].
  by rewrite IH, run_action_live.
Qed.

Lemma websocketHandler_live_ok exhausted sc w :
  Forall standard_defers (live w) →
  Forall standard_defers (live (websocketHandler exhausted sc w)).
Proof.
  intros Hok. unfold websocketHandler.
  destruct (upgrade_ok sc); simpl; [| done].
  destruct (peer_connection_ok sc); simpl; [| done].
  destruct (transceiver_ok sc); simpl; [| done].
  destruct (TryGet exhausted (pool w)) as [[b ok] p'].
  destruct (random_ip sc) as [[[b0 b1] b2] b3].
  destruct (write_channel_ok sc); simpl.
  - apply Forall_app. split; [done |]. by constructor.
  - done.
Qed.

Lemma find_session_Some w id s :
  find_session w id = Some s → s ∈ live w ∧ sid s = id.
Proof.
  unfold find_session.
  destruct (list_find _ (live w)) as [[i x]|] eqn:Hf; simpl; [| done].
  intros [= <-]. apply list_find_Some in Hf as (Hl & Hp & _).
  split; [by eapply list_elem_of_lookup_2 | done].
Qed.

Lemma apply_step_live_ok exhausted w st :
  Forall standard_defers (live w) →
  Forall standard_defers (live (apply_step exhausted w st)).
Proof.
  intros Hok. destruct st as [sc | id rc | id | id]; simpl.
  - by apply websocketHandler_live_ok.
  - destruct (find_session w id) as [s|] eqn:Hs; [| done]. simpl.
    apply find_session_Some in Hs as [Hin _].
    apply Forall_fmap. eapply Forall_impl; [exact Hok |].
    intros x Hx. simpl. destruct (decide (sid x = id)); [| done].
    rewrite Forall_forall in Hok. by apply (Hok s).
  - by destruct (find_session w id).
  - destruct (find_session w id) as [s|] eqn:Hs; [| done].
    rewrite return_live. simpl.
    rewrite Forall_forall in Hok. apply Forall_forall. intros x Hx.
    apply list_elem_of_filter in Hx as [_ Hx]. by apply Hok.
Qed.

Lemma run_live_ok exhausted steps : ∀ w,
  Forall standard_defers (live w) →
  Forall standard_defers (live (run exhausted w steps)).
Proof.
  unfold run. induction steps as [|st steps IH]; intros w Hok; simpl; [done |].
  by apply IH, apply_step_live_ok.
Qed.

Lemma return_trace (s : Session) w :
  standard_defers s →
  trace (return_ s w) =
    trace w ++ [Ran (sid s) CloseWriteChannel] ++
    (if readChannel s then [Ran (sid s) CloseReadChannel] else []) ++
    [Ran (sid s) (PoolPut (index s)); Ran (sid s) ClosePeerConnection;
     Ran (sid s) CloseWebsocket].
Proof.
  intros Hd. unfold return_. rewrite Hd. simpl.
  destruct (readChannel s); simpl; by rewrite <- !app_assoc.
Qed.

Lemma Return_trace exhausted w id s :
  Forall standard_defers (live w) → find_session w id = Some s →
  trace (apply_step exhausted w (Return id)) =
    trace w ++ [Ran id CloseWriteChannel] ++
    (if readChannel s then [Ran id CloseReadChannel] else []) ++
    [Ran id (PoolPut (index s)); Ran id ClosePeerConnection; Ran id CloseWebsocket].
Proof.
  intros Hok Hs. cbn [apply_step]. rewrite Hs.
  apply find_session_Some in Hs as [Hin <-].
  rewrite Forall_forall in Hok. by rewrite return_trace by by apply Hok.
Qed.

(** The handler returns at once when the write channel cannot be created:
    no channel is closed. *)
Lemma Connect_write_channel_failed_trace exhausted sc w :
  upgrade_ok sc = true → peer_connection_ok sc = true → transceiver_ok sc = true →
  write_channel_ok sc = false →
  ∃ b ok, (TryGet exhausted (pool w)).1 = (b, ok) ∧
    live (apply_step exhausted w (Connect sc)) = live w ∧
    trace (apply_step exhausted w (Connect sc)) =
      trace w ++ [Acquired (next_sid w) b ok; Ran (next_sid w) (PoolPut b);
                  Ran (next_sid w) ClosePeerConnection; Ran (next_sid w) CloseWebsocket].
Proof.
  intros Hu Hp Ht Hw. cbn [apply_step]. unfold websocketHandler.
  rewrite Hu, Hp, Ht, Hw. simpl.
  destruct (TryGet exhausted (pool w)) as [[b ok] p'].
  destruct (random_ip sc) as [[[b0 b1] b2] b3]. simpl.
  exists b, ok. split; [done |]. split; [done |]. by rewrite <- !app_assoc.
Qed.

(** Only a return of the handler puts an index back. *)
Lemma apply_step_PoolPut exhausted w st id b :
  Forall standard_defers (live w) →
  Ran id (PoolPut b) ∈ trace (apply_step exhausted w st) →
  Ran id (PoolPut b) ∈ trace w ∨
  (st = Return id ∧ ∃ s, find_session w id = Some s ∧ index s = b) ∨
  (∃ sc, st = Connect sc ∧ id = next_sid w ∧ upgrade_ok sc = true ∧
         peer_connection_ok sc = true ∧ transceiver_ok sc = true ∧
         write_channel_ok sc = false).
Proof.
  intros Hok Hin. destruct st as [sc | id' rc | id' | id'].
  - cbn [apply_step] in Hin. unfold websocketHandler in Hin.
    destruct (upgrade_ok sc) eqn:Hu; simpl in Hin.
    2:{ apply elem_of_app in Hin as [?|Hin]; [by left |].
        by apply list_elem_of_singleton in Hin. }
    destruct (peer_connection_ok sc) eqn:Hp; simpl in Hin.
    2:{ apply elem_of_app in Hin as [?|Hin]; [by left |].
        by apply list_elem_of_singleton in Hin. }
    destruct (transceiver_ok sc) eqn:Ht; simpl in Hin.
    2:{ rewrite !elem_of_app, !list_elem_of_singleton in Hin.
        destruct Hin as [[?|?]|?]; [by left | done | done]. }
    destruct (TryGet exhausted (pool w)) as [[b' ok] p'].
    destruct (random_ip sc) as [[[b0 b1] b2] b3].
    destruct (write_channel_ok sc) eqn:Hw; simpl in Hin.
    + rewrite !elem_of_app, !list_elem_of_singleton in Hin.
      destruct Hin as [[?|?]|?]; [by left | done | done].
    + rewrite !elem_of_app, !list_elem_of_singleton in Hin.
      destruct Hin as [[[[?|?]|Hin]|?]|?]; try done; [by left |].
      injection Hin as -> ->. right. right. by exists sc.
  - cbn [apply_step] in Hin. destruct (find_session w id'); [| by left].
    simpl in Hin. apply elem_of_app in Hin as [?|Hin]; [by left |].
    by apply list_elem_of_singleton in Hin.
  - cbn [apply_step] in Hin. destruct (find_session w id'); [| by left].
    simpl in Hin. apply elem_of_app in Hin as [?|Hin]; [by left |].
    by apply list_elem_of_singleton in Hin.
  - destruct (find_session w id') as [s|] eqn:Hs.
    2:{ cbn [apply_step] in Hin. rewrite Hs in Hin. by left. }
    rewrite (Return_trace exhausted w id' s Hok Hs) in Hin.
    rewrite !elem_of_app in Hin.
    destruct Hin as [?|[Hin|[Hin|Hin]]]; [by left | | |].
    + by apply list_elem_of_singleton in Hin.
    + destruct (readChannel s); [by apply list_elem_of_singleton in Hin |].
      by apply elem_of_nil in Hin.
    + apply elem_of_cons in Hin as [Hin|Hin].
      * injection Hin as -> ->. right. left. split; [done |]. by exists s.
      * apply elem_of_cons in Hin as [Hin|Hin]; [done |].
        by apply list_elem_of_singleton in Hin.
Qed.

End signaling.

(** C2 (the code at the failing input). With 256 sessions live the pool is
    exhausted; the handler of the next connection gets [ok = false] from
    [TryGet], ignores it and lets the connection in with the returned index,
    whatever that index is: a second live session then holds the index of a
    session that is still live. *)
Theorem websocketHandler_pool_exhausted_joins (exhausted : Byte.byte) :
  let w := Signaling.run exhausted Signaling.World0
             (replicate 256 (Signaling.Connect Signaling.ok_script)) in
  let w' := Signaling.apply_step exhausted w (Signaling.Connect Signaling.ok_script) in
  Signaling.free (Signaling.pool w) = [] ∧
  Signaling.trace w' = Signaling.trace w ++
    [Signaling.Acquired 256 exhausted false; Signaling.Joined 256 exhausted] ∧
  ∃ s s', s ∈ Signaling.live w' ∧ s' ∈ Signaling.live w' ∧
          Signaling.sid s = 256%nat ∧ Signaling.sid s' ≠ 256%nat ∧
          Signaling.index s = exhausted ∧ Signaling.index s' = exhausted.
Proof.
  intros w w'.
  pose proof (connected_256 exhausted) as (Hfree & Hnext & Hlen & Hall).
  split; [exact Hfree |].
  exact (exhausted_joins exhausted w Hfree Hnext Hlen Hall).
Qed.

(** C3 (the claim as stated fails). In the run of one session that connects,
    opens its channels and returns, the index goes back to the pool before
    the peer connection is closed. *)
Lemma index_released_before_peer_connection_closed :
  ¬ Signaling.released_after_teardown
      (Signaling.trace
         (Signaling.run Byte.x00 Signaling.World0
            [Signaling.Connect Signaling.ok_script; Signaling.OnOpen 0 true;
             Signaling.Return 0])).
Proof.
  intros H. specialize (H 5%nat 0%nat Byte.x00 eq_refl) as (j & k & _ & Hk & _ & Hpc).
  do 5 (destruct k as [|k]; [discriminate Hpc |]). lia.
Qed.

(** C3 (amended). In every world that the handlers and the callbacks reach,
    whatever happened before. When the handler of a live session returns,
    its deferred calls run in this order: the write channel is closed, the
    read channel is closed if it was created, the index is put back into the
    pool, and only then the handler closes the peer connection and the
    signaling connection. When the handler returns because the write channel
    cannot be created, no channel is closed: the index it has just taken is
    put back, then the peer connection and the signaling connection are
    closed. No other step puts an index back. While the handler is in its
    message loop the callback of a failed connection closes the peer
    connection, and the session stays live and keeps its index. *)
Theorem teardown_order (exhausted : Byte.byte) (steps : list Signaling.step) :
  let w := Signaling.run exhausted Signaling.World0 steps in
  (∀ id s, Signaling.find_session w id = Some s →
     Signaling.trace (Signaling.apply_step exhausted w (Signaling.Return id)) =
       Signaling.trace w ++ [Signaling.Ran id Signaling.CloseWriteChannel] ++
       (if Signaling.readChannel s
        then [Signaling.Ran id Signaling.CloseReadChannel] else []) ++
       [Signaling.Ran id (Signaling.PoolPut (Signaling.index s));
        Signaling.Ran id Signaling.ClosePeerConnection;
        Signaling.Ran id Signaling.CloseWebsocket]) ∧
  (∀ sc, Signaling.upgrade_ok sc = true → Signaling.peer_connection_ok sc = true →
     Signaling.transceiver_ok sc = true → Signaling.write_channel_ok sc = false →
     ∃ b ok,
       (Signaling.TryGet exhausted (Signaling.pool w)).1 = (b, ok) ∧
       Signaling.live (Signaling.apply_step exhausted w (Signaling.Connect sc))
         = Signaling.live w ∧
       Signaling.trace (Signaling.apply_step exhausted w (Signaling.Connect sc)) =
         Signaling.trace w ++
         [Signaling.Acquired (Signaling.next_sid w) b ok;
          Signaling.Ran (Signaling.next_sid w) (Signaling.PoolPut b);
          Signaling.Ran (Signaling.next_sid w) Signaling.ClosePeerConnection;
          Signaling.Ran (Signaling.next_sid w) Signaling.CloseWebsocket]) ∧
  (∀ st id b,
     Signaling.Ran id (Signaling.PoolPut b)
       ∈ Signaling.trace (Signaling.apply_step exhausted w st) →
     Signaling.Ran id (Signaling.PoolPut b) ∈ Signaling.trace w ∨
     (st = Signaling.Return id ∧
      ∃ s, Signaling.find_session w id = Some s ∧ Signaling.index s = b) ∨
     (∃ sc, st = Signaling.Connect sc ∧ id = Signaling.next_sid w ∧
            Signaling.upgrade_ok sc = true ∧ Signaling.peer_connection_ok sc = true ∧
            Signaling.transceiver_ok sc = true ∧
            Signaling.write_channel_ok sc = false)) ∧
  (∀ id s, Signaling.find_session w id = Some s →
     let w' := Signaling.apply_step exhausted w (Signaling.OnConnectionStateChange id) in
     Signaling.trace w' =
       Signaling.trace w ++ [Signaling.Ran id Signaling.ClosePeerConnection] ∧
     Signaling.find_session w' id = Some s ∧
     Signaling.pool w' = Signaling.pool w).
Proof.
  intros w.
  assert (Hok : Forall Signaling.standard_defers (Signaling.live w)).
  { apply run_live_ok. constructor. }
  split; [| split; [| split]].
  - intros id s Hs. by apply Return_trace.
  - intros sc. apply Connect_write_channel_failed_trace.
  - intros st id b. by apply apply_step_PoolPut.
  - intros id s Hs. cbn [Signaling.apply_step]. rewrite Hs. simpl.
    split; [done |]. split; [| done].
    unfold Signaling.find_session in *. simpl. exact Hs.
Qed.

Lemma teardown_order_witness :
  let w := Signaling.run Byte.x00 Signaling.World0
             [Signaling.Connect Signaling.ok_script; Signaling.OnOpen 0 true;
              Signaling.OnConnectionStateChange 0] in
  let s := Signaling.mkSession 0 Byte.x00 (Byte.x00, Byte.x11, Byte.x22, Byte.x33)
             [Signaling.CloseWriteChannel; Signaling.CloseReadChannel;
              Signaling.PoolPut Byte.x00; Signaling.ClosePeerConnection;
              Signaling.CloseWebsocket] true in
  Signaling.find_session w 0 = Some s ∧
  Signaling.trace (Signaling.apply_step Byte.x00 w (Signaling.Return 0)) =
    Signaling.trace w ++
    [Signaling.Ran 0 Signaling.CloseWriteChannel;
     Signaling.Ran 0 Signaling.CloseReadChannel;
     Signaling.Ran 0 (Signaling.PoolPut Byte.x00);
     Signaling.Ran 0 Signaling.ClosePeerConnection;
     Signaling.Ran 0 Signaling.CloseWebsocket].
Proof.
  intros w s.
  assert (Hs : Signaling.find_session w 0 = Some s) by (vm_compute; reflexivity).
  split; [exact Hs |].
  exact (proj1 (teardown_order Byte.x00
                  [Signaling.Connect Signaling.ok_script; Signaling.OnOpen 0 true;
                   Signaling.OnConnectionStateChange 0]) 0%nat s Hs).
Defined.

(** ** The log fan-out *)

Section ring_copy.
Import Logging.

Lemma GetAll_loop_total cb start n : ∀ i result,
  0 < capacity cb → Z.of_nat (length (buffer cb)) = capacity cb →
  0 <= start → 0 <= i → i + Z.of_nat n <= Z.of_nat (length result) →
  ∃ out, GetAll_loop cb start n i result = Some out ∧ length out = length result.
Proof.
  induction n as [|n IH]; intros i result Hc Hl Hs Hi Hn; simpl.
  - by exists result.
  - unfold go_rem. destruct (Z.eqb_spec (capacity cb) 0); [lia |]. simpl.
    pose proof (Z.rem_bound_pos (start + i) (capacity cb) ltac:(lia) Hc) as Hr.
    destruct (buffer cb !! Z.to_nat (Z.rem (start + i) (capacity cb))) as [e|] eqn:He.
    + rewrite (proj2 (index_Some _ _ e)) by (split; [lia | done]). simpl.
      rewrite assign_Some by lia. simpl.
      destruct (IH (i + 1) (<[Z.to_nat i := e]> result)) as (out & -> & Hout);
        try done; try lia.
      * rewrite length_insert. lia.
      * exists out. by rewrite Hout, length_insert.
    + apply lookup_ge_None in He. lia.
Qed.

(** The copy of [GetAll] does not panic on a size and a head that were read
    from the ring earlier, and gives as many entries as the size says. *)
Lemma GetAll_copy_total N l cb size head :
  0 < N → ring_inv N l cb → 0 <= size <= N → 0 <= head →
  ∃ history, GetAll_copy cb size head = Some history ∧
             Z.of_nat (length history) = size.
Proof.
  intros HN [Hc Hl Hh Hs Hsl] Hsize Hhead. unfold GetAll_copy.
  destruct (Z.eqb_spec size 0) as [->|H0]; [by exists [] |].
  destruct (Z.ltb_spec size 0); [lia |].
  set (start := if head - size <? 0 then _ else _).
  assert (0 <= start).
  { unfold start. destruct (Z.ltb_spec (head - size) 0); lia. }
  destruct (GetAll_loop_total cb start (Z.to_nat size) 0
              (replicate (Z.to_nat size) None)) as (out & -> & Hout);
    try lia.
  - rewrite length_replicate. lia.
  - exists out. split; [done |]. rewrite Hout, length_replicate. lia.
Qed.

End ring_copy.

Section log_fanout.
Import LogFanout.

Lemma init_ring_ok : ∃ st0, init = Some st0 ∧ ring_ok st0.
Proof.
  destruct (ring_inv_New 1000) as (cb & Hnew & Hinv); [lia |].
  unfold init. rewrite Hnew. simpl. eexists. split; [done |].
  split; [done |]. intros conn size head H. simpl in H. by rewrite lookup_empty in H.
Qed.

Lemma set_phase_ring_ok st conn p :
  ring_ok st →
  match p with Reading size head => 0 < size <= 1000 ∧ 0 <= head < 1000 | _ => True end →
  ring_ok (set_phase st conn p).
Proof.
  intros [Hinv Hrd] Hp. split; [done |].
  intros c size head. simpl.
  destruct (decide (c = conn)) as [->|Hne].
  - rewrite lookup_insert_eq. by intros [= ->].
  - rewrite lookup_insert_ne by done. apply Hrd.
Qed.

Lemma apply_step_ring_ok st s :
  ring_ok st → ∃ st', apply_step st s = Some st' ∧ ring_ok st'.
Proof.
  intros Hok. pose proof Hok as [Hinv Hrd].
  destruct s as [entry | m | | conn ok | conn]; simpl.
  - unfold ring_add.
    destruct (ring_inv_Add 1000 _ _ entry ltac:(lia) Hinv) as (cb' & -> & Hinv').
    simpl. by eexists.
  - by eexists.
  - eexists. split; [done |]. unfold logBroadcaster.
    by destruct (logBroadcast st).
  - unfold logsWebSocketHandler.
    destruct (handlers st !! conn) as [[size head| | |]|] eqn:Hp.
    + destruct (Hrd conn size head Hp) as [Hsize Hhead].
      unfold sendHistory_copy.
      destruct (GetAll_copy_total 1000 _ _ size head ltac:(lia) Hinv) as (h & -> & Hh);
        [lia | lia |]. simpl.
      destruct (_ =? _)%nat; [| destruct ok]; eexists; (split; [done |]);
        by apply set_phase_ring_ok.
    + eexists. split; [done |]. by apply (set_phase_ring_ok (register st conn)).
    + destruct ok; eexists; (split; [done |]); [done |].
      by apply (set_phase_ring_ok (unregister st conn)).
    + by eexists.
    + eexists. split; [done |]. unfold sendHistory_read.
      destruct Hinv as [_ _ Hh Hs _].
      destruct (Z.eqb_spec (Logging.size (logBuffer st)) 0);
        apply set_phase_ring_ok; try done.
      pose proof (Z.mod_pos_bound (Z.of_nat (length (published st))) 1000). lia.
  - eexists. split; [done |]. unfold pump.
    by destruct (logClients st !! conn) as [[|? ?]|].
Qed.

Lemma run_ring_ok steps : ∀ st,
  ring_ok st → ∃ st', run st steps = Some st' ∧ ring_ok st'.
Proof.
  induction steps as [|s steps IH]; intros st Hok; simpl.
  - by exists st.
  - destruct (apply_step_ring_ok st s Hok) as (st1 & -> & Hok1). simpl.
    by apply IH.
Qed.






End log_fanout.




(** ** Strings of the HTTP layer *)

Section http_strings.
Import Server ServerRun.

Lemma chars_app (a b : string) : chars (a ++ b) = chars a ++ chars b.
Proof. unfold chars. induction a as [|c a IH]; simpl; [done | by rewrite IH]. Qed.

Lemma chars_inj (a b : string) : chars a = chars b → a = b.
Proof.
  unfold chars. intros H.
  by rewrite <- (string_of_list_ascii_of_string a),
             <- (string_of_list_ascii_of_string b), H.
Qed.

(** [strings.Split] never gives an empty list. *)
Lemma split_space_nonempty s : split_space s ≠ [].
Proof.
  destruct s as [|c s]; simpl; [done |].
  destruct (Ascii.eqb c " "); [done |]. by destruct (split_space s).
Qed.

(** Joining the pieces with spaces gives the string back, and no piece holds
    a space. *)
Lemma join_split_space s :
  join_space (split_space s) = s ∧
  Forall (λ w, " "%char ∉ chars w) (split_space s).
Proof.
  induction s as [|c s [IHj IHf]]; simpl.
  - split; [done |]. constructor; [| done]. unfold chars. simpl. by intros ?%elem_of_nil.
  - pose proof (split_space_nonempty s) as Hne.
    destruct (Ascii.eqb_spec c " ") as [->|Hc].
    + split.
      * simpl. destruct (split_space s) as [|w ws]; [done |]. by rewrite IHj.
      * constructor; [| done]. unfold chars. simpl. by intros ?%elem_of_nil.
    + destruct (split_space s) as [|w ws]; [done |].
      apply Forall_cons in IHf as [Hw Hws]. split.
      * simpl in *. destruct ws; simpl in *; by rewrite <- IHj.
      * constructor; [| done]. unfold chars in *. simpl.
        intros [?|?]%elem_of_cons; [by apply Hc | by apply Hw].
Qed.

Lemma split_space_word w : " "%char ∉ chars w → split_space w = [w].
Proof.
  unfold chars. induction w as [|c w IH]; simpl; intros Hw; [done |].
  destruct (Ascii.eqb_spec c " ") as [->|Hc].
  - exfalso. apply Hw. by left.
  - rewrite IH; [done |]. intros ?. apply Hw. by right.
Qed.

Lemma split_space_app w s :
  " "%char ∉ chars w → split_space (w ++ " " ++ s) = w :: split_space s.
Proof.
  unfold chars. induction w as [|c w IH]; simpl; intros Hw; [done |].
  destruct (Ascii.eqb_spec c " ") as [->|Hc].
  - exfalso. apply Hw. by left.
  - simpl in IH. rewrite IH; [done |]. intros ?. apply Hw. by right.
Qed.

(** The first address of the list: what precedes the first comma. *)
Lemma extractFirstIP_prefix ips :
  (","%char ∉ chars (extractFirstIP ips)) ∧
  (extractFirstIP ips = ips ∨
   ∃ rest, ips = (extractFirstIP ips ++ "," ++ rest)%string).
Proof.
  unfold chars. induction ips as [|c ips [IHc IHp]]; simpl.
  - split; [by intros ?%elem_of_nil | by left].
  - destruct (Ascii.eqb_spec c ",") as [->|Hc]; simpl.
    + split; [by intros ?%elem_of_nil |]. right. by exists ips.
    + split.
      * intros [?|?]%elem_of_cons; [by apply Hc | by apply IHc].
      * destruct IHp as [->|[rest Hrest]]; [by left |].
        right. exists rest. by rewrite Hrest at 1.
Qed.

End http_strings.

(** X1. [extractToken] returns a non-empty token exactly when the
    Authorization header is one word, one space and the token, with no other
    space; the word need not be "Bearer". In every other case it returns the
    empty string. *)
Theorem extractToken_one_space (r : Server.Request) (token : string) :
  token ≠ ""%string →
  (Server.extractToken r = token ↔
   ∃ scheme, Server.Authorization r = (scheme ++ " " ++ token)%string ∧
             (" "%char ∉ ServerRun.chars scheme) ∧ " "%char ∉ ServerRun.chars token).
Proof.
  intros Hne. unfold Server.extractToken.
  destruct (join_split_space (Server.Authorization r)) as [Hj Hf].
  split.
  - intros He.
    destruct (Server.split_space (Server.Authorization r)) as [|a [|t [|? ?]]];
      try (by subst token).
    subst t. simpl in Hj. apply Forall_cons in Hf as [Ha Hf].
    apply Forall_cons in Hf as [Ht _]. exists a. by rewrite <- Hj.
  - intros (scheme & -> & Hs & Ht).
    by rewrite split_space_app, split_space_word.
Qed.

Lemma extractToken_one_space_witness :
  Server.extractToken
    (Server.mkRequest "/v1/rcon" "POST" "Basic abc.def.ghi" "" "" "10.0.0.1:5000" None)
  = "abc.def.ghi"%string.
Proof.
  apply (extractToken_one_space _ "abc.def.ghi"); [discriminate |].
  exists "Basic"%string. split; [reflexivity |].
  split; vm_compute; intros H; repeat (apply elem_of_cons in H as [H|H]; [discriminate H |]);
    by apply elem_of_nil in H.
Defined.

(** ** Runs of the HTTP server *)

Section server_runs.
Import Server ServerRun.
Variable rnd : Q → Q.
Variable sha512_hex : string → string.
Variable hmac : Auth.SigningMethod → list ascii → string → list ascii.
Variable encode_header : string → string.
Variable decode_header : string → option (option string).
Variable encode_claims : Auth.Claims → string.
Variable decode_claims : string → option Auth.Claims.
Variable render_token : Auth.tokenString → string.
Variable parse_token : string → Auth.tokenString.
Variable SplitHostPort : string → option string.
Variable file_exists : string → bool.
Variable later : Z → Z.

Abbreviation serve1 :=
  (ServeHTTP rnd sha512_hex hmac encode_header decode_header encode_claims
     decode_claims render_token parse_token SplitHostPort file_exists later).
Abbreviation login1 :=
  (loginHandler sha512_hex hmac encode_header encode_claims render_token later).
Abbreviation rcon1 :=
  (authMiddleware hmac decode_header decode_claims parse_token rconHandler).

Lemma same_settings_refl g : same_settings g g.
Proof. by repeat split. Qed.

Lemma same_settings_trans g1 g2 g3 :
  same_settings g1 g2 → same_settings g2 g3 → same_settings g1 g3.
Proof.
  intros (?&?&?&?&?&?&?) (?&?&?&?&?&?&?). repeat split; try congruence; auto.
Qed.

(** [loginHandler] changes no variable; its outcome is a status or a login
    response that carries the configured log level. *)
Lemma loginHandler_result r now g :
  (login1 r now g).2 = g ∧
  ((∃ code, (login1 r now g).1 = Status code ∧ code ≠ StatusTooManyRequests) ∨
   ∃ token, (login1 r now g).1 = Login token 86400 (adminLogLevel g)).
Proof.
  unfold loginHandler. repeat case_match; simpl; (split; [done |]);
    try (left; eexists; split; [reflexivity | done]).
  right. by eexists.
Qed.

(** [authMiddleware(rconHandler)] changes the engine's command buffer only;
    its outcome is a status other than 429. *)
Lemma rcon_result r now g :
  same_settings g (rcon1 r now g).2 ∧
  loginRateLimiter (rcon1 r now g).2 = loginRateLimiter g ∧
  rconRateLimiter (rcon1 r now g).2 = rconRateLimiter g ∧
  ∃ code, (rcon1 r now g).1 = Status code ∧ code ≠ StatusTooManyRequests.
Proof.
  unfold authMiddleware, Server.rconHandler, Rcon.rconHandler.
  repeat case_match; simplify_eq; simpl;
    (split; [by repeat split |]); (split; [done |]); (split; [done |]);
    eexists; (split; [reflexivity | done]).
Qed.

Lemma Middleware_login_result r now g limiter :
  loginRateLimiter g = Some limiter →
  let a := RateLimit.Allow rnd limiter (getClientIP SplitHostPort r)
             (now / Auth.second) (now / Auth.second) in
  Middleware rnd SplitHostPort loginRateLimiter set_login login1 r now g =
    if a.1 then ((login1 r now (set_login a.2 g)).1, set_login a.2 g)
    else (Status StatusTooManyRequests, set_login a.2 g).
Proof.
  intros Hl a. unfold Middleware. rewrite Hl. fold a.
  destruct a as [[] limiter']; simpl; [| done].
  pose proof (loginHandler_result r now (set_login limiter' g)) as [Hg _].
  by destruct (login1 r now (set_login limiter' g)); simpl in *; subst.
Qed.

Lemma Middleware_rcon_result r now g limiter :
  rconRateLimiter g = Some limiter →
  let a := RateLimit.Allow rnd limiter (getClientIP SplitHostPort r)
             (now / Auth.second) (now / Auth.second) in
  Middleware rnd SplitHostPort rconRateLimiter set_rcon rcon1 r now g =
    if a.1 then rcon1 r now (set_rcon a.2 g)
    else (Status StatusTooManyRequests, set_rcon a.2 g).
Proof.
  intros Hl a. unfold Middleware. rewrite Hl. fold a.
  by destruct a as [[] limiter'].
Qed.

(** One request to a server whose limiters exist: no panic, the settings
    stay, a login response carries the configured log level. *)
Lemma ServeHTTP_settings r now g :
  is_Some (loginRateLimiter g) → is_Some (rconRateLimiter g) →
  same_settings g (serve1 r now g).2 ∧ (serve1 r now g).1 ≠ Panic ∧
  ∀ token expiresIn level, (serve1 r now g).1 = Login token expiresIn level →
    expiresIn = 86400 ∧ level = adminLogLevel g.
Proof.
  intros [ll Hll] [lr Hlr]. unfold ServeHTTP.
  assert (Hstatic : ∀ path,
    same_settings g (public_file file_exists path g).2 ∧
    (public_file file_exists path g).1 ≠ Panic ∧
    ∀ token expiresIn level,
      (public_file file_exists path g).1 = Login token expiresIn level →
      expiresIn = 86400 ∧ level = adminLogLevel g).
  { intros path. unfold public_file. destruct (file_exists path); simpl;
      (split; [apply same_settings_refl |]); by split. }
  repeat case_match; try apply Hstatic;
    try (unfold websocketHandler, saltHandler, configHandler, logsWebSocketHandler,
           adminHandler; repeat case_match; simpl;
         (split; [apply same_settings_refl |]); by split).
  - rewrite (Middleware_login_result r now g ll Hll).
    destruct (RateLimit.Allow rnd ll _ _ _) as [[] l'] eqn:Ha; simpl.
    + destruct (loginHandler_result r now (set_login l' g)) as [_ Ho].
      split; [by repeat split |].
      destruct Ho as [(code & -> & _) | (token & ->)]; split; try done.
      by intros ? ? ? [= _ <- <-].
    + split; [by repeat split |]. by split.
  - rewrite (Middleware_rcon_result r now g lr Hlr).
    destruct (RateLimit.Allow rnd lr _ _ _) as [[] l'] eqn:Ha; simpl.
    + destruct (rcon_result r now (set_rcon l' g)) as (Hs & _ & Hr & code & Ho & _).
      split.
      * eapply same_settings_trans; [| exact Hs]. by repeat split.
      * rewrite Ho. by split.
    + split; [by repeat split |]. by split.
  - unfold adminHandler. destruct (disabled g); [| apply Hstatic].
    simpl. split; [apply same_settings_refl |]. by split.
Qed.

Lemma serve_all_settings requests : ∀ g,
  is_Some (loginRateLimiter g) → is_Some (rconRateLimiter g) →
  let run := serve_all rnd sha512_hex hmac encode_header decode_header encode_claims
               decode_claims render_token parse_token SplitHostPort file_exists
               later requests g in
  same_settings g run.2 ∧ (Panic ∉ run.1) ∧
  ∀ token expiresIn level, Login token expiresIn level ∈ run.1 →
    expiresIn = 86400 ∧ level = adminLogLevel g.
Proof.
  induction requests as [|[r now] requests IH]; intros g Hl Hr; simpl.
  - split; [apply same_settings_refl |]. split; [by intros ?%elem_of_nil |].
    by intros ? ? ? ?%elem_of_nil.
  - destruct (ServeHTTP_settings r now g Hl Hr) as (Hs & Hp & Hlog).
    destruct (serve1 r now g) as [o g'] eqn:Hserve. simpl in *.
    destruct Hs as (H1 & H2 & H3 & H4 & H5 & H6 & H7).
    specialize (IH g' (H6 Hl) (H7 Hr)).
    destruct (serve_all _ _ _ _ _ _ _ _ _ _ _ _ requests g') as [os g''].
    simpl in *. destruct IH as (Hs' & Hp' & Hlog').
    split; [eapply same_settings_trans; [| exact Hs']; by repeat split |].
    split.
    + intros [?|?]%elem_of_cons; [by subst | done].
    + intros token e level [Heq|Hin]%elem_of_cons; [by apply (Hlog token) |].
      rewrite <- H4. by eapply Hlog'.
Qed.

End server_runs.

(** ** The limiters in front of the handlers *)

Section http_limits.
Import Server ServerRun.
Variable rnd : Q → Q.
Hypothesis rnd_mono : ∀ x y : Q, (x <= y)%Q → (rnd x <= rnd y)%Q.
Hypothesis rnd_int : ∀ z : Z, Z.abs z <= 2 ^ 53 → (rnd (inject_Z z) == inject_Z z)%Q.
Variable SplitHostPort : string → option string.

(** One call of [Allow] in the instant [t] on a limiter of whole capacity
    [n] whose bucket for [ip] holds [k] tokens stamped [t], or is absent with
    [k = n]. *)
Lemma Allow_same_instant n t rl ip k :
  (RateLimit.capacity rl == inject_Z n)%Q →
  0 <= n ∧ n * 1000 < 2 ^ 32 → 0 <= t < 2 ^ 32 → 0 <= k <= n →
  default (RateLimit.bucket_of n t) (RateLimit.visitors rl !! ip)
    = RateLimit.bucket_of k t →
  RateLimit.Allow rnd rl ip t t =
    (negb (k =? 0),
     {| RateLimit.visitors :=
          <[ip := RateLimit.bucket_of (if k =? 0 then 0 else k - 1) t]>
            (RateLimit.visitors rl);
        RateLimit.rate := RateLimit.rate rl;
        RateLimit.capacity := RateLimit.capacity rl |}).
Proof.
  intros Hc Hn Ht Hk Hb. unfold RateLimit.Allow.
  rewrite (newAtomicTokenBucket_int rnd rnd_mono rnd_int n t _ Hc Hn Ht), Hb.
  rewrite (allow_same_instant rnd rnd_mono rnd_int n t _ Hc Hn Ht k _ Hk).
  by destruct (Z.eqb_spec k 0) as [->|].
Qed.

Section middleware.
Variable get : Globals → option RateLimit.RateLimiter.
Variable set : RateLimit.RateLimiter → Globals → Globals.
Variable next : handler.
Hypothesis get_set : ∀ l g, get (set l g) = Some l.
Hypothesis next_keeps : ∀ r now g, get (next r now g).2 = get g.
Hypothesis next_not_429 : ∀ r now g, (next r now g).1 ≠ Status StatusTooManyRequests.

(** The limiter is charged before the handler runs, whatever the request
    carries: with [k] tokens left for the client in this instant the request
    passes and leaves [k - 1], with none it is answered 429 and the handler
    does not run. *)
Lemma Middleware_same_instant n r now g rl k :
  let t := now / Auth.second in
  let ip := getClientIP SplitHostPort r in
  get g = Some rl →
  (RateLimit.capacity rl == inject_Z n)%Q →
  0 <= n ∧ n * 1000 < 2 ^ 32 → 0 <= t < 2 ^ 32 → 0 <= k <= n →
  default (RateLimit.bucket_of n t) (RateLimit.visitors rl !! ip)
    = RateLimit.bucket_of k t →
  let res := Middleware rnd SplitHostPort get set next r now g in
  (res.1 = Status StatusTooManyRequests ↔ k = 0) ∧
  (k = 0 → res.2 = set
     {| RateLimit.visitors := <[ip := RateLimit.bucket_of 0 t]> (RateLimit.visitors rl);
        RateLimit.rate := RateLimit.rate rl;
        RateLimit.capacity := RateLimit.capacity rl |} g) ∧
  ∃ rl', get res.2 = Some rl' ∧
         (RateLimit.capacity rl' == inject_Z n)%Q ∧
         RateLimit.visitors rl' =
           <[ip := RateLimit.bucket_of (if k =? 0 then 0 else k - 1) t]>
             (RateLimit.visitors rl).
Proof.
  intros t ip Hg Hc Hn Ht Hk Hb res. unfold res, Middleware. rewrite Hg.
  fold ip t. rewrite (Allow_same_instant n t rl ip k Hc Hn Ht Hk Hb).
  destruct (Z.eqb_spec k 0) as [->|Hk0]; simpl.
  - split; [done |]. split; [done |]. eexists. rewrite get_set. by repeat split.
  - split; [split; [by intros ?%next_not_429 | done] |]. split; [done |].
    eexists. rewrite next_keeps, get_set. by repeat split.
Qed.

End middleware.
End http_limits.

Section http_runs.
Import Server ServerRun.
Variable rnd : Q → Q.
Hypothesis rnd_mono : ∀ x y : Q, (x <= y)%Q → (rnd x <= rnd y)%Q.
Hypothesis rnd_int : ∀ z : Z, Z.abs z <= 2 ^ 53 → (rnd (inject_Z z) == inject_Z z)%Q.
Variable sha512_hex : string → string.
Variable hmac : Auth.SigningMethod → list ascii → string → list ascii.
Variable encode_header : string → string.
Variable decode_header : string → option (option string).
Variable encode_claims : Auth.Claims → string.
Variable decode_claims : string → option Auth.Claims.
Variable render_token : Auth.tokenString → string.
Variable parse_token : string → Auth.tokenString.
Variable SplitHostPort : string → option string.
Variable file_exists : string → bool.
Variable later : Z → Z.

Abbreviation serve :=
  (ServeHTTP rnd sha512_hex hmac encode_header decode_header encode_claims
     decode_claims render_token parse_token SplitHostPort file_exists later).
Abbreviation serve_list :=
  (serve_all rnd sha512_hex hmac encode_header decode_header encode_claims
     decode_claims render_token parse_token SplitHostPort file_exists later).
Abbreviation login :=
  (loginHandler sha512_hex hmac encode_header encode_claims render_token later).
Abbreviation rcon :=
  (authMiddleware hmac decode_header decode_claims parse_token rconHandler).

Lemma serve_login r now g :
  Path r = "/v1/auth"%string → Method r = "POST"%string →
  serve r now g = Middleware rnd SplitHostPort loginRateLimiter set_login login r now g.
Proof. intros Hp Hm. unfold ServeHTTP. by rewrite Hp, Hm. Qed.

Lemma serve_rcon r now g :
  Path r = "/v1/rcon"%string →
  serve r now g = Middleware rnd SplitHostPort rconRateLimiter set_rcon rcon r now g.
Proof. intros Hp. unfold ServeHTTP. by rewrite Hp. Qed.

Lemma login_keeps r now g : loginRateLimiter (login r now g).2 = loginRateLimiter g.
Proof.
  by destruct (loginHandler_result sha512_hex hmac encode_header encode_claims
                 render_token later r now g) as [-> _].
Qed.

Lemma login_not_429 r now g : (login r now g).1 ≠ Status StatusTooManyRequests.
Proof.
  destruct (loginHandler_result sha512_hex hmac encode_header encode_claims
              render_token later r now g) as [_ [(code & -> & Hc) | (token & ->)]];
    [by intros [= ?] | done].
Qed.

Lemma rcon_keeps r now g : rconRateLimiter (rcon r now g).2 = rconRateLimiter g.
Proof.
  by destruct (rcon_result hmac decode_header decode_claims parse_token r now g)
    as (_ & _ & -> & _).
Qed.

Lemma rcon_not_429 r now g : (rcon r now g).1 ≠ Status StatusTooManyRequests.
Proof.
  destruct (rcon_result hmac decode_header decode_claims parse_token r now g)
    as (_ & _ & _ & code & -> & Hc). by intros [= ?].
Qed.

(** Requests of one client in one instant, all routed through the same
    limiter: as many pass as the client has tokens. *)
Lemma serve_list_same_instant get set next n now ip requests :
  (∀ l g, get (set l g) = Some l) →
  (∀ r now g, get (next r now g).2 = get g) →
  (∀ r now g, (next r now g).1 ≠ Status StatusTooManyRequests) →
  0 <= n ∧ n * 1000 < 2 ^ 32 → 0 <= now / Auth.second < 2 ^ 32 →
  Forall (λ r, getClientIP SplitHostPort r = ip ∧
               ∀ g, serve r now g = Middleware rnd SplitHostPort get set next r now g)
         requests →
  ∀ g rl k,
    get g = Some rl → (RateLimit.capacity rl == inject_Z n)%Q → 0 <= k <= n →
    default (RateLimit.bucket_of n (now / Auth.second)) (RateLimit.visitors rl !! ip)
      = RateLimit.bucket_of k (now / Auth.second) →
    limited_from (Z.to_nat k) (serve_list ((λ r, (r, now)) <$> requests) g).1.
Proof.
  intros Hgs Hkeep H429 Hn Ht Hall.
  induction Hall as [|r requests [Hip Hserve] _ IH]; intros g rl k Hg Hc Hk Hb.
  - intros i o Hi. simpl in Hi. by rewrite lookup_nil in Hi.
  - cbn [fmap list_fmap serve_all]. rewrite Hserve.
    pose proof (Middleware_same_instant rnd rnd_mono rnd_int SplitHostPort get set next
                  Hgs Hkeep H429 n r now g rl k) as Hstep.
    cbv zeta in Hstep. rewrite Hip in Hstep.
    destruct (Hstep Hg Hc Hn Ht Hk Hb) as (H0 & _ & rl' & Hg' & Hc' & Hv').
    destruct (Middleware rnd SplitHostPort get set next r now g) as [o g'].
    simpl in *.
    set (k' := if k =? 0 then 0 else k - 1) in *.
    assert (Hk' : 0 <= k' <= n) by (unfold k'; destruct (Z.eqb_spec k 0); lia).
    specialize (IH g' rl' k' Hg' Hc' Hk').
    rewrite Hv', lookup_insert_eq in IH. specialize (IH eq_refl).
    destruct (serve_list _ g') as [os g'']. simpl in *.
    intros [|i] o' Hi; simpl in Hi.
    + injection Hi as <-. split; intros Hlt.
      * intros Ho. apply H0 in Ho. lia.
      * apply H0. lia.
    + destruct (IH i o' Hi) as [Ha Hb']. unfold k' in *.
      destruct (Z.eqb_spec k 0); split; intros Hlt.
      * lia.
      * apply Hb'. lia.
      * apply Ha. lia.
      * apply Hb'. lia.
Qed.

(** Requests whose keys are all different: a fresh key always finds a full
    bucket. *)
Lemma serve_list_fresh_keys get set next n requests :
  (∀ l g, get (set l g) = Some l) →
  (∀ r now g, get (next r now g).2 = get g) →
  (∀ r now g, (next r now g).1 ≠ Status StatusTooManyRequests) →
  1 <= n ∧ n * 1000 < 2 ^ 32 →
  Forall (λ rn : Request * Z, 0 <= rn.2 / Auth.second < 2 ^ 32 ∧
            ∀ g, serve rn.1 rn.2 g
                 = Middleware rnd SplitHostPort get set next rn.1 rn.2 g) requests →
  NoDup ((λ rn : Request * Z, getClientIP SplitHostPort rn.1) <$> requests) →
  ∀ g rl,
    get g = Some rl → (RateLimit.capacity rl == inject_Z n)%Q →
    Forall (λ rn : Request * Z,
              RateLimit.visitors rl !! getClientIP SplitHostPort rn.1 = None) requests →
    Status StatusTooManyRequests ∉ (serve_list requests g).1.
Proof.
  intros Hgs Hkeep H429 Hn Hall.
  induction Hall as [|[r now] requests [Ht Hserve] _ IH]; intros Hnd g rl Hg Hc Hfresh.
  - by intros ?%elem_of_nil.
  - simpl in *. rewrite Hserve.
    apply NoDup_cons in Hnd as [Hnotin Hnd].
    apply Forall_cons in Hfresh as [Hf Hfresh]. simpl in Hf.
    pose proof (Middleware_same_instant rnd rnd_mono rnd_int SplitHostPort get set next
                  Hgs Hkeep H429 n r now g rl n) as Hstep.
    cbv zeta in Hstep. rewrite Hf in Hstep.
    destruct (Hstep Hg Hc ltac:(lia) Ht ltac:(lia) eq_refl)
      as (H0 & _ & rl' & Hg' & Hc' & Hv').
    destruct (Middleware rnd SplitHostPort get set next r now g) as [o g'].
    simpl in *.
    assert (Hfresh' : Forall (λ rn : Request * Z,
              RateLimit.visitors rl' !! getClientIP SplitHostPort rn.1 = None) requests).
    { rewrite Hv'. rewrite Forall_forall in Hfresh. apply Forall_forall.
      intros rn Hin. rewrite lookup_insert_ne; [by apply Hfresh |].
      intros Heq. apply Hnotin. rewrite Heq.
      by apply (list_elem_of_fmap_2 (λ rn : Request * Z, getClientIP SplitHostPort rn.1)). }
    specialize (IH Hnd g' rl' Hg' Hc' Hfresh').
    destruct (serve_list requests g') as [os g'']. simpl in *.
    intros [Ho|Hin]%elem_of_cons; [| done].
    symmetry in Ho. apply H0 in Ho. lia.
Qed.

Lemma getClientIP_forwarded r :
  extractFirstIP (XForwardedFor r) ≠ ""%string →
  getClientIP SplitHostPort r = extractFirstIP (XForwardedFor r).
Proof.
  intros Hne. unfold getClientIP.
  destruct (String.eqb_spec (XForwardedFor r) "") as [He|_].
  - by rewrite He in Hne.
  - by destruct (String.eqb_spec (extractFirstIP (XForwardedFor r)) "").
Qed.

End http_runs.

(** X2. With a password configured both limiters exist, and no request
    makes [ServeHTTP] panic before it has answered or has handed the
    connection over to a WebSocket handler, whatever requests come and in
    whatever order; and every login response carries the lifetime 86400
    seconds and one of the five log levels, whatever ADMIN_LOG_LEVEL says.
    What a WebSocket handler does after the upgrade is not covered. *)
Theorem enabled_server_answers_or_hands_over (L : ServerRun.Library) (env : Server.Env)
    (requests : list (Server.Request * Z)) :
  Server.ADMIN_PANEL_PASSWORD env ≠ ""%string →
  let outcomes := (ServerRun.run L requests (ServerRun.start L env)).1 in
  (Server.Panic ∉ outcomes) ∧
  ∀ token expiresIn level, Server.Login token expiresIn level ∈ outcomes →
    expiresIn = 86400 ∧
    level ∈ ["debug"; "info"; "warn"; "error"; "silent"]%string.
Proof.
  intros Hpw outcomes.
  assert (Hinit : is_Some (Server.loginRateLimiter (ServerRun.start L env)) ∧
                  is_Some (Server.rconRateLimiter (ServerRun.start L env)) ∧
                  Server.adminLogLevel (ServerRun.start L env)
                    ∈ ["debug"; "info"; "warn"; "error"; "silent"]%string).
  { unfold ServerRun.start, Server.init.
    destruct (String.eqb_spec (Server.ADMIN_PANEL_PASSWORD env) ""); [done |].
    simpl. split; [done |]. split; [done |].
    destruct (String.eqb_spec (Server.ADMIN_LOG_LEVEL env) ""); [set_solver |].
    case_bool_decide; [done | set_solver]. }
  destruct Hinit as (Hl & Hr & Hlevel).
  destruct (serve_all_settings (ServerRun.lib_rnd L) (ServerRun.lib_sha512_hex L)
              (ServerRun.lib_hmac L) (ServerRun.lib_encode_header L)
              (ServerRun.lib_decode_header L) (ServerRun.lib_encode_claims L)
              (ServerRun.lib_decode_claims L) (ServerRun.lib_render_token L)
              (ServerRun.lib_parse_token L) (ServerRun.lib_SplitHostPort L)
              (ServerRun.lib_file_exists L) (ServerRun.lib_later L) requests (ServerRun.start L env) Hl Hr)
    as (_ & Hp & Hlogin).
  split; [exact Hp |].
  intros token e level Hin. destruct (Hlogin token e level Hin) as [-> ->]. by split.
Qed.

Lemma enabled_server_answers_or_hands_over_witness :
  Server.Panic ∉
    (ServerRun.run ServerRun.example_library
       [(Server.mkRequest "/v1/rcon" "POST" "" "" "" "10.0.0.1:5000" None, 0);
        (Server.mkRequest "/v1/auth" "POST" "" "" "" "10.0.0.1:5000" None, 0)]
       (ServerRun.start ServerRun.example_library
          (Server.mkEnv "" "hunter2" "verbose"))).1.
Proof.
  apply (enabled_server_answers_or_hands_over ServerRun.example_library
           (Server.mkEnv "" "hunter2" "verbose")). discriminate.
Defined.

(** X3. Each limiter is charged before the handler behind it runs, whatever
    the request carries. Of the requests one client sends to POST /v1/auth in
    one instant after the start, the first 5 pass the limiter and all later
    ones are answered 429; of its requests to /v1/rcon, authenticated or not,
    the first 30 pass and all later ones are answered 429. *)
Theorem limiter_charged_before_handler (L : ServerRun.Library) (env : Server.Env)
    (now : Z) (ip : string) (requests : list Server.Request) :
  ServerRun.float64_rounding (ServerRun.lib_rnd L) →
  Server.ADMIN_PANEL_PASSWORD env ≠ ""%string →
  0 <= now / Auth.second < 2 ^ 32 →
  Forall (λ r, Server.getClientIP (ServerRun.lib_SplitHostPort L) r = ip) requests →
  let outcomes :=
    (ServerRun.run L ((λ r, (r, now)) <$> requests) (ServerRun.start L env)).1 in
  (Forall (λ r, Server.Path r = "/v1/auth"%string ∧ Server.Method r = "POST"%string)
     requests → ServerRun.limited_from 5 outcomes) ∧
  (Forall (λ r, Server.Path r = "/v1/rcon"%string) requests →
     ServerRun.limited_from 30 outcomes).
Proof.
  intros [Hmono Hint] Hpw Ht Hip outcomes.
  assert (Hinit : Server.loginRateLimiter (ServerRun.start L env)
                    = Some (RateLimit.NewRateLimiter (ServerRun.lib_rnd L) 5) ∧
                  Server.rconRateLimiter (ServerRun.start L env)
                    = Some (RateLimit.NewRateLimiter (ServerRun.lib_rnd L) 30)).
  { unfold ServerRun.start, Server.init.
    by destruct (String.eqb_spec (Server.ADMIN_PANEL_PASSWORD env) ""). }
  destruct Hinit as [Hl Hr].
  rewrite Forall_forall in Hip.
  split; intros Hpath; rewrite Forall_forall in Hpath;
    subst outcomes; unfold ServerRun.run.
  - change 5%nat with (Z.to_nat 5).
    eapply serve_list_same_instant
      with (get := Server.loginRateLimiter) (set := Server.set_login) (n := 5) (ip := ip)
           (rl := RateLimit.NewRateLimiter (ServerRun.lib_rnd L) 5);
      try done; try lia.
    + apply login_keeps.
    + apply login_not_429.
    + apply Forall_forall. intros r Hin. split; [by apply Hip |]. intros g.
      destruct (Hpath r Hin) as [Hp Hm]. by apply serve_login.
  - change 30%nat with (Z.to_nat 30).
    eapply serve_list_same_instant
      with (get := Server.rconRateLimiter) (set := Server.set_rcon) (n := 30) (ip := ip)
           (rl := RateLimit.NewRateLimiter (ServerRun.lib_rnd L) 30);
      try done; try lia.
    + apply rcon_keeps.
    + apply rcon_not_429.
    + apply Forall_forall. intros r Hin. split; [by apply Hip |]. intros g.
      by apply serve_rcon, Hpath.
Qed.

Lemma limiter_charged_before_handler_witness :
  ServerRun.limited_from 5
    (ServerRun.run ServerRun.example_library
       ((λ r, (r, 1000000000)) <$>
          replicate 7 (Server.mkRequest "/v1/auth" "POST" "" "" "" "10.0.0.1:5000" None))
       (ServerRun.start ServerRun.example_library
          (Server.mkEnv "" "hunter2" ""))).1.
Proof.
  refine (proj1 (limiter_charged_before_handler ServerRun.example_library
           (Server.mkEnv "" "hunter2" "") 1000000000 "10.0.0.1:5000"
           (replicate 7 (Server.mkRequest "/v1/auth" "POST" "" "" "" "10.0.0.1:5000" None))
           _ _ _ _) _).
  - split; [intros x y H; exact H | intros z _; reflexivity].
  - discriminate.
  - assert (1000000000 / Auth.second = 1) as -> by reflexivity. lia.
  - repeat constructor.
  - repeat constructor.
Defined.

(** X4. The limiter's key is whatever the request says it is: requests whose
    X-Forwarded-For headers start with pairwise distinct non-empty addresses
    are never answered 429 by a freshly started server, on POST /v1/auth and
    on /v1/rcon alike, however many they are and wherever they come from. *)
Theorem distinct_forwarded_addresses_never_limited (L : ServerRun.Library)
    (env : Server.Env) (requests : list (Server.Request * Z)) :
  ServerRun.float64_rounding (ServerRun.lib_rnd L) →
  Server.ADMIN_PANEL_PASSWORD env ≠ ""%string →
  Forall (λ rn : Server.Request * Z,
            0 <= rn.2 / Auth.second < 2 ^ 32 ∧
            Server.extractFirstIP (Server.XForwardedFor rn.1) ≠ ""%string) requests →
  NoDup ((λ rn : Server.Request * Z,
            Server.extractFirstIP (Server.XForwardedFor rn.1)) <$> requests) →
  let outcomes := (ServerRun.run L requests (ServerRun.start L env)).1 in
  (Forall (λ rn : Server.Request * Z,
             Server.Path rn.1 = "/v1/auth"%string ∧ Server.Method rn.1 = "POST"%string)
     requests → Server.Status Server.StatusTooManyRequests ∉ outcomes) ∧
  (Forall (λ rn : Server.Request * Z, Server.Path rn.1 = "/v1/rcon"%string) requests →
     Server.Status Server.StatusTooManyRequests ∉ outcomes).
Proof.
  intros [Hmono Hint] Hpw Hall Hnd outcomes.
  assert (Hinit : Server.loginRateLimiter (ServerRun.start L env)
                    = Some (RateLimit.NewRateLimiter (ServerRun.lib_rnd L) 5) ∧
                  Server.rconRateLimiter (ServerRun.start L env)
                    = Some (RateLimit.NewRateLimiter (ServerRun.lib_rnd L) 30)).
  { unfold ServerRun.start, Server.init.
    by destruct (String.eqb_spec (Server.ADMIN_PANEL_PASSWORD env) ""). }
  destruct Hinit as [Hl Hr].
  rewrite Forall_forall in Hall.
  assert (Hkeys : (λ rn : Server.Request * Z,
                     Server.getClientIP (ServerRun.lib_SplitHostPort L) rn.1) <$> requests
                  = (λ rn : Server.Request * Z,
                       Server.extractFirstIP (Server.XForwardedFor rn.1)) <$> requests).
  { apply list_eq. intros i. rewrite !list_lookup_fmap.
    destruct (requests !! i) as [rn|] eqn:Hi; [| done]. simpl. f_equal.
    apply getClientIP_forwarded. by apply (Hall rn), (list_elem_of_lookup_2 _ i). }
  rewrite <- Hkeys in Hnd.
  split; intros Hpath; rewrite Forall_forall in Hpath;
    subst outcomes; unfold ServerRun.run.
  - eapply serve_list_fresh_keys
      with (get := Server.loginRateLimiter) (set := Server.set_login) (n := 5)
           (rl := RateLimit.NewRateLimiter (ServerRun.lib_rnd L) 5);
      try done; try lia.
    + apply login_keeps.
    + apply login_not_429.
    + apply Forall_forall. intros rn Hin. split; [by apply Hall |]. intros g.
      destruct (Hpath rn Hin) as [Hp Hm]. by apply serve_login.
    + apply Forall_forall. intros rn _. apply lookup_empty.
  - eapply serve_list_fresh_keys
      with (get := Server.rconRateLimiter) (set := Server.set_rcon) (n := 30)
           (rl := RateLimit.NewRateLimiter (ServerRun.lib_rnd L) 30);
      try done; try lia.
    + apply rcon_keeps.
    + apply rcon_not_429.
    + apply Forall_forall. intros rn Hin. split; [by apply Hall |]. intros g.
      by apply serve_rcon, Hpath.
    + apply Forall_forall. intros rn _. apply lookup_empty.
Qed.

Lemma distinct_forwarded_addresses_never_limited_witness :
  Server.Status Server.StatusTooManyRequests ∉
    (ServerRun.run ServerRun.example_library
       ((λ ip, (Server.mkRequest "/v1/auth" "POST" "" ip "" "10.0.0.1:5000" None, 0)) <$>
          ["1, 9"; "2"; "3"; "4"; "5"; "6"; "7"]%string)
       (ServerRun.start ServerRun.example_library (Server.mkEnv "" "hunter2" ""))).1.
Proof.
  refine (proj1 (distinct_forwarded_addresses_never_limited ServerRun.example_library
           (Server.mkEnv "" "hunter2" "")
           ((λ ip, (Server.mkRequest "/v1/auth" "POST" "" ip "" "10.0.0.1:5000" None, 0)) <$>
              ["1, 9"; "2"; "3"; "4"; "5"; "6"; "7"]%string) _ _ _ _) _).
  - split; [intros x y H; exact H | intros z _; reflexivity].
  - discriminate.
  - cbn [fmap list_fmap].
    repeat (apply Forall_cons_2;
            [split; [change (_ / Auth.second) with 0; lia | simpl; discriminate] |]).
    apply Forall_nil_2.
  - refine (@bool_decide_unpack _ (NoDup_dec _) _). vm_compute. exact I.
  - cbn [fmap list_fmap]. repeat constructor.
Defined.

(** ** Logging in and using the token *)

Section login_flow.
Import Server ServerRun.

Lemma bytes_eq (a b : string) :
  bool_decide (Credentials.bytes a = Credentials.bytes b) = bool_decide (a = b).
Proof.
  apply bool_decide_ext. split; [apply chars_inj | by intros ->].
Qed.

(** [checkCredentials] is true exactly when both comparisons hold. *)
Lemma checkCredentials_value sha512_hex adminUsername adminPassword passwordSalt
    username passwordHash :
  (Credentials.checkCredentials sha512_hex adminUsername adminPassword passwordSalt
     username passwordHash).1
  = bool_decide (username = adminUsername)
    && bool_decide (passwordHash = sha512_hex (adminPassword ++ passwordSalt)%string).
Proof.
  unfold Credentials.checkCredentials, Credentials.computePasswordHash.
  rewrite !bind_value. simpl. by rewrite !hmac_Equal, !bytes_eq.
Qed.

Lemma length_zero (s : string) : (String.length s =? 0)%nat = String.eqb s "".
Proof. by destruct s. Qed.

Variable L : Library.

(** What [loginHandler] answers to a POST whose body decodes. *)
Lemma login_answer r now g req :
  disabled g = false → Method r = "POST"%string → DecodeLogin (Body r) = Some req →
  login L r now g =
    (if String.eqb (Server.Username req) "" || String.eqb (PasswordHash req) ""
     then Status Rcon.StatusBadRequest
     else if bool_decide (Server.Username req = adminUsername g)
             && bool_decide (PasswordHash req
                             = lib_sha512_hex L (adminPassword g ++ passwordSalt g)%string)
     then Login (lib_render_token L
                   (Auth.Segments
                      (lib_encode_header L "HS256")
                      (lib_encode_claims L
                         (issued_claims (Server.Username req) (lib_later L now)
                            (lib_later L (lib_later L now))))
                      (lib_hmac L Auth.HS256 (jwtSecret g)
                         (Auth.signingString (lib_encode_header L "HS256")
                            (lib_encode_claims L
                               (issued_claims (Server.Username req) (lib_later L now)
                                  (lib_later L (lib_later L now))))))))
            86400 (adminLogLevel g)
     else Status StatusUnauthorized, g).
Proof.
  intros Hd Hm Hb. unfold login, loginHandler.
  rewrite Hd, Hm, Hb. simpl. rewrite !length_zero, checkCredentials_value.
  destruct (String.eqb (Server.Username req) ""); [done |].
  destruct (String.eqb (PasswordHash req) ""); [done |]. simpl.
  by destruct (_ && _).
Qed.

(** A login response means: enabled, POST, and the token issued for the
    configured user at the two clock readings of [generateToken]. *)
Lemma login_Login r now g token e level :
  (login L r now g).1 = Login token e level →
  disabled g = false ∧ e = 86400 ∧
  token = lib_render_token L
            (issued_token L g (lib_later L now) (lib_later L (lib_later L now))).
Proof.
  unfold login, loginHandler. intros H.
  destruct (disabled g); [done |]. split; [done |].
  destruct (negb (String.eqb (Method r) "POST")); [done |].
  destruct (DecodeLogin (Body r)) as [req|]; [| done].
  destruct (String.length (Server.Username req) =? 0)%nat; [done |].
  destruct (String.length (PasswordHash req) =? 0)%nat; [done |].
  rewrite checkCredentials_value in H.
  destruct (bool_decide (Server.Username req = adminUsername g)) eqn:Hu; [| done].
  apply bool_decide_eq_true_1 in Hu.
  destruct (bool_decide _); [| done]. simpl in H.
  injection H as <- <- _. split; [done |]. unfold issued_token. by rewrite Hu.
Qed.

Lemma GetSigningMethod_Alg alg method :
  Auth.GetSigningMethod alg = Some method → alg = Auth.Alg method.
Proof.
  unfold Auth.GetSigningMethod. intros H.
  destruct (String.eqb_spec alg "HS256"); [by simplify_eq |].
  destruct (String.eqb_spec alg "HS384"); [by simplify_eq |].
  destruct (String.eqb_spec alg "HS512"); [by simplify_eq |].
  case_bool_decide; by simplify_eq.
Qed.

(** What a token that [validateToken] accepts is made of. *)
Lemma validateToken_inl secret token now claims :
  Auth.validateToken (lib_hmac L) (lib_decode_header L) (lib_decode_claims L) secret
    token now = inl claims →
  ∃ header body method,
    token = Auth.Segments header body
              (lib_hmac L method secret (Auth.signingString header body)) ∧
    method ∈ [Auth.HS256; Auth.HS384; Auth.HS512] ∧
    lib_decode_header L header = Some (Some (Auth.Alg method)) ∧
    lib_decode_claims L body = Some claims ∧
    Auth.Validate claims now = None.
Proof.
  unfold Auth.validateToken, Auth.ParseWithClaims. intros H.
  destruct token as [|header body signature]; [done |].
  destruct (lib_decode_header L header) as [[alg|]|] eqn:Hh; try done;
    destruct (lib_decode_claims L body) as [c|] eqn:Hc; try done.
  simpl in H.
  destruct (Auth.GetSigningMethod alg) as [method|] eqn:Hm; [| done].
  apply GetSigningMethod_Alg in Hm as ->.
  destruct (Auth.Verify _ _ _ _ _) eqn:Hv; [| done].
  destruct (Auth.Validate c now) eqn:Hval; [done |].
  simpl in H. injection H as <-.
  exists header, body, method.
  unfold Auth.Verify in Hv.
  destruct method as [| | |other]; try done;
    rewrite hmac_Equal in Hv; apply bool_decide_eq_true_1 in Hv; subst signature;
    (split; [done |]); (split; [set_solver |]); done.
Qed.

(** [authMiddleware] either runs [next] on the unchanged state, for a token
    that validates, or answers 503, 401 or 403 and changes nothing. *)
Lemma authMiddleware_cases next r now g :
  (authorised L next r now g = next r now g ∧
   disabled g = false ∧
   ∃ claims,
     Auth.validateToken (lib_hmac L) (lib_decode_header L) (lib_decode_claims L)
       (jwtSecret g) (lib_parse_token L (extractToken r)) now = inl claims ∧
     Auth.Role claims = "admin"%string ∧ Auth.Username claims = adminUsername g) ∨
  (∃ code, code ∈ [StatusServiceUnavailable; StatusUnauthorized; StatusForbidden] ∧
           authorised L next r now g = (Status code, g)).
Proof.
  unfold authorised, authMiddleware.
  destruct (disabled g); [right; eexists; split; [| done]; set_solver |].
  destruct (String.eqb (extractToken r) "");
    [right; eexists; split; [| done]; set_solver |].
  destruct (Auth.validateToken _ _ _ _ _ _) as [claims|] eqn:Hv;
    [| right; eexists; split; [| done]; set_solver].
  destruct (String.eqb_spec (Auth.Role claims) "admin"); simpl;
    [| right; eexists; split; [| done]; set_solver].
  destruct (String.eqb_spec (Auth.Username claims) (adminUsername g)); simpl;
    [| right; eexists; split; [| done]; set_solver].
  left. split; [done |]. split; [done |]. by exists claims.
Qed.

(** One request adds to the command buffer, and only through the rcon
    handler behind the authentication. *)
Lemma ServeHTTP_engine r now g :
  (engine (serve L r now g).2 = engine g) ∨
  (Path r = "/v1/rcon"%string ∧
   ∃ limiter,
     (serve L r now g).2
       = (authorised L Server.rconHandler r now (set_rcon limiter g)).2 ∧
     authorised L Server.rconHandler r now (set_rcon limiter g)
       = Server.rconHandler r now (set_rcon limiter g) ∧
     ∃ claims,
       Auth.validateToken (lib_hmac L) (lib_decode_header L) (lib_decode_claims L)
         (jwtSecret g) (lib_parse_token L (extractToken r)) now = inl claims ∧
       Auth.Role claims = "admin"%string ∧ Auth.Username claims = adminUsername g).
Proof.
  unfold serve, ServeHTTP.
  destruct (String.eqb (Path r) "/websocket"); [by left |].
  destruct (String.eqb (Path r) "/v1/auth").
  { left. destruct (String.eqb (Method r) "GET").
    - unfold saltHandler. by repeat case_match.
    - destruct (String.eqb (Method r) "POST"); [| done].
      unfold Middleware. destruct (loginRateLimiter g) as [l|]; [| done].
      destruct (RateLimit.Allow _ _ _ _ _) as [[] l']; simpl; [| done].
      by destruct (loginHandler_result (lib_sha512_hex L) (lib_hmac L)
                     (lib_encode_header L) (lib_encode_claims L) (lib_render_token L)
                     (lib_later L) r now (set_login l' g)) as [-> _]. }
  destruct (String.eqb (Path r) "/v1/config"); [by left |].
  destruct (String.eqb_spec (Path r) "/v1/rcon") as [Hp|_].
  { unfold Middleware. destruct (rconRateLimiter g) as [l|]; [| by left].
    destruct (RateLimit.Allow _ _ _ _ _) as [[] l']; simpl; [| by left].
    destruct (authMiddleware_cases Server.rconHandler r now (set_rcon l' g))
      as [(Hrun & _ & claims & Hv & Hr & Hu) | (code & _ & Hrun)].
    - right. split; [done |]. exists l'. split; [done |]. split; [done |].
      by exists claims.
    - left. unfold authorised in Hrun. by rewrite Hrun. }
  left. destruct (String.eqb (Path r) "/websocket/logs").
  { unfold logsWebSocketHandler. by destruct (disabled g). }
  destruct (_ || _).
  - unfold adminHandler, public_file. by repeat case_match.
  - unfold public_file. by repeat case_match.
Qed.

(** A key written with the long s (U+017F) names the field as well. *)
Lemma DecodeLogin_long_s (user : string) :
  DecodeLogin
    (Some (Rcon.VObject
             [(String "u" (String "197" (String "191" "ername")), Rcon.VString user)]))
  = Some {| Server.Username := user; PasswordHash := "" |}.
Proof. reflexivity. Qed.

End login_flow.

(** X5. For a POST to an enabled server whose body decodes, [loginHandler]
    answers with a token exactly when the username is the configured one and
    the hash is the SHA-512 of password and salt; it answers 401 exactly when
    both fields are filled in and one of the two is wrong, whichever it is;
    and it changes nothing of the server's state. The digest is never the
    empty string. *)
Theorem login_needs_both_credentials (L : ServerRun.Library) (r : Server.Request)
    (now : Z) (g : Server.Globals) (req : Server.LoginRequest) :
  let expected :=
    ServerRun.lib_sha512_hex L (Server.adminPassword g ++ Server.passwordSalt g)%string in
  let answer := (ServerRun.login L r now g).1 in
  Server.disabled g = false → Server.Method r = "POST"%string →
  Server.DecodeLogin (Server.Body r) = Some req →
  expected ≠ ""%string →
  ((∃ token expiresIn level, answer = Server.Login token expiresIn level) ↔
     Server.Username req = Server.adminUsername g ∧ Server.PasswordHash req = expected) ∧
  (answer = Server.Status Server.StatusUnauthorized ↔
     Server.Username req ≠ ""%string ∧ Server.PasswordHash req ≠ ""%string ∧
     ¬ (Server.Username req = Server.adminUsername g ∧
        Server.PasswordHash req = expected)) ∧
  (ServerRun.login L r now g).2 = g.
Proof.
  intros expected answer Hd Hm Hb He. subst answer.
  rewrite (login_answer L r now g req Hd Hm Hb). fold expected. simpl.
  assert (Hu : Server.adminUsername g ≠ ""%string).
  { unfold Server.disabled in Hd. apply orb_false_iff in Hd as [_ Hd].
    by destruct (String.eqb_spec (Server.adminUsername g) ""). }
  destruct (String.eqb_spec (Server.Username req) "") as [Hu0|Hu0],
    (String.eqb_spec (Server.PasswordHash req) "") as [Hp0|Hp0]; simpl;
    try (split; [| split; [| done]];
         [split; [by intros (? & ? & ? & ?) | intros [? ?]; congruence]
         | split; [done | by intros (? & ? & ?)]]).
  destruct (decide (Server.Username req = Server.adminUsername g)) as [Hu1|Hu1],
    (decide (Server.PasswordHash req = expected)) as [Hp1|Hp1];
    rewrite ?(bool_decide_eq_true_2 _ Hu1), ?(bool_decide_eq_false_2 _ Hu1),
            ?(bool_decide_eq_true_2 _ Hp1), ?(bool_decide_eq_false_2 _ Hp1); simpl;
    (split; [| split; [| done]]).
  - split; [done | intros _; by eexists _, _, _].
  - split; [done |]. intros (_ & _ & Hn). by destruct Hn.
  - split; [by intros (? & ? & ? & ?) | by intros [_ ?]].
  - split; [intros _ | done]. repeat split; try done. by intros [_ ?].
  - split; [by intros (? & ? & ? & ?) | by intros [? _]].
  - split; [intros _ | done]. repeat split; try done. by intros [? _].
  - split; [by intros (? & ? & ? & ?) | by intros [? _]].
  - split; [intros _ | done]. repeat split; try done. by intros [? _].
Qed.

Lemma login_needs_both_credentials_witness :
  ∃ token expiresIn level,
    (ServerRun.login ServerRun.example_library
       (Server.mkRequest "/v1/auth" "POST" "" "" "" "10.0.0.1:5000"
          (Some (Rcon.VObject [("username"%string, Rcon.VString "admin");
                               ("passwordHash"%string,
                                Rcon.VString "h(hunter273616c74)")])))
       0 (ServerRun.start ServerRun.example_library (Server.mkEnv "" "hunter2" ""))).1
    = Server.Login token expiresIn level.
Proof.
  refine (proj2 (proj1 (login_needs_both_credentials ServerRun.example_library
            (Server.mkRequest "/v1/auth" "POST" "" "" "" "10.0.0.1:5000"
               (Some (Rcon.VObject [("username"%string, Rcon.VString "admin");
                                    ("passwordHash"%string,
                                     Rcon.VString "h(hunter273616c74)")])))
            0 (ServerRun.start ServerRun.example_library (Server.mkEnv "" "hunter2" ""))
            (Server.mkLoginRequest "admin" "h(hunter273616c74)") _ _ _ _)) _).
  - reflexivity.
  - reflexivity.
  - reflexivity.
  - discriminate.
  - split; reflexivity.
Defined.

(** X6. The token of a login response opens the authenticated handlers
    for 24 hours. With [issued] the clock reading from which [generateToken]
    computes the expiry, the response announces 86400 seconds, and a request
    whose Authorization header is one word, a space and that token passes
    [authMiddleware] at every instant before the second of [issued] plus
    86400 seconds, and is answered 401 from then on. The codecs decode what
    [generateToken] encoded. *)
Theorem login_token_accepted_until_expiry (L : ServerRun.Library)
    (next : Server.handler) (g : Server.Globals)
    (r : Server.Request) (now : Z) (token : string) (expiresIn : Z) (level : string)
    (r' : Server.Request) (now' : Z) (scheme : string) :
  let issued := ServerRun.lib_later L now in
  let exp := issued / 1000000000 + 86400 in
  let claims :=
    ServerRun.issued_claims (Server.adminUsername g) issued (ServerRun.lib_later L issued) in
  let signed := ServerRun.issued_token L g issued (ServerRun.lib_later L issued) in
  (ServerRun.login L r now g).1 = Server.Login token expiresIn level →
  ServerRun.lib_decode_header L (ServerRun.lib_encode_header L "HS256")
    = Some (Some "HS256"%string) →
  ServerRun.lib_decode_claims L (ServerRun.lib_encode_claims L claims) = Some claims →
  ServerRun.lib_parse_token L (ServerRun.lib_render_token L signed) = signed →
  token ≠ ""%string → " "%char ∉ ServerRun.chars token →
  " "%char ∉ ServerRun.chars scheme →
  Server.Authorization r' = (scheme ++ " " ++ token)%string →
  expiresIn = 86400 ∧
  (now' < exp * 1000000000 → ServerRun.authorised L next r' now' g = next r' now' g) ∧
  (exp * 1000000000 <= now' →
     ServerRun.authorised L next r' now' g
       = (Server.Status Server.StatusUnauthorized, g)).
Proof.
  intros issued exp claims signed Hlogin Hh Hc Hparse Hne Htoken Hscheme Hauth.
  apply login_Login in Hlogin as (Hd & -> & ->). split; [done |].
  unfold ServerRun.authorised, Server.authMiddleware, Server.extractToken.
  rewrite Hd, Hauth, split_space_app, split_space_word by done.
  fold issued. fold signed.
  destruct (String.eqb_spec (ServerRun.lib_render_token L signed) "")
    as [He|_]; [done |].
  rewrite Hparse. unfold signed, ServerRun.issued_token, Auth.validateToken,
    Auth.ParseWithClaims.
  simpl Auth.Alg. fold claims. rewrite Hh, Hc. simpl.
  rewrite hmac_Equal, (bool_decide_eq_true_2 _ eq_refl).
  unfold Auth.Validate. simpl. rewrite NewNumericDate_expiry. fold exp.
  change Auth.second with 1000000000.
  split; intros Ht.
  - destruct (Z.ltb_spec now' (exp * 1000000000)); [| lia]. simpl.
    by rewrite String.eqb_refl.
  - by destruct (Z.ltb_spec now' (exp * 1000000000)); [lia |].
Qed.

Lemma login_token_accepted_until_expiry_witness :
  let g := ServerRun.start ServerRun.example_library (Server.mkEnv "" "hunter2" "") in
  let r' := Server.mkRequest "/v1/rcon" "POST" "Bearer HS256.admin.kHS256.admin" "" ""
              "10.0.0.1:5000" None in
  ServerRun.authorised ServerRun.example_library Server.rconHandler r' 5 g
  = Server.rconHandler r' 5 g.
Proof.
  intros g r'.
  refine (proj1 (proj2 (login_token_accepted_until_expiry ServerRun.example_library
            Server.rconHandler g
            (Server.mkRequest "/v1/auth" "POST" "" "" "" "10.0.0.1:5000"
               (Some (Rcon.VObject [("username"%string, Rcon.VString "admin");
                                    ("passwordHash"%string,
                                     Rcon.VString "h(hunter273616c74)")])))
            0 "HS256.admin.kHS256.admin" 86400 "info" r' 5 "Bearer" _ _ _ _ _ _ _ _)) _).
  - reflexivity.
  - reflexivity.
  - reflexivity.
  - reflexivity.
  - discriminate.
  - vm_compute. intros H.
    repeat (apply elem_of_cons in H as [H|H]; [discriminate H |]).
    by apply elem_of_nil in H.
  - vm_compute. intros H.
    repeat (apply elem_of_cons in H as [H|H]; [discriminate H |]).
    by apply elem_of_nil in H.
  - reflexivity.
  - reflexivity.
Defined.

(** X7. Whatever the request, the server adds to the engine's command buffer
    only for a request to /v1/rcon whose token is signed with the server's
    secret under one of the three HMAC methods, names the role "admin" and the
    configured user, and has not expired. The method need not be the HS256
    the server signs with, and a token without an expiry never expires. *)
Theorem engine_changes_need_signed_token (L : ServerRun.Library) (r : Server.Request)
    (now : Z) (g : Server.Globals) :
  Server.engine (ServerRun.serve L r now g).2 ≠ Server.engine g →
  Server.Path r = "/v1/rcon"%string ∧
  ∃ header body method claims,
    ServerRun.lib_parse_token L (Server.extractToken r)
      = Auth.Segments header body
          (ServerRun.lib_hmac L method (Server.jwtSecret g)
             (Auth.signingString header body)) ∧
    method ∈ [Auth.HS256; Auth.HS384; Auth.HS512] ∧
    ServerRun.lib_decode_header L header = Some (Some (Auth.Alg method)) ∧
    ServerRun.lib_decode_claims L body = Some claims ∧
    Auth.Role claims = "admin"%string ∧
    Auth.Username claims = Server.adminUsername g ∧
    ∀ exp, Auth.ExpiresAt (Auth.Registered claims) = Some exp → now < exp * Auth.second.
Proof.
  intros Hchange.
  destruct (ServeHTTP_engine L r now g)
    as [Hsame | (Hp & _ & _ & _ & claims & Hv & Hrole & Huser)]; [done |].
  split; [done |].
  destruct (validateToken_inl L _ _ _ _ Hv) as (header & body & method & Ht & Hm & Hh & Hc & Hval).
  exists header, body, method, claims. repeat split; try done.
  intros exp Hexp. unfold Auth.Validate in Hval. rewrite Hexp in Hval.
  by destruct (Z.ltb_spec now (exp * Auth.second)).
Qed.

Lemma engine_changes_need_signed_token_witness :
  Server.Path
    (Server.mkRequest "/v1/rcon" "POST" "Bearer HS256.admin.kHS256.admin" "" ""
       "10.0.0.1:5000"
       (Some (Rcon.VObject [("command"%string, Rcon.VString "status")])))
  = "/v1/rcon"%string.
Proof.
  refine (proj1 (engine_changes_need_signed_token ServerRun.example_library
            (Server.mkRequest "/v1/rcon" "POST" "Bearer HS256.admin.kHS256.admin" "" ""
               "10.0.0.1:5000"
               (Some (Rcon.VObject [("command"%string, Rcon.VString "status")])))
            0 (ServerRun.start ServerRun.example_library (Server.mkEnv "" "hunter2" ""))
            _)).
  vm_compute. discriminate.
Defined.

Section command_buffer.
Import Server ServerRun.

Lemma nonempty_strings_nonempty l : Forall (λ c, c ≠ ""%string) (Rcon.nonempty_strings l).
Proof.
  unfold Rcon.nonempty_strings. induction l as [|v l IH]; simpl; [done |].
  destruct v as [| | |s| |]; simpl; try done.
  destruct (decide (s = ""%string)); simpl; [done | by constructor].
Qed.

(** [rconHandler] appends to the buffer one text for each non-empty command
    it runs, the command and its newline as C reads them, and only when it
    answers 204. *)
Lemma rconHandler_appends method body e :
  ∃ commands,
    (Rcon.rconHandler method body e).2
      = e ++ ((λ c, Rcon.CString (c ++ Rcon.newline)) <$> commands) ∧
    Forall (λ c, c ≠ ""%string) commands ∧
    ((Rcon.rconHandler method body e).1 ≠ Rcon.StatusNoContent → commands = []).
Proof.
  unfold Rcon.rconHandler.
  destruct (negb (String.eqb method "POST"));
    [exists []; by rewrite app_nil_r |].
  destruct (Rcon.Decode body) as [[cmd]|]; [| exists []; by rewrite app_nil_r].
  destruct cmd as [|b|q|s|l|fields]; simpl;
    try (exists []; by rewrite app_nil_r).
  - destruct (String.eqb_spec s "") as [->|Hs]; [exists []; by rewrite app_nil_r |].
    exists [s]. split; [done |]. split; [by constructor | done].
  - destruct (length l =? 0)%nat; [exists []; by rewrite app_nil_r |].
    exists (Rcon.nonempty_strings l). simpl. rewrite execute_each_spec.
    split; [done |]. split; [apply nonempty_strings_nonempty | done].
Qed.

Variable L : Library.

Lemma ServeHTTP_appends r now g :
  ∃ commands,
    engine (serve L r now g).2
      = engine g ++ ((λ c, Rcon.CString (c ++ Rcon.newline)) <$> commands) ∧
    Forall (λ c, c ≠ ""%string) commands ∧
    (Path r ≠ "/v1/rcon"%string ∨
     (serve L r now g).1 ≠ Status Rcon.StatusNoContent → commands = []).
Proof.
  assert (Hnone : ∀ x : outcome * Globals,
            engine x.2 = engine g →
            ∃ commands,
              engine x.2 = engine g ++ ((λ c, Rcon.CString (c ++ Rcon.newline)) <$> commands) ∧
              Forall (λ c, c ≠ ""%string) commands ∧
              (Path r ≠ "/v1/rcon"%string ∨ x.1 ≠ Status Rcon.StatusNoContent →
               commands = [])).
  { intros x Hx. exists []. by rewrite app_nil_r. }
  unfold serve, ServeHTTP.
  destruct (String.eqb (Path r) "/websocket"); [by apply Hnone |].
  destruct (String.eqb (Path r) "/v1/auth").
  { apply Hnone. destruct (String.eqb (Method r) "GET").
    - unfold saltHandler. by repeat case_match.
    - destruct (String.eqb (Method r) "POST"); [| done].
      unfold Middleware. destruct (loginRateLimiter g) as [l|]; [| done].
      destruct (RateLimit.Allow _ _ _ _ _) as [[] l']; cbn [negb]; [| done].
      by destruct (loginHandler_result (lib_sha512_hex L) (lib_hmac L)
                     (lib_encode_header L) (lib_encode_claims L) (lib_render_token L)
                     (lib_later L) r now (set_login l' g)) as [-> _]. }
  destruct (String.eqb (Path r) "/v1/config"); [by apply Hnone |].
  destruct (String.eqb_spec (Path r) "/v1/rcon") as [Hp|_].
  { unfold Middleware. destruct (rconRateLimiter g) as [l|]; [| by apply Hnone].
    destruct (RateLimit.Allow _ _ _ _ _) as [[] l']; cbn [negb]; [| by apply Hnone].
    destruct (authMiddleware_cases L Server.rconHandler r now (set_rcon l' g))
      as [(Hrun & _) | (code & _ & Hrun)]; unfold authorised in Hrun; rewrite Hrun;
      [| by apply Hnone].
    unfold Server.rconHandler.
    destruct (rconHandler_appends (Method r) (Body r) (engine (set_rcon l' g)))
      as (commands & He & Hne & Hcode).
    destruct (Rcon.rconHandler _ _ _) as [code e]. simpl in *.
    exists commands. split; [done |]. split; [done |].
    intros [?|Ho]; [done |]. apply Hcode. intros ->. by apply Ho. }
  apply Hnone. destruct (String.eqb (Path r) "/websocket/logs").
  { unfold logsWebSocketHandler. by destruct (disabled g). }
  destruct (_ || _).
  - unfold adminHandler, public_file. by repeat case_match.
  - unfold public_file. by repeat case_match.
Qed.

End command_buffer.

(** X8. Over any sequence of requests the engine's command buffer only
    grows: the buffer at the end is the buffer at the start followed by one
    text for each command executed, and the text is the command, which is
    never the empty string, followed by a newline and cut at its first NUL
    byte, as C reads it; there are none when no request went to /v1/rcon or
    none was answered 204. *)
Theorem command_buffer_only_grows (L : ServerRun.Library)
    (requests : list (Server.Request * Z)) (g : Server.Globals) :
  let result := ServerRun.run L requests g in
  ∃ commands,
    Server.engine result.2
      = Server.engine g ++ ((λ c, Rcon.CString (c ++ Rcon.newline)) <$> commands) ∧
    Forall (λ c, c ≠ ""%string) commands ∧
    (Forall (λ rn : Server.Request * Z, Server.Path rn.1 ≠ "/v1/rcon"%string) requests ∨
     Server.Status Rcon.StatusNoContent ∉ result.1 → commands = []).
Proof.
  unfold ServerRun.run. revert g.
  induction requests as [|[r now] requests IH]; intros g; simpl.
  - exists []. by rewrite app_nil_r.
  - destruct (ServeHTTP_appends L r now g) as (c1 & He1 & Hne1 & Hnone1).
    unfold ServerRun.serve in *.
    destruct (Server.ServeHTTP _ _ _ _ _ _ _ _ _ _ _ _ r now g) as [o g'].
    specialize (IH g'). simpl in *.
    destruct (ServerRun.serve_all _ _ _ _ _ _ _ _ _ _ _ _ requests g') as [os g''].
    simpl in *. destruct IH as (c2 & He2 & Hne2 & Hnone2).
    exists (c1 ++ c2). split; [| split].
    + by rewrite He2, He1, fmap_app, app_assoc.
    + by apply Forall_app.
    + intros [Hpaths | H204].
      * apply Forall_cons in Hpaths as [Hp Hpaths]. simpl in Hp.
        rewrite Hnone1, Hnone2; [done | by left | by left].
      * rewrite Hnone1, Hnone2; [done | |].
        -- right. intros Hin. apply H204. by right.
        -- right. intros ->. apply H204. by left.
Qed.

(** ** The log stream as its subscribers see it *)

Section log_stream.
Import LogFanout LogStream.



(** A step of a handler leaves the channels of the others as they are, and
    its own empty or absent. *)
Lemma logsWebSocketHandler_channels st c ok st' :
  logsWebSocketHandler st c ok = Some st' →
  logBroadcast st' = logBroadcast st ∧ offered st' = offered st ∧
  published st' = published st ∧ logBuffer st' = logBuffer st ∧
  (∀ conn, conn ≠ c →
     logClients st' !! conn = logClients st !! conn ∧
     wire st' !! conn = wire st !! conn ∧
     handlers st' !! conn = handlers st !! conn) ∧
  (logClients st' !! c = logClients st !! c ∨ logClients st' !! c = Some [] ∨
   logClients st' !! c = None) ∧
  (wire st' !! c = wire st !! c ∨
   ∃ h, wire st' !! c = Some (default [] (wire st !! c) ++ [History h])).
Proof.
  unfold logsWebSocketHandler. intros Hstep.
  destruct (handlers st !! c) as [[size head| | |]|].
  - unfold sendHistory_copy in Hstep.
    destruct (Logging.GetAll_copy _ _ _) as [h|]; [| done]. simpl in Hstep.
    destruct (_ =? _)%nat; [| destruct ok]; simplify_eq/=; repeat split;
      try (intros; by rewrite ?lookup_insert_ne by done); try (by left).
    right. exists h. by rewrite lookup_insert_eq.
  - simplify_eq/=. repeat split;
      try (intros; by rewrite ?lookup_insert_ne by done); try (by left).
    right. left. by rewrite lookup_insert_eq.
  - destruct ok; simplify_eq/=; repeat split;
      try (intros; by rewrite ?lookup_insert_ne, ?lookup_delete_ne by done);
      try (by left).
    right. right. by rewrite lookup_delete_eq.
  - simplify_eq/=. repeat split; try done; by left.
  - simplify_eq/=. unfold sendHistory_read.
    destruct (_ =? _); simpl; repeat split;
      try (intros; by rewrite ?lookup_insert_ne by done); by left.
Qed.




End log_stream.


Section log_isolation.
Import LogFanout LogStream.

(** A step of the dispatcher, of a publisher or of the handler of [conn]
    does the same to what [conn] sees, whatever else the state holds. *)
Lemma apply_step_view conn s st1 st2 st1' :
  concerns conn s = true → view st1 conn = view st2 conn →
  apply_step st1 s = Some st1' →
  ∃ st2', apply_step st2 s = Some st2' ∧ view st1' conn = view st2' conn.
Proof.
  intros Hs Hv Hstep. unfold view in *.
  destruct st1 as [b1 q1 c1 w1 h1 p1 o1], st2 as [b2 q2 c2 w2 h2 p2 o2]. simpl in *.
  injection Hv as -> -> -> -> Hc Hw Hh.
  destruct s as [entry | m | | c ok | c]; simpl in *;
    try (apply bool_decide_eq_true_1 in Hs as ->).
  - unfold ring_add in *. simpl in *.
    destruct (Logging.Add b2 _); simplify_eq/=. eexists. split; [done |].
    simpl. by rewrite Hc, Hw, Hh.
  - simplify_eq/=. eexists. split; [done |]. simpl. by rewrite Hc, Hw, Hh.
  - simplify_eq. eexists. split; [done |]. unfold logBroadcaster. simpl.
    destruct q2 as [|m queue]; simpl; [by rewrite Hc, Hw, Hh |].
    by rewrite !lookup_fmap, Hc, Hw, Hh.
  - unfold logsWebSocketHandler in *. simpl in *. rewrite <- Hh.
    destruct (h1 !! conn) as [[size head| | |]|] eqn:Hp.
    + unfold sendHistory_copy in *. simpl in *.
      destruct (Logging.GetAll_copy b2 size head) as [h|]; [| done]. simpl in *.
      destruct (_ =? _)%nat; [| destruct ok]; simplify_eq/=;
        (eexists; split; [done |]); simpl;
        by rewrite ?lookup_insert_eq, ?Hc, ?Hw.
    + simplify_eq/=. eexists. split; [done |]. simpl.
      by rewrite !lookup_insert_eq, Hw.
    + destruct ok; simplify_eq/=; (eexists; split; [done |]); simpl.
      * by rewrite Hc, Hw, Hp, Hh.
      * by rewrite !lookup_insert_eq, !lookup_delete_eq, Hw.
    + simplify_eq/=. eexists. split; [done |]. simpl. by rewrite Hc, Hw, Hp, Hh.
    + simplify_eq/=. eexists. split; [done |]. unfold sendHistory_read. simpl.
      destruct (_ =? _); simpl; by rewrite !lookup_insert_eq, Hc, Hw.
  - simplify_eq. eexists. split; [done |]. unfold pump. simpl.
    rewrite <- Hc.
    destruct (c1 !! conn) as [[|m rest]|] eqn:Hl; simpl;
      try by rewrite Hl, Hc, Hw, Hh.
    by rewrite !lookup_insert_eq, Hw, Hh.
Qed.

(** A step of another connection's handler changes nothing of what [conn]
    sees. *)
Lemma apply_step_other conn s st st' :
  concerns conn s = false → apply_step st s = Some st' → view st' conn = view st conn.
Proof.
  intros Hs Hstep. unfold view.
  destruct s as [entry | m | | c ok | c]; simpl in *; try done;
    apply bool_decide_eq_false_1 in Hs.
  - destruct (logsWebSocketHandler_channels st c ok st' Hstep)
      as (-> & -> & -> & -> & Hother & _).
    by destruct (Hother conn ltac:(done)) as (-> & -> & ->).
  - simplify_eq. unfold pump.
    destruct (logClients st !! c) as [[|m rest]|] eqn:Hl; try done. simpl.
    by rewrite !lookup_insert_ne.
Qed.

Lemma run_view conn steps : ∀ st1 st2 st1',
  view st1 conn = view st2 conn → run st1 steps = Some st1' →
  ∃ st2', run st2 (filter (λ s, concerns conn s = true) steps) = Some st2' ∧
          view st1' conn = view st2' conn.
Proof.
  induction steps as [|s steps IH]; intros st1 st2 st1' Hv Hrun; simpl in Hrun.
  - injection Hrun as <-. by exists st2.
  - destruct (apply_step st1 s) as [st1a|] eqn:Hstep; [| done]. simpl in Hrun.
    destruct (concerns conn s) eqn:Hs.
    + rewrite filter_cons_True by done. simpl.
      destruct (apply_step_view conn s st1 st2 st1a Hs Hv Hstep) as (st2a & -> & Hva).
      simpl. by apply (IH st1a).
    + rewrite filter_cons_False by (by rewrite Hs).
      apply (IH st1a); [| done].
      by rewrite (apply_step_other conn s st1 st1a Hs Hstep).
Qed.

End log_isolation.

(** X10. Subscribers do not interfere: what the handler and the client of a
    connection see (the ring, the broadcast queue, the connection's channel,
    the frames written to it and the place its handler has reached) after
    any interleaving of steps from [init] is what they see when every step
    of the other connections' handlers and write pumps, their replaying,
    registering, pumping and leaving, is left out. A subscriber that reads
    slowly or not at all costs the others nothing. *)
Theorem subscribers_do_not_interfere (steps : list LogFanout.step) (conn : nat) :
  ∃ st0 st st',
    LogFanout.init = Some st0 ∧
    LogFanout.run st0 steps = Some st ∧
    LogFanout.run st0 (filter (λ s, LogStream.concerns conn s = true) steps) = Some st' ∧
    LogStream.view st conn = LogStream.view st' conn.
Proof.
  destruct init_ring_ok as (st0 & Hinit & Hok0).
  destruct (run_ring_ok steps st0 Hok0) as (st & Hrun & _).
  destruct (run_view conn steps st0 st0 st eq_refl Hrun) as (st' & Hrun' & Hv).
  by exists st0, st, st'.
Qed.

(** ** The limiter's visitors over time *)

Section idle_bucket.
Import RateLimit Visitors.
Variable rnd : Q → Q.
Hypothesis rnd_mono : ∀ x y : Q, (x <= y)%Q → (rnd x <= rnd y)%Q.
Hypothesis rnd_int : ∀ z : Z, Z.abs z <= 2 ^ 53 → (rnd (inject_Z z) == inject_Z z)%Q.
Variables (n : Z) (capacity rate : Q).
Hypothesis capacity_int : (capacity == inject_Z n)%Q.
Hypothesis n_range : 1 <= n ∧ n * 1000 < 2 ^ 32.
Hypothesis rate_ok : (inject_Z n <= 61 * rate)%Q.

Lemma rate_nonneg : (0 <= rate)%Q.
Proof.
  apply (Qmult_le_l 0 rate 61); [done |]. rewrite Qmult_0_r.
  apply Qle_trans with (inject_Z n); [| done].
  change 0%Q with (inject_Z 0). rewrite <- Zle_Qle. lia.
Qed.

(** After 61 seconds without a granted request the bucket is full again,
    whatever it held. *)
Lemma refill_idle tb now :
  0 <= tokensOf tb → 61 <= now - timeOf tb <= 2 ^ 53 →
  (refill rnd tb rate capacity now == inject_Z n)%Q.
Proof.
  intros Htok He. unfold refill. cbv zeta.
  change (Z.shiftr (state tb) 32) with (tokensOf tb).
  change (Z.land (state tb) 4294967295) with (timeOf tb).
  set (old := fdiv rnd (float64_of_Z rnd (tokensOf tb)) (inject_Z tokenMultiplier)).
  set (x := fmul rnd (float64_of_Z rnd (now - timeOf tb)) rate).
  assert (Hold : (0 <= old)%Q).
  { unfold old, fdiv, float64_of_Z. apply (rnd_nonneg rnd rnd_mono rnd_int).
    apply Qmult_le_0_compat; [| done].
    apply (rnd_nonneg rnd rnd_mono rnd_int).
    change 0%Q with (inject_Z 0). rewrite <- Zle_Qle. lia. }
  assert (Hn : (rnd (inject_Z n) == inject_Z n)%Q) by (apply rnd_int; lia).
  assert (Hx : (inject_Z n <= x)%Q).
  { unfold x, fmul, float64_of_Z. rewrite <- Hn at 1. apply rnd_mono.
    apply Qle_trans with (inject_Z (now - timeOf tb) * rate)%Q.
    - apply Qle_trans with (61 * rate)%Q; [done |].
      apply Qmult_le_compat_r; [| apply rate_nonneg].
      change 61%Q with (inject_Z 61). rewrite <- Zle_Qle. lia.
    - apply Qmult_le_compat_r; [| apply rate_nonneg].
      rewrite rnd_int by lia. apply Qle_refl. }
  assert (Hnew : (inject_Z n <= fadd rnd old x)%Q).
  { unfold fadd. rewrite <- Hn at 1. apply rnd_mono.
    rewrite <- (Qplus_0_l (inject_Z n)). by apply Qplus_le_compat. }
  destruct (Qlt_bool capacity (fadd rnd old x)) eqn:Hc; [done |].
  apply Qlt_bool_false in Hc. apply Qle_antisym; [| done].
  by rewrite <- capacity_int.
Qed.

(** What [allow] does when the refilled count is the whole number [k]. *)
Lemma allow_of_refill tb now k :
  (refill rnd tb rate capacity now == inject_Z k)%Q → 1 <= k <= n →
  allow rnd tb rate capacity now = (true, bucket_of (k - 1) now).
Proof.
  intros Hr Hk. unfold allow.
  set (r := refill rnd tb rate capacity now) in *.
  rewrite (Qlt_bool_proper _ _ Hr _ _ (Qeq_refl 1%Q)).
  assert (H1 : Qlt_bool (inject_Z k) 1 = false).
  { apply Qlt_bool_false. change 1%Q with (inject_Z 1). rewrite <- Zle_Qle. lia. }
  rewrite H1. f_equal. unfold bucket_of, tokenMultiplier. do 4 f_equal.
  assert (Hs : (fsub rnd r 1 == inject_Z (k - 1))%Q).
  { unfold fsub. rewrite (rnd_proper rnd rnd_mono _ (inject_Z k - 1)%Q)
      by (by rewrite Hr).
    change 1%Q with (inject_Z 1).
    unfold Qminus. rewrite <- inject_Z_opp, <- inject_Z_plus.
    apply rnd_int. lia. }
  assert (Hm : (fmul rnd (fsub rnd r 1) (inject_Z 1000)
                == inject_Z ((k - 1) * 1000))%Q).
  { unfold fmul.
    rewrite (rnd_proper rnd rnd_mono _ (inject_Z (k - 1) * inject_Z 1000)%Q)
      by (by rewrite Hs).
    rewrite <- inject_Z_mult. apply rnd_int. lia. }
  by rewrite (Qtrunc_proper _ _ Hm), Qtrunc_Z.
Qed.

Lemma allow_idle tb now :
  0 <= tokensOf tb → 61 <= now - timeOf tb <= 2 ^ 53 →
  allow rnd tb rate capacity now = (true, bucket_of (n - 1) now).
Proof.
  intros Htok He. apply allow_of_refill; [by apply refill_idle | lia].
Qed.

Lemma tokensOf_bucket_of k t :
  0 <= k → k * 1000 < 2 ^ 32 → 0 <= t < 2 ^ 32 →
  tokensOf (bucket_of k t) = k * 1000 ∧ timeOf (bucket_of k t) = t.
Proof.
  intros Hk Hk' Ht. unfold tokensOf, timeOf, bucket_of, tokenMultiplier. simpl.
  split; [apply pack_tokens | apply pack_time]; lia.
Qed.

(** The packed word is never negative. *)
Lemma allow_tokens_nonneg tb now :
  0 <= tokensOf tb → 0 <= tokensOf (allow rnd tb rate capacity now).2.
Proof.
  intros Htok. unfold allow. destruct (Qlt_bool _ 1); [done |].
  unfold tokensOf. simpl. apply Z.shiftr_nonneg, Z.lor_nonneg.
  unfold uint64. split; apply Z.mod_pos_bound; lia.
Qed.

End idle_bucket.

Section cleanup.
Import RateLimit Visitors.
Variable rnd : Q → Q.
Hypothesis rnd_mono : ∀ x y : Q, (x <= y)%Q → (rnd x <= rnd y)%Q.
Hypothesis rnd_int : ∀ z : Z, Z.abs z <= 2 ^ 53 → (rnd (inject_Z z) == inject_Z z)%Q.
Variable n : Z.
Hypothesis n_range : 1 <= n ∧ n * 1000 < 2 ^ 32.

Lemma getLastTime_range tb : 0 <= getLastTime tb < 2 ^ 32.
Proof.
  unfold getLastTime. cbv zeta. change 4294967295 with (Z.ones 32).
  rewrite Z.land_ones by lia. apply Z.mod_pos_bound. lia.
Qed.

(** A client whose bucket went unused for 61 seconds is granted, and its
    bucket is then that of a new client after its first request. *)
Lemma Allow_idle rl ip tb now0 now :
  (capacity rl == inject_Z n)%Q → (inject_Z n <= 61 * rate rl)%Q →
  visitors rl !! ip = Some tb → 0 <= tokensOf tb →
  61 <= now - getLastTime tb → now < 2 ^ 32 →
  Allow rnd rl ip now0 now =
    (true, {| visitors := <[ip := bucket_of (n - 1) now]> (visitors rl);
              rate := rate rl; capacity := capacity rl |}).
Proof.
  intros Hc Hr Hl Htok He Hnow. unfold Allow. rewrite Hl. simpl.
  pose proof (getLastTime_range tb) as Hlast.
  by rewrite (allow_idle rnd rnd_mono rnd_int n _ _ Hc n_range Hr tb now Htok)
    by (change (timeOf tb) with (getLastTime tb); lia).
Qed.

Lemma cleanupVisitors_idle_only t0 t rl1 rl2 :
  idle_only t0 rl1 rl2 → t0 <= t → idle_only t (cleanupVisitors rl1 t) rl2.
Proof.
  intros (Hr & Hc & Htok & Hv) Ht. split; [done |]. split; [done |]. split; [done |].
  intros ip. simpl. rewrite map_lookup_filter.
  destruct (Hv ip) as [Hsame | (Hnone & tb & Hl & Hidle)].
  - rewrite Hsame. destruct (visitors rl2 !! ip) as [tb|] eqn:Hl; simpl; [| by left].
    case_guard as Hg; simpl in *; [by left |].
    right. split; [done |]. exists tb. split; [done |]. lia.
  - right. rewrite Hnone. split; [done |]. exists tb. split; [done |]. lia.
Qed.

Lemma Allow_idle_only t0 t ip rl1 rl2 :
  (capacity rl2 == inject_Z n)%Q → (inject_Z n <= 61 * rate rl2)%Q →
  idle_only t0 rl1 rl2 → t0 <= t < 2 ^ 32 → 0 <= t →
  (Allow rnd rl1 ip t t).1 = (Allow rnd rl2 ip t t).1 ∧
  idle_only t (Allow rnd rl1 ip t t).2 (Allow rnd rl2 ip t t).2.
Proof.
  intros Hcap Hrate (Hr & Hc & Htok & Hv) Ht Ht0.
  destruct rl1 as [v1 r1 c1], rl2 as [v2 r c]. simpl in *. subst r1 c1.
  assert (Hfin : ∀ b : atomicTokenBucket,
            0 <= tokensOf b →
            idle_only t
              {| visitors := <[ip := b]> v1; rate := r; capacity := c |}
              {| visitors := <[ip := b]> v2; rate := r; capacity := c |}).
  { intros b Hb. split; [done |]. split; [done |]. split.
    - intros ip' tb. simpl. destruct (decide (ip' = ip)) as [->|Hne].
      + rewrite lookup_insert_eq. by intros [= <-].
      + rewrite lookup_insert_ne by done. apply Htok.
    - intros ip'. simpl. destruct (decide (ip' = ip)) as [->|Hne].
      + left. by rewrite !lookup_insert_eq.
      + rewrite !lookup_insert_ne by done.
        destruct (Hv ip') as [? | (? & tb & ? & ?)]; [by left |].
        right. split; [done |]. exists tb. split; [done |]. lia. }
  destruct (Hv ip) as [Hsame | (Hnone & tb & Hl & Hidle)].
  - unfold Allow. simpl. rewrite Hsame.
    set (bucket := default _ (v2 !! ip)).
    pose proof (allow_tokens_nonneg rnd c r bucket t) as Hnn.
    destruct (allow rnd bucket r c t) as [ok b'].
    simpl in *. split; [done |]. apply Hfin.
    apply Hnn. unfold bucket.
    destruct (v2 !! ip) as [tb|] eqn:Hl; simpl; [by apply (Htok ip) |].
    unfold tokensOf, newAtomicTokenBucket. simpl.
    apply Z.shiftr_nonneg, Z.lor_nonneg. unfold uint64.
    split; apply Z.mod_pos_bound; lia.
  - rewrite (Allow_idle (mkRateLimiter v2 r c) ip tb t t Hcap Hrate Hl (Htok ip tb Hl))
      by lia.
    rewrite (Allow_same_instant rnd rnd_mono rnd_int n t (mkRateLimiter v1 r c) ip n)
      by (simpl; rewrite ?Hnone; try done; lia).
    destruct (Z.eqb_spec n 0) as [?|_]; [lia |]. simpl. split; [done |].
    apply Hfin.
    destruct (tokensOf_bucket_of (n - 1) t) as [-> _]; lia.
Qed.

Lemma run_idle_only events : ∀ t0 rl1 rl2,
  (capacity rl2 == inject_Z n)%Q → (inject_Z n <= 61 * rate rl2)%Q →
  0 <= t0 → clock t0 events → idle_only t0 rl1 rl2 →
  (run rnd rl1 events).1 = (run rnd rl2 (filter (λ e, is_call e = true) events)).1.
Proof.
  induction events as [|[ip t | t] events IH]; intros t0 rl1 rl2 Hcap Hrate Ht0 Hclock Hrel;
    [done | |]; simpl in Hclock; destruct Hclock as [Ht Hclock].
  - rewrite filter_cons_True by done. simpl.
    destruct (Allow_idle_only t0 t ip rl1 rl2 Hcap Hrate Hrel Ht ltac:(lia))
      as [Hok Hrel'].
    pose proof (Allow_fields rnd rl2 ip t t) as [Hr2 Hc2].
    destruct (Allow rnd rl1 ip t t) as [ok1 rl1'], (Allow rnd rl2 ip t t) as [ok2 rl2'].
    simpl in *. subst ok2.
    specialize (IH t rl1' rl2'). rewrite Hr2, Hc2 in IH.
    specialize (IH Hcap Hrate ltac:(lia) Hclock Hrel').
    destruct (run rnd rl1' events), (run rnd rl2' _). simpl in *. by rewrite IH.
  - rewrite filter_cons_False by done. simpl.
    apply (IH t); try done; [lia |].
    apply (cleanupVisitors_idle_only t0); [done | lia].
Qed.

End cleanup.

(** X11. Once the time stamp of a client's bucket is 61 seconds or more in
    the past, whatever the bucket holds, the next request is granted and
    leaves the bucket as a new client's after its first request, [n - 1]
    tokens at the time of the request. The stored rate is [n / 60] up to
    rounding, so 61 times the rate is at least [n]. *)
Theorem idle_client_is_granted_again (rnd : Q → Q) (n : Z)
    (rl : RateLimit.RateLimiter) (ip : string) (tb : RateLimit.atomicTokenBucket)
    (now0 now : Z) :
  ServerRun.float64_rounding rnd →
  1 <= n ∧ n * 1000 < 2 ^ 32 →
  (RateLimit.capacity rl == inject_Z n)%Q →
  (inject_Z n <= 61 * RateLimit.rate rl)%Q →
  RateLimit.visitors rl !! ip = Some tb → 0 <= RateLimit.tokensOf tb →
  61 <= now - Visitors.getLastTime tb → now < 2 ^ 32 →
  RateLimit.Allow rnd rl ip now0 now =
    (true, {| RateLimit.visitors :=
                <[ip := RateLimit.bucket_of (n - 1) now]> (RateLimit.visitors rl);
              RateLimit.rate := RateLimit.rate rl;
              RateLimit.capacity := RateLimit.capacity rl |}) ∧
  Visitors.getLastTime (RateLimit.bucket_of (n - 1) now) = now.
Proof.
  intros [Hmono Hint] Hn Hc Hr Hl Htok He Hnow.
  split; [by apply (Allow_idle rnd Hmono Hint n Hn rl ip tb) |].
  pose proof (getLastTime_range tb) as Hlast.
  by destruct (tokensOf_bucket_of (n - 1) now) as [_ ?]; [lia | lia | lia |].
Qed.

Lemma idle_client_is_granted_again_witness :
  (RateLimit.Allow (λ x, x)
     {| RateLimit.visitors := {["10.0.0.1"%string := RateLimit.bucket_of 0 100]};
        RateLimit.rate := (5 / 60)%Q; RateLimit.capacity := 5%Q |}
     "10.0.0.1" 161 161).1 = true.
Proof.
  refine (f_equal fst (proj1 (idle_client_is_granted_again (λ x, x) 5
            {| RateLimit.visitors := {["10.0.0.1"%string := RateLimit.bucket_of 0 100]};
               RateLimit.rate := (5 / 60)%Q; RateLimit.capacity := 5%Q |}
            "10.0.0.1" (RateLimit.bucket_of 0 100) 161 161 _ _ _ _ _ _ _ _))).
  - split; [intros x y H; exact H | intros z _; reflexivity].
  - lia.
  - reflexivity.
  - unfold Qle. simpl. lia.
  - apply lookup_singleton_eq.
  - by vm_compute.
  - assert (Visitors.getLastTime (RateLimit.bucket_of 0 100) = 100) as -> by reflexivity.
    lia.
  - lia.
Defined.

(** X12. The cleanup is invisible: for a limiter of whole capacity [n] and
    any history of requests and cleanup rounds whose clock readings do not go
    back, every request gets the answer it gets when no cleanup round runs at
    all. An entry is dropped after 600 unused seconds, and after 61 a bucket
    is full again, so a dropped bucket and a new one answer alike. *)
Theorem cleanup_never_changes_an_answer (rnd : Q → Q) (n : Z)
    (rl : RateLimit.RateLimiter) (t0 : Z) (events : list Visitors.event) :
  ServerRun.float64_rounding rnd →
  1 <= n ∧ n * 1000 < 2 ^ 32 →
  (RateLimit.capacity rl == inject_Z n)%Q →
  (inject_Z n <= 61 * RateLimit.rate rl)%Q →
  (∀ ip tb, RateLimit.visitors rl !! ip = Some tb → 0 <= RateLimit.tokensOf tb) →
  0 <= t0 → Visitors.clock t0 events →
  (Visitors.run rnd rl events).1
  = (Visitors.run rnd rl (filter (λ e, Visitors.is_call e = true) events)).1.
Proof.
  intros [Hmono Hint] Hn Hc Hr Htok Ht0 Hclock.
  apply (run_idle_only rnd Hmono Hint n Hn events t0 rl rl Hc Hr Ht0 Hclock).
  split; [done |]. split; [done |]. split; [done |]. intros ip. by left.
Qed.

Lemma cleanup_never_changes_an_answer_witness :
  (Visitors.run (λ x, x) (RateLimit.NewRateLimiter (λ x, x) 5)
     [Visitors.Call "10.0.0.1" 0; Visitors.Tick 700; Visitors.Call "10.0.0.1" 701]).1
  = (Visitors.run (λ x, x) (RateLimit.NewRateLimiter (λ x, x) 5)
       [Visitors.Call "10.0.0.1" 0; Visitors.Call "10.0.0.1" 701]).1.
Proof.
  apply (cleanup_never_changes_an_answer (λ x, x) 5
           (RateLimit.NewRateLimiter (λ x, x) 5) 0
           [Visitors.Call "10.0.0.1" 0; Visitors.Tick 700; Visitors.Call "10.0.0.1" 701]).
  - split; [intros x y H; exact H | intros z _; reflexivity].
  - lia.
  - reflexivity.
  - unfold Qle. simpl. lia.
  - intros ip tb H. simpl in H. by rewrite lookup_empty in H.
  - lia.
  - simpl. lia.
Defined.

(** ** The log socket's authentication *)

(** X13. The log socket admits exactly the tokens the HTTP middleware
    admits: on an enabled server, for a token without a space sent as the
    first message of the socket and in the Authorization header of a request
    at the same instant, the socket confirms exactly when [authMiddleware]
    runs the handler behind it, and it closes with an error exactly when the
    middleware answers 401, or 403 for a role other than "admin". *)
Theorem log_socket_admits_what_http_admits (L : ServerRun.Library)
    (g : Server.Globals) (r : Server.Request) (now : Z) (scheme token : string) :
  Server.disabled g = false →
  token ≠ ""%string → " "%char ∉ ServerRun.chars token →
  " "%char ∉ ServerRun.chars scheme →
  Server.Authorization r = (scheme ++ " " ++ token)%string →
  match LogsSocket.logsWebSocketHandler (ServerRun.lib_hmac L)
          (ServerRun.lib_decode_header L) (ServerRun.lib_decode_claims L)
          (ServerRun.lib_parse_token L) g true (Some ("v1:auth"%string, token)) now with
  | LogsSocket.AuthOk =>
      ∀ next, ServerRun.authorised L next r now g = next r now g
  | LogsSocket.AuthError error =>
      ∀ next, ServerRun.authorised L next r now g =
                (Server.Status (if String.eqb error "Insufficient permissions"
                                then Server.StatusForbidden
                                else Server.StatusUnauthorized), g)
  | _ => False
  end.
Proof.
  intros Hd Hne Htoken Hscheme Hauth.
  unfold LogsSocket.logsWebSocketHandler, ServerRun.authorised, Server.authMiddleware,
    Server.extractToken.
  rewrite Hd, Hauth, split_space_app, split_space_word by done. simpl.
  destruct (String.eqb_spec token "") as [?|_]; [done |]. simpl.
  destruct (Auth.validateToken _ _ _ _ _ _) as [claims|err]; [| done].
  destruct (String.eqb (Auth.Role claims) "admin"); simpl; [| done].
  by destruct (String.eqb (Auth.Username claims) (Server.adminUsername g)).
Qed.

Lemma log_socket_admits_what_http_admits_witness :
  let g := ServerRun.start ServerRun.example_library (Server.mkEnv "" "hunter2" "") in
  let r := Server.mkRequest "/v1/rcon" "POST" "Bearer HS256.admin.kHS256.admin" "" ""
             "10.0.0.1:5000" None in
  ServerRun.authorised ServerRun.example_library Server.rconHandler r 5 g
  = Server.rconHandler r 5 g.
Proof.
  intros g r.
  pose proof (log_socket_admits_what_http_admits ServerRun.example_library g r 5
                "Bearer" "HS256.admin.kHS256.admin") as H.
  assert (Hok : LogsSocket.logsWebSocketHandler
                  (ServerRun.lib_hmac ServerRun.example_library)
                  (ServerRun.lib_decode_header ServerRun.example_library)
                  (ServerRun.lib_decode_claims ServerRun.example_library)
                  (ServerRun.lib_parse_token ServerRun.example_library) g true
                  (Some ("v1:auth"%string, "HS256.admin.kHS256.admin"%string)) 5
                = LogsSocket.AuthOk) by (vm_compute; reflexivity).
  rewrite Hok in H. apply H.
  - reflexivity.
  - discriminate.
  - vm_compute. intros Hin.
    repeat (apply elem_of_cons in Hin as [Hin|Hin]; [discriminate Hin |]).
    by apply elem_of_nil in Hin.
  - vm_compute. intros Hin.
    repeat (apply elem_of_cons in Hin as [Hin|Hin]; [discriminate Hin |]).
    by apply elem_of_nil in Hin.
  - reflexivity.
Defined.

(** ** The sessions and the indices they hold *)

Section sessions.
Import Signaling Sessions.
Variable exhausted : Byte.byte.

Lemma run_action_fields s w a :
  connections (run_action s w a) = connections w ∧
  next_sid (run_action s w a) = next_sid w ∧
  ∃ tr, trace (run_action s w a) = trace w ++ tr.
Proof.
  destruct a; simpl; try (split; [done |]; split; [done |]; by eexists).
  destruct (readChannel s); simpl; (split; [done |]; split; [done |]).
  - by eexists.
  - exists []. by rewrite app_nil_r.
Qed.

Lemma return_fields s w :
  connections (return_ s w) = connections w ∧
  next_sid (return_ s w) = next_sid w ∧
  ∃ tr, trace (return_ s w) = trace w ++ tr.
Proof.
  unfold return_. generalize (defers s) as ds. intros ds. revert w.
  induction ds as [|a ds IH]; intros w; simpl.
  - split; [done |]. split; [done |]. exists []. by rewrite app_nil_r.
  - destruct (IH (run_action s w a)) as (-> & -> & tr2 & ->).
    destruct (run_action_fields s w a) as (-> & -> & tr1 & ->).
    split; [done |]. split; [done |]. exists (tr1 ++ tr2). by rewrite app_assoc.
Qed.

(** The trace only grows. *)
Lemma apply_step_trace w st : ∃ tr, trace (apply_step exhausted w st) = trace w ++ tr.
Proof.
  destruct st as [sc | id rc | id | id]; simpl.
  - unfold websocketHandler.
    destruct (upgrade_ok sc); simpl; [| by eexists].
    destruct (peer_connection_ok sc); simpl; [| by eexists].
    destruct (transceiver_ok sc); simpl; [| rewrite <- app_assoc; by eexists].
    destruct (TryGet exhausted (pool w)) as [[b ok] p'].
    destruct (random_ip sc) as [[[b0 b1] b2] b3].
    destruct (write_channel_ok sc); simpl; rewrite <- !app_assoc; by eexists.
  - destruct (find_session w id); simpl; [by eexists |].
    exists []. by rewrite app_nil_r.
  - destruct (find_session w id); simpl; [by eexists |].
    exists []. by rewrite app_nil_r.
  - destruct (find_session w id) as [s|]; [| exists []; by rewrite app_nil_r].
    by destruct (return_fields s
                   {| pool := pool w; connections := connections w;
                      live := filter (λ x, sid x ≠ id) (live w);
                      trace := trace w; next_sid := next_sid w |}) as (_ & _ & tr & ->);
      eexists.
Qed.

Lemma run_trace steps : ∀ w, ∃ tr, trace (run exhausted w steps) = trace w ++ tr.
Proof.
  unfold run. induction steps as [|st steps IH]; intros w; simpl.
  - exists []. by rewrite app_nil_r.
  - destruct (IH (apply_step exhausted w st)) as (tr2 & ->).
    destruct (apply_step_trace w st) as (tr1 & ->).
    exists (tr1 ++ tr2). by rewrite app_assoc.
Qed.

Lemma never_exhausted_app tr1 tr2 : never_exhausted (tr1 ++ tr2) → never_exhausted tr1.
Proof. intros H id b Hin. apply (H id b), elem_of_app. by left. Qed.

Lemma filter_all {A} (P : A → Prop) `{∀ x, Decision (P x)} (l : list A) :
  Forall P l → filter P l = l.
Proof.
  induction 1 as [|x l Hx _ IH]; [done |]. by rewrite filter_cons_True, IH.
Qed.

(** Taking one session out of sessions numbered apart. *)
Lemma held_remove (lv : list Session) s :
  NoDup (sid <$> lv) → s ∈ lv →
  index <$> lv ≡ₚ index s :: (index <$> filter (λ x, sid x ≠ sid s) lv).
Proof.
  induction lv as [|x lv IH]; intros Hnd Hin; [by apply elem_of_nil in Hin |].
  rewrite fmap_cons in Hnd. apply NoDup_cons in Hnd as [Hx Hnd].
  apply elem_of_cons in Hin as [->|Hin].
  - rewrite filter_cons_False by (by intros ?).
    rewrite fmap_cons. f_equiv. rewrite filter_all; [done |].
    apply Forall_forall. intros y Hy Heq. apply Hx. rewrite <- Heq.
    by apply list_elem_of_fmap_2.
  - rewrite filter_cons_True.
    + rewrite !fmap_cons, (IH Hnd Hin). apply perm_swap.
    + intros Heq. apply Hx. rewrite Heq. by apply list_elem_of_fmap_2.
Qed.

(** [OnOpen] changes the read channel of one session and nothing else of
    the sessions. *)
Lemma attach_fields (lv : list Session) s rc :
  NoDup (sid <$> lv) → s ∈ lv →
  let s' := {| sid := sid s; index := index s; ip := ip s; defers := defers s;
               readChannel := rc |} in
  let lv' := (λ x, if decide (sid x = sid s) then s' else x) <$> lv in
  sid <$> lv' = sid <$> lv ∧ index <$> lv' = index <$> lv.
Proof.
  intros Hnd Hin s' lv'. unfold lv'. rewrite <- !list_fmap_compose.
  split; apply list_fmap_ext; intros i x Hx; simpl;
    destruct (decide (sid x = sid s)) as [Heq|]; try done.
  apply list_elem_of_lookup_2 in Hx.
  apply list_elem_of_lookup_1 in Hx as [j Hj], Hin as [k Hk].
  assert (j = k) as ->.
  { apply (NoDup_lookup (sid <$> lv) j k (sid x)); [done | |].
    - by rewrite list_lookup_fmap, Hj.
    - by rewrite list_lookup_fmap, Hk, Heq. }
  by simplify_eq.
Qed.

(** One step keeps the sessions numbered apart and, while the pool is not
    exhausted, keeps every index either free or held by one session. *)
Lemma apply_step_conserves all w st :
  cap (pool w) = length all → Forall standard_defers (live w) → numbered w →
  free (pool w) ++ held w ≡ₚ all →
  never_exhausted (trace (apply_step exhausted w st)) →
  cap (pool (apply_step exhausted w st)) = length all ∧
  numbered (apply_step exhausted w st) ∧
  free (pool (apply_step exhausted w st)) ++ held (apply_step exhausted w st) ≡ₚ all.
Proof.
  intros Hcap Hstd [Hnd Hbelow] Hperm Hne. unfold held in *.
  assert (Hlen : (length (free (pool w)) + length (live w) = cap (pool w))%nat).
  { rewrite Hcap, <- Hperm, length_app, length_fmap. done. }
  destruct st as [sc | id rc | id | id]; simpl in *.
  - destruct w as [[fr cp] cs lv tr nx]. simpl in *.
    assert (Hexit : ∀ tr',
      cap (pool (mkWorld (mkBytesPool fr cp) cs lv tr' (S nx))) = length all ∧
      numbered (mkWorld (mkBytesPool fr cp) cs lv tr' (S nx)) ∧
      free (pool (mkWorld (mkBytesPool fr cp) cs lv tr' (S nx)))
        ++ (index <$> live (mkWorld (mkBytesPool fr cp) cs lv tr' (S nx))) ≡ₚ all).
    { intros tr'. simpl. split; [done |]. split; [| done].
      split; [done |]. simpl. eapply Forall_impl; [exact Hbelow |]. simpl. lia. }
    unfold websocketHandler in *. simpl in *.
    destruct (upgrade_ok sc); simpl in *; [| apply Hexit].
    destruct (peer_connection_ok sc); simpl in *; [| apply Hexit].
    destruct (transceiver_ok sc); simpl in *; [| apply Hexit].
    unfold TryGet in *. simpl in *.
    destruct fr as [|b rest]; simpl in *.
    { exfalso. destruct (random_ip sc) as [[[b0 b1] b2] b3].
      destruct (write_channel_ok sc); simpl in *;
        apply (Hne nx exhausted); rewrite ?elem_of_app, ?list_elem_of_singleton;
        auto 10. }
    destruct (random_ip sc) as [[[b0 b1] b2] b3].
    destruct (write_channel_ok sc); simpl in *.
    + split; [done |]. split.
      * split; simpl.
        -- rewrite fmap_app. simpl. apply NoDup_app. split; [done |]. split.
           ++ intros x Hx [->|[]%elem_of_nil]%elem_of_cons.
              apply list_elem_of_fmap in Hx as (s & Hs & Hin).
              rewrite Forall_forall in Hbelow. specialize (Hbelow s Hin). lia.
           ++ apply NoDup_singleton.
        -- apply Forall_app. split.
           ++ eapply Forall_impl; [exact Hbelow |]. simpl. lia.
           ++ constructor; [simpl; lia | done].
      * rewrite fmap_app. simpl. rewrite <- Hperm.
        by rewrite app_assoc, <- Permutation_cons_append.
    + unfold TryPut. simpl.
      destruct (Nat.ltb_spec (length rest) cp) as [_|?]; [| lia]. simpl.
      split; [done |]. split.
      * split; [done |]. simpl. eapply Forall_impl; [exact Hbelow |]. simpl. lia.
      * rewrite <- Hperm. by rewrite <- Permutation_cons_append.
  - destruct (find_session w id) as [s|] eqn:Hs; [| done]. simpl.
    apply find_session_Some in Hs as [Hin <-].
    destruct (attach_fields (live w) s rc Hnd Hin) as [Hsid Hidx].
    split; [done |]. split.
    + split; simpl; [by rewrite Hsid |].
      apply Forall_fmap. eapply Forall_impl; [exact Hbelow |].
      intros x Hx. simpl. destruct (decide (sid x = sid s)) as [Heq|]; [| done].
      simpl. by rewrite <- Heq.
    + by rewrite Hidx.
  - by destruct (find_session w id).
  - destruct (find_session w id) as [s|] eqn:Hs; [| done].
    apply find_session_Some in Hs as [Hin <-].
    assert (Hd : standard_defers s) by (rewrite Forall_forall in Hstd; by apply Hstd).
    unfold return_ in *. rewrite Hd in *.
    assert (Hput : TryPut (pool w) (index s)
                   = (true, {| free := free (pool w) ++ [index s]; cap := cap (pool w) |})).
    { unfold TryPut. destruct (Nat.ltb_spec (length (free (pool w))) (cap (pool w)));
        [done |]. destruct (live w); [by apply elem_of_nil in Hin | simpl in *; lia]. }
    assert (Hrest : numbered {| pool := pool w; connections := connections w;
                                live := filter (λ x, sid x ≠ sid s) (live w);
                                trace := trace w; next_sid := next_sid w |}).
    { split; simpl.
      - apply NoDup_fmap_2_strong; [| by apply NoDup_filter, (NoDup_fmap_1 sid)].
        intros x y [_ Hx]%list_elem_of_filter [_ Hy]%list_elem_of_filter Heq.
        apply list_elem_of_lookup_1 in Hx as [j Hj], Hy as [k Hk].
        assert (j = k) as ->; [| by simplify_eq].
        apply (NoDup_lookup (sid <$> live w) j k (sid x)); [done | |].
        + by rewrite list_lookup_fmap, Hj.
        + by rewrite list_lookup_fmap, Hk, Heq.
      - apply Forall_forall. intros x [_ Hx]%list_elem_of_filter.
        rewrite Forall_forall in Hbelow. by apply Hbelow. }
    destruct Hrest as [Hnd' Hbelow']. simpl in *.
    destruct (readChannel s); simpl in *; rewrite Hput; simpl;
      (split; [done |]); (split; [by split |]);
      rewrite <- Hperm, (held_remove (live w) s Hnd Hin), <- app_assoc; simpl;
      by rewrite <- Permutation_middle.
Qed.

Lemma run_conserves all steps : ∀ w,
  cap (pool w) = length all → Forall standard_defers (live w) → numbered w →
  free (pool w) ++ held w ≡ₚ all →
  never_exhausted (trace (run exhausted w steps)) →
  numbered (run exhausted w steps) ∧
  free (pool (run exhausted w steps)) ++ held (run exhausted w steps) ≡ₚ all.
Proof.
  induction steps as [|st steps IH]; intros w Hcap Hstd Hnum Hperm Hne; [done |].
  change (run exhausted w (st :: steps))
    with (run exhausted (apply_step exhausted w st) steps) in *.
  destruct (run_trace steps (apply_step exhausted w st)) as (tr & Htr).
  pose proof Hne as Hne'. rewrite Htr in Hne'. apply never_exhausted_app in Hne'.
  destruct (apply_step_conserves all w st Hcap Hstd Hnum Hperm Hne')
    as (Hcap' & Hnum' & Hperm').
  apply IH; try done. by apply apply_step_live_ok.
Qed.

Lemma NewBytesPool_NoDup : NoDup (free (NewBytesPool 256)).
Proof.
  apply (NoDup_fmap_1 Byte.to_nat).
  assert (Byte.to_nat <$> free (NewBytesPool 256) = seq 0 256) as ->
    by (vm_compute; reflexivity).
  apply NoDup_seq.
Qed.

Lemma NewBytesPool_length : length (free (NewBytesPool 256)) = 256%nat.
Proof. vm_compute. reflexivity. Qed.

(** *** The writer table *)

Lemma websocketHandler_connections sc w :
  connections (websocketHandler exhausted sc w) = connections w.
Proof.
  unfold websocketHandler.
  destruct (upgrade_ok sc); simpl; [| done].
  destruct (peer_connection_ok sc); simpl; [| done].
  destruct (transceiver_ok sc); simpl; [| done].
  destruct (TryGet exhausted (pool w)) as [[b ok] p'].
  destruct (random_ip sc) as [[[b0 b1] b2] b3].
  by destruct (write_channel_ok sc).
Qed.

(** An entry of the table is written by [OnOpen] and by nothing else. *)
Lemma apply_step_connections w st :
  length (connections w) = 256%nat →
  (∀ (i : nat) id, connections w !! i = Some (Some id) →
     ∃ b, i = Z.to_nat (Net.byte_to_Z b) ∧ Attached id b ∈ trace w) →
  length (connections (apply_step exhausted w st)) = 256%nat ∧
  ∀ (i : nat) id, connections (apply_step exhausted w st) !! i = Some (Some id) →
    ∃ b, i = Z.to_nat (Net.byte_to_Z b) ∧ Attached id b ∈ trace (apply_step exhausted w st).
Proof.
  intros Hlen Hset.
  assert (Hkeep : connections (apply_step exhausted w st) = connections w →
            length (connections (apply_step exhausted w st)) = 256%nat ∧
            ∀ (i : nat) id, connections (apply_step exhausted w st) !! i = Some (Some id) →
              ∃ b, i = Z.to_nat (Net.byte_to_Z b) ∧
                   Attached id b ∈ trace (apply_step exhausted w st)).
  { intros ->. split; [done |]. intros i id Hi.
    destruct (Hset i id Hi) as (b & -> & Hin). exists b. split; [done |].
    destruct (apply_step_trace w st) as (tr & ->). apply elem_of_app. by left. }
  destruct st as [sc | id rc | id | id].
  - apply Hkeep. simpl. apply websocketHandler_connections.
  - simpl in *. destruct (find_session w id) as [s|] eqn:Hs; [| by apply Hkeep].
    clear Hkeep. simpl. split; [by rewrite length_insert |].
    intros i id' Hi.
    destruct (decide (i = Z.to_nat (Net.byte_to_Z (index s)))) as [->|Hne].
    + rewrite list_lookup_insert_eq in Hi by (rewrite Hlen;
        pose proof (byte_to_Z_range (index s)); lia).
      injection Hi as <-. exists (index s). split; [done |].
      apply elem_of_app. right. by apply list_elem_of_singleton.
    + rewrite list_lookup_insert_ne in Hi by done.
      destruct (Hset i id' Hi) as (b & -> & Hin). exists b. split; [done |].
      apply elem_of_app. by left.
  - apply Hkeep. simpl. by destruct (find_session w id).
  - apply Hkeep. simpl. destruct (find_session w id) as [s|]; [| done].
    by destruct (return_fields s
                   {| pool := pool w; connections := connections w;
                      live := filter (λ x, sid x ≠ id) (live w);
                      trace := trace w; next_sid := next_sid w |}) as (-> & _).
Qed.

Lemma run_connections steps : ∀ w,
  length (connections w) = 256%nat →
  (∀ (i : nat) id, connections w !! i = Some (Some id) →
     ∃ b, i = Z.to_nat (Net.byte_to_Z b) ∧ Attached id b ∈ trace w) →
  length (connections (run exhausted w steps)) = 256%nat ∧
  ∀ (i : nat) id, connections (run exhausted w steps) !! i = Some (Some id) →
    ∃ b, i = Z.to_nat (Net.byte_to_Z b) ∧ Attached id b ∈ trace (run exhausted w steps).
Proof.
  induction steps as [|st steps IH]; intros w Hlen Hset; [done |].
  change (run exhausted w (st :: steps))
    with (run exhausted (apply_step exhausted w st) steps).
  destruct (apply_step_connections w st Hlen Hset) as [Hlen' Hset'].
  by apply IH.
Qed.

Lemma Return_unregisters w id :
  connections (apply_step exhausted w (Return id)) = connections w ∧
  find_session (apply_step exhausted w (Return id)) id = None.
Proof.
  simpl. destruct (find_session w id) as [s|] eqn:Hs; [| done].
  destruct (return_fields s
              {| pool := pool w; connections := connections w;
                 live := filter (λ x, sid x ≠ id) (live w);
                 trace := trace w; next_sid := next_sid w |}) as (-> & _).
  split; [done |]. unfold find_session. rewrite return_live. simpl.
  destruct (list_find _ _) as [[i x]|] eqn:Hf; [| done]. exfalso.
  apply list_find_Some in Hf as (Hl & Hp & _).
  apply list_elem_of_lookup_2, list_elem_of_filter in Hl as [Hne _]. done.
Qed.

End sessions.

(** X14. While the pool has never been exhausted every index is accounted
    for: after any steps of any number of connections, failed or not, the
    free indices together with the indices held by the live sessions are the
    256 indices of the pool, each once. So no two live sessions hold the same
    index, and an index is free again after its session returns on any
    path. *)
Theorem pool_indices_conserved (exhausted : Byte.byte) (steps : list Signaling.step) :
  let w := Signaling.run exhausted Signaling.World0 steps in
  Sessions.never_exhausted (Signaling.trace w) →
  Signaling.free (Signaling.pool w) ++ Sessions.held w
    ≡ₚ Signaling.free (Signaling.NewBytesPool 256) ∧
  NoDup (Signaling.free (Signaling.pool w) ++ Sessions.held w) ∧
  NoDup (Signaling.sid <$> Signaling.live w).
Proof.
  intros w Hne.
  assert (Hcap : Signaling.cap (Signaling.pool Signaling.World0)
                 = length (Signaling.free (Signaling.NewBytesPool 256))).
  { rewrite NewBytesPool_length. reflexivity. }
  assert (Hstd : Forall Signaling.standard_defers (Signaling.live Signaling.World0))
    by constructor.
  assert (Hnum : Sessions.numbered Signaling.World0).
  { split; [apply NoDup_nil_2 | constructor]. }
  assert (Hperm0 : Signaling.free (Signaling.pool Signaling.World0)
                     ++ Sessions.held Signaling.World0
                   ≡ₚ Signaling.free (Signaling.NewBytesPool 256)).
  { unfold Sessions.held.
    change (Signaling.live Signaling.World0) with (@nil Signaling.Session).
    change (Signaling.pool Signaling.World0) with (Signaling.NewBytesPool 256).
    by rewrite app_nil_r. }
  destruct (run_conserves exhausted (Signaling.free (Signaling.NewBytesPool 256))
              steps Signaling.World0 Hcap Hstd Hnum Hperm0 Hne) as [[Hnd _] Hperm].
  fold w in Hperm, Hnd.
  split; [done |]. split; [| done].
  rewrite Hperm. apply NewBytesPool_NoDup.
Qed.

Lemma pool_indices_conserved_witness :
  let w := Signaling.run Byte.x00 Signaling.World0
             [Signaling.Connect Signaling.ok_script; Signaling.OnOpen 0 true;
              Signaling.Return 0] in
  Signaling.free (Signaling.pool w) ++ Sessions.held w
    ≡ₚ Signaling.free (Signaling.NewBytesPool 256).
Proof.
  intros w.
  assert (Htrace : Signaling.trace w =
            [Signaling.Acquired 0 Byte.x00 true; Signaling.Joined 0 Byte.x00;
             Signaling.Attached 0 Byte.x00;
             Signaling.Ran 0 Signaling.CloseWriteChannel;
             Signaling.Ran 0 Signaling.CloseReadChannel;
             Signaling.Ran 0 (Signaling.PoolPut Byte.x00);
             Signaling.Ran 0 Signaling.ClosePeerConnection;
             Signaling.Ran 0 Signaling.CloseWebsocket])
    by (vm_compute; reflexivity).
  apply (pool_indices_conserved Byte.x00
           [Signaling.Connect Signaling.ok_script; Signaling.OnOpen 0 true;
            Signaling.Return 0]).
  fold w. rewrite Htrace. intros id b Hin.
  repeat (apply elem_of_cons in Hin as [Hin|Hin]; [discriminate Hin |]).
  by apply elem_of_nil in Hin.
Defined.

(** X15. The writer table of the virtual network always has its 256
    entries, and an entry is written by the [OnOpen] callback of a write
    channel and by nothing else: every writer in it was stored by a session
    that opened with that index. In particular the return of a handler
    removes the session but leaves its writer in the table, where it stays
    until another session opens with the same index. *)
Theorem writer_table_written_on_open_only (exhausted : Byte.byte)
    (steps : list Signaling.step) (id : nat) :
  let w := Signaling.run exhausted Signaling.World0 steps in
  let w' := Signaling.apply_step exhausted w (Signaling.Return id) in
  length (Signaling.connections w) = 256%nat ∧
  (∀ (i : nat) id', Signaling.connections w !! i = Some (Some id') →
     ∃ b, i = Z.to_nat (Net.byte_to_Z b) ∧
          Signaling.Attached id' b ∈ Signaling.trace w) ∧
  Signaling.connections w' = Signaling.connections w ∧
  Signaling.find_session w' id = None.
Proof.
  intros w w'.
  destruct (run_connections exhausted steps Signaling.World0) as [Hlen Hset].
  - apply length_replicate.
  - intros i id' Hi. change (Signaling.connections Signaling.World0)
      with (replicate 256 (@None nat)) in Hi.
    by apply lookup_replicate in Hi as [? _].
  - split; [done |]. split; [done |]. apply Return_unregisters.
Qed.

(** ** config.go: the engine configuration *)

Section config.
Import Config.
Import ServerRun.

Lemma Split_nonempty sep s : Split sep s ≠ [].
Proof.
  destruct s as [|c s]; simpl; [done |].
  destruct (Ascii.eqb c sep); [done |]. by destruct (Split sep s).
Qed.

Lemma Split_word sep w : sep ∉ chars w → Split sep w = [w].
Proof.
  unfold chars. induction w as [|c w IH]; simpl; intros Hw; [done |].
  destruct (Ascii.eqb_spec c sep) as [->|Hc].
  - exfalso. apply Hw. by left.
  - rewrite IH; [done |]. intros ?. apply Hw. by right.
Qed.

Lemma Split_app sep w s :
  sep ∉ chars w → Split sep (w ++ String sep s) = w :: Split sep s.
Proof.
  unfold chars. induction w as [|c w IH]; simpl; intros Hw.
  - by rewrite Ascii.eqb_refl.
  - destruct (Ascii.eqb_spec c sep) as [->|Hc].
    + exfalso. apply Hw. by left.
    + rewrite IH; [done |]. intros ?. apply Hw. by right.
Qed.

(** Splitting what was joined gives the words back. *)
Lemma Split_Join sep words :
  words ≠ [] → Forall (λ w, sep ∉ chars w) words → Split sep (Join sep words) = words.
Proof.
  induction words as [|w words IH]; intros Hne Hall; [done |].
  apply Forall_cons in Hall as [Hw Hall].
  destruct words as [|w' words]; [by apply Split_word |].
  change (Join sep (w :: w' :: words))
    with (w ++ String sep (Join sep (w' :: words)))%string.
  rewrite Split_app by done. by rewrite IH.
Qed.

Lemma SplitN2_app sep k v : sep ∉ chars k → SplitN2 sep (k ++ String sep v) = [k; v].
Proof.
  unfold chars. induction k as [|c k IH]; simpl; intros Hk.
  - by rewrite Ascii.eqb_refl.
  - destruct (Ascii.eqb_spec c sep) as [->|Hc].
    + exfalso. apply Hk. by left.
    + rewrite IH; [done |]. intros ?. apply Hk. by right.
Qed.

Lemma Join_empty sep words :
  Forall (λ w, w ≠ ""%string) words → Join sep words = ""%string → words = [].
Proof.
  intros Hall Hj. destruct words as [|w words]; [done |]. exfalso.
  apply Forall_cons in Hall as [Hw _].
  destruct words as [|w' words]; [done |].
  change (Join sep (w :: w' :: words))
    with (w ++ String sep (Join sep (w' :: words)))%string in Hj.
  by destruct w.
Qed.

Variable TrimSpace : string → string.

Lemma sliceArgs_fold parts : ∀ acc,
  Forall (λ a, a ≠ ""%string ∧ TrimSpace a = a) parts →
  foldl (λ result part,
           let trimmed := TrimSpace part in
           if negb (String.eqb trimmed "") then result ++ [trimmed] else result)
        acc parts = acc ++ parts.
Proof.
  induction parts as [|a parts IH]; intros acc Hall; simpl; [by rewrite app_nil_r |].
  apply Forall_cons in Hall as [[Ha Ht] Hall]. rewrite Ht.
  destruct (String.eqb_spec a "") as [?|_]; [done |]. simpl.
  by rewrite IH, <- app_assoc.
Qed.

Lemma parseFilesMap_fold pairs : ∀ acc : gmap string string,
  Forall (λ kv : string * string,
            (":"%char ∉ chars kv.1) ∧ TrimSpace (entry kv) = entry kv ∧
            TrimSpace kv.1 = kv.1 ∧ TrimSpace kv.2 = kv.2) pairs →
  foldl (λ result pair,
           match SplitN2 ":" (TrimSpace pair) with
           | [from; to] => <[TrimSpace from := TrimSpace to]> result
           | _ => result
           end)
        acc (entry <$> pairs)
  = list_to_map (reverse pairs) ∪ acc.
Proof.
  induction pairs as [|[k v] pairs IH]; intros acc Hall; simpl.
  - by rewrite (left_id ∅ (∪)).
  - apply Forall_cons in Hall as [(Hk & He & Htk & Htv) Hall]. simpl in *.
    rewrite He. unfold entry at 1. simpl. rewrite SplitN2_app by done.
    rewrite Htk, Htv, IH by done.
    rewrite reverse_cons, list_to_map_app. simpl.
    rewrite <- (assoc_L (∪)). f_equal.
    by rewrite <- insert_union_l, (left_id_L ∅ (∪)).
Qed.

End config.

(** X16. [sliceArgs] gives back the arguments that were joined with commas,
    when each is non-empty, holds no comma and has no white space to trim at
    its ends; and whatever the value, every argument it returns is the
    trimmed text of one comma-separated piece and is not empty, so empty and
    blank pieces are dropped. *)
Theorem sliceArgs_Join (TrimSpace : string → string) (args : list string) :
  Forall (λ a, a ≠ ""%string ∧ (","%char ∉ ServerRun.chars a) ∧ TrimSpace a = a) args →
  Config.sliceArgs TrimSpace (Config.Join "," args) = args ∧
  ∀ value,
    Forall (λ a, a ≠ ""%string ∧
                 ∃ part, part ∈ Config.Split "," value ∧ a = TrimSpace part)
           (Config.sliceArgs TrimSpace value).
Proof.
  intros Hall. split.
  - unfold Config.sliceArgs.
    destruct (String.eqb_spec (Config.Join "," args) "") as [He|Hne].
    + symmetry. apply (Join_empty ","%char); [| done].
      eapply Forall_impl; [exact Hall |]. by intros a [? _].
    + cbv zeta. rewrite Split_Join.
      * rewrite sliceArgs_fold; [done |].
        eapply Forall_impl; [exact Hall |]. by intros a (? & _ & ?).
      * by intros ->.
      * eapply Forall_impl; [exact Hall |]. by intros a (_ & ? & _).
  - intros value. unfold Config.sliceArgs.
    destruct (String.eqb value ""); [done |]. cbv zeta.
    assert (Hfold : ∀ parts acc,
              Forall (λ a, a ≠ ""%string ∧
                           ∃ part, part ∈ parts ++ Config.Split "," value ∧
                                   a = TrimSpace part) acc →
              (∀ part, part ∈ parts → part ∈ Config.Split "," value) →
              Forall (λ a, a ≠ ""%string ∧
                           ∃ part, part ∈ Config.Split "," value ∧ a = TrimSpace part)
                (foldl (λ result part,
                          let trimmed := TrimSpace part in
                          if negb (String.eqb trimmed "") then result ++ [trimmed]
                          else result) acc parts)).
    { induction parts as [|p parts IH]; intros acc Hacc Hsub; simpl.
      - eapply Forall_impl; [exact Hacc |]. by intros a [? ?].
      - apply IH.
        + assert (Hacc' : Forall (λ a, a ≠ ""%string ∧
                            ∃ part, part ∈ parts ++ Config.Split "," value ∧
                                    a = TrimSpace part) acc).
          { eapply Forall_impl; [exact Hacc |]. intros a [Ha (part & Hin & ->)].
            split; [done |]. exists part. split; [| done].
            apply elem_of_app. apply elem_of_app in Hin as [Hin|Hin]; [| by right].
            apply elem_of_cons in Hin as [->|Hin]; [| by left].
            right. apply Hsub. by left. }
          destruct (String.eqb_spec (TrimSpace p) "") as [?|Hp]; simpl; [done |].
          apply Forall_app. split; [done |]. constructor; [| done].
          split; [done |]. exists p. split; [| done].
          apply elem_of_app. right. apply Hsub. by left.
        + intros part Hin. apply Hsub. by right. }
    by apply Hfold.
Qed.

Lemma sliceArgs_Join_witness :
  Config.sliceArgs Config.trim_ascii "-dev,+map de_dust2"
  = ["-dev"; "+map de_dust2"]%string.
Proof.
  refine (proj1 (sliceArgs_Join Config.trim_ascii ["-dev"; "+map de_dust2"]%string _)).
  repeat (apply Forall_cons_2;
          [split; [discriminate |]; split; [| reflexivity];
           vm_compute; intros H;
           repeat (apply elem_of_cons in H as [H|H]; [discriminate H |]);
           by apply elem_of_nil in H |]).
  apply Forall_nil_2.
Defined.

(** X17. [parseFilesMap] reads back the entries that were written as
    "from:to" and joined with commas, a later entry replacing an earlier one
    with the same key, when no key holds a colon, no entry holds a comma, and
    neither the entries nor their keys and values have white space to trim at
    their ends. A value may hold colons. *)
Theorem parseFilesMap_entries (TrimSpace : string → string)
    (pairs : list (string * string)) :
  Forall (λ kv : string * string,
            (":"%char ∉ ServerRun.chars kv.1) ∧
            (","%char ∉ ServerRun.chars (Config.entry kv)) ∧
            TrimSpace (Config.entry kv) = Config.entry kv ∧
            TrimSpace kv.1 = kv.1 ∧ TrimSpace kv.2 = kv.2) pairs →
  Config.parseFilesMap TrimSpace (Config.Join "," (Config.entry <$> pairs))
  = list_to_map (reverse pairs).
Proof.
  intros Hall. unfold Config.parseFilesMap. cbv zeta.
  assert (Hentries : Forall (λ w, w ≠ ""%string) (Config.entry <$> pairs)).
  { apply Forall_fmap, Forall_true. intros [k v]. unfold Config.entry. simpl.
    by destruct k. }
  destruct (String.eqb_spec (Config.Join "," (Config.entry <$> pairs)) "") as [He|Hne].
  - apply (Join_empty ","%char) in He; [| done].
    apply fmap_nil_inv in He. by subst pairs.
  - rewrite Split_Join.
    + rewrite (parseFilesMap_fold TrimSpace pairs ∅).
      * by rewrite (right_id_L ∅ (∪)).
      * eapply Forall_impl; [exact Hall |]. by intros kv (? & _ & ? & ? & ?).
    + intros He. by rewrite He in Hne.
    + apply Forall_fmap. eapply Forall_impl; [exact Hall |]. by intros kv (_ & ? & _).
Qed.

Lemma parseFilesMap_entries_witness :
  Config.parseFilesMap Config.trim_ascii "a.wad:x:1,b.wad:y,a.wad:z"
  = list_to_map [("a.wad", "z"); ("b.wad", "y"); ("a.wad", "x:1")]%string.
Proof.
  refine (parseFilesMap_entries Config.trim_ascii
            [("a.wad", "x:1"); ("b.wad", "y"); ("a.wad", "z")]%string _).
  repeat (apply Forall_cons_2;
          [split; [| split; [| by repeat split]];
           vm_compute; intros H;
           repeat (apply elem_of_cons in H as [H|H]; [discriminate H |]);
           by apply elem_of_nil in H |]).
  apply Forall_nil_2.
Defined.

(** ** ReadLoop *)

Section read_loop.
Import Net Reader.

Lemma ReadLoop_spec reads ip : ∀ buffer pushed,
  Forall (λ r : read, (length r.1 <= length buffer)%nat) reads →
  ReadLoop reads ip buffer pushed =
    Some (pushed ++ ((λ r : read, {| PAddr := {| IP := ip; Port := 1000 |}; Data := r.1 |})
                       <$> before_error reads),
          bool_decide (Exists (λ r : read, r.2 = true) reads)).
Proof.
  induction reads as [|[bytes err] reads IH]; intros buffer pushed Hfit; simpl.
  - by rewrite app_nil_r.
  - apply Forall_cons in Hfit as [Hb Hfit]. simpl in Hb.
    assert (Hlen : length (take (length buffer) (bytes ++ drop (length bytes) buffer))
                   = length buffer).
    { rewrite length_take, length_app, length_drop. lia. }
    destruct err; simpl.
    + by rewrite app_nil_r.
    + rewrite Hlen. destruct (Nat.ltb_spec (length buffer) (length bytes)); [lia |].
      rewrite IH by (by rewrite Hlen).
      rewrite take_take, Nat.min_l, take_app_length, <- app_assoc by lia. simpl.
      f_equal. f_equal. apply bool_decide_ext. rewrite Exists_cons. simpl.
      split; [by right | by intros [? | ?]].
Qed.

End read_loop.

(** X18. [ReadLoop] gives the network one packet for each read before the
    first error, in order, each from the address of its peer and port 1000
    and holding the bytes of that read: reusing the one buffer between reads
    changes no packet already given. It returns at the first error and
    drops the bytes that came with it; until then it goes on reading. No
    read gives more bytes than the buffer of 8192 holds. *)
Theorem ReadLoop_one_packet_per_read (reads : list Reader.read)
    (ip : Byte.byte * Byte.byte * Byte.byte * Byte.byte) (buffer : list Byte.byte) :
  Z.of_nat (length buffer) = Reader.messageSize →
  Forall (λ r : Reader.read, Z.of_nat (length r.1) <= Reader.messageSize) reads →
  Reader.ReadLoop reads ip buffer [] =
    Some ((λ r : Reader.read, {| Net.PAddr := {| Net.IP := ip; Net.Port := 1000 |};
                                 Net.Data := r.1 |}) <$> Reader.before_error reads,
          bool_decide (Exists (λ r : Reader.read, r.2 = true) reads)).
Proof.
  intros Hbuf Hfit. rewrite ReadLoop_spec; [done |].
  eapply Forall_impl; [exact Hfit |]. intros r Hr. simpl in Hr. lia.
Qed.

Lemma ReadLoop_one_packet_per_read_witness :
  Reader.ReadLoop [([Byte.x01; Byte.x02], false); ([Byte.x03], false); ([Byte.x04], true);
                   ([Byte.x05], false)]
    (Byte.x07, Byte.x11, Byte.x22, Byte.x33)
    (replicate (Z.to_nat Reader.messageSize) Byte.x00) []
  = Some ([Net.mkPacket (Net.mkAddr (Byte.x07, Byte.x11, Byte.x22, Byte.x33) 1000)
             [Byte.x01; Byte.x02];
           Net.mkPacket (Net.mkAddr (Byte.x07, Byte.x11, Byte.x22, Byte.x33) 1000)
             [Byte.x03]], true).
Proof.
  apply (ReadLoop_one_packet_per_read
           [([Byte.x01; Byte.x02], false); ([Byte.x03], false); ([Byte.x04], true);
            ([Byte.x05], false)]
           (Byte.x07, Byte.x11, Byte.x22, Byte.x33)
           (replicate (Z.to_nat Reader.messageSize) Byte.x00)).
  - rewrite length_replicate. apply Z2Nat.id. unfold Reader.messageSize. lia.
  - unfold Reader.messageSize. repeat (apply Forall_cons_2; [simpl; lia |]).
    apply Forall_nil_2.
Defined.

(** ** Sending: what is left alone *)

Section send_frame.
Import Net.
Context {Conn : Type}.
Variable Write : Conn → list Byte.byte → Conn * Z * bool.
Variable int_bits : Z.

Lemma SendTo_frame n fd packet flags n' nn (i : nat) :
  Net.SendTo Conn Write n fd packet flags = Some (n', nn) →
  (i ≠ Z.to_nat (byte_to_Z (IP0 (PAddr packet))) →
   connections Conn n' !! i = connections Conn n !! i) ∧
  (connections Conn n' !! i = Some None ↔ connections Conn n !! i = Some None).
Proof.
  unfold Net.SendTo. intros H.
  destruct (index _ _) as [[c|]|] eqn:Hi; simpl in H; [| by simplify_eq | done].
  apply index_Some in Hi as [_ Hi].
  destruct (Write c (Data packet)) as [[c' k] err].
  assert (n' = {| connections :=
                    <[Z.to_nat (byte_to_Z (IP0 (PAddr packet))) := Some c']>
                      (connections Conn n);
                  wire := wire Conn n ++ [(IP0 (PAddr packet), Data packet)] |}) as ->
    by (destruct err; by simplify_eq).
  simpl. split.
  - intros Hne. by rewrite list_lookup_insert_ne.
  - destruct (decide (i = Z.to_nat (byte_to_Z (IP0 (PAddr packet))))) as [->|Hne].
    + rewrite list_lookup_insert_eq by (by eapply lookup_lt_Some). rewrite Hi.
      split; intros [=].
    + by rewrite list_lookup_insert_ne.
Qed.

Lemma SendToBatch_loop_frame packets : ∀ n fd flags sum n' result (i : nat),
  Net.SendToBatch_loop Conn Write int_bits n fd packets flags sum = Some (n', result) →
  (Forall (λ p, i ≠ Z.to_nat (byte_to_Z (IP0 (PAddr p)))) packets →
   connections Conn n' !! i = connections Conn n !! i) ∧
  (connections Conn n' !! i = Some None ↔ connections Conn n !! i = Some None).
Proof.
  induction packets as [|p ps IH]; intros n fd flags sum n' result i; simpl.
  - by intros [= <- <-].
  - destruct (Net.SendTo Conn Write n fd p flags) as [[n1 nn]|] eqn:Hs; [| done].
    simpl. destruct (SendTo_frame n fd p flags n1 nn i Hs) as [Hf Ha].
    destruct (nn =? -1).
    + intros [= <- <-]. split; [| done].
      intros Hall. apply Forall_cons in Hall as [Hp _]. by apply Hf.
    + intros Hl. destruct (IH _ _ _ _ _ _ i Hl) as [Hf' Ha']. split.
      * intros Hall. apply Forall_cons in Hall as [Hp Hall].
        by rewrite Hf', Hf.
      * by rewrite Ha', Ha.
Qed.

End send_frame.

(** X19. Sending touches only the writers it addresses: after [SendToBatch],
    whatever it returns, the writer at every index that is the first address
    byte of none of the packets is as it was; and no writer is attached or
    removed, an index has a writer after the batch exactly when it had one
    before. *)
Theorem SendToBatch_leaves_other_writers {Conn : Type}
    (Write : Conn → list Byte.byte → Conn * Z * bool) (int_bits : Z)
    (n n' : Net.SFUNet Conn) (fd : Z) (packets : list Net.Packet) (flags result : Z)
    (i : nat) :
  Net.SendToBatch Conn Write int_bits n fd packets flags = Some (n', result) →
  (Forall (λ p, i ≠ Z.to_nat (Net.byte_to_Z (Net.IP0 (Net.PAddr p)))) packets →
   Net.connections Conn n' !! i = Net.connections Conn n !! i) ∧
  (Net.connections Conn n' !! i = Some None ↔ Net.connections Conn n !! i = Some None).
Proof. apply SendToBatch_loop_frame. Qed.

Lemma SendToBatch_leaves_other_writers_witness :
  let n := {| Net.connections := [Some [Byte.x61]; Some []; None];
              Net.wire := [] |} in
  let n' := {| Net.connections := [Some [Byte.x61]; Some [Byte.x62]; None];
               Net.wire := [(Byte.x01, [Byte.x62])] |} in
  Net.connections (list Byte.byte) n' !! 0%nat = Net.connections (list Byte.byte) n !! 0%nat.
Proof.
  intros n n'.
  refine (proj1 (SendToBatch_leaves_other_writers (Net.limited_writer 4) 64 n n' 3
            [Net.mkPacket (Net.mkAddr (Byte.x01, Byte.x00, Byte.x00, Byte.x00) 1000)
               [Byte.x62]] 0 1 0%nat _) _).
  - reflexivity.
  - repeat constructor. discriminate.
Defined.

(** ** GetAll between its two locks *)

Section torn_read.
Import Logging.

Lemma AddAll_app cb l l' :
  AddAll cb (l ++ l') = (AddAll cb l ≫= λ cb', AddAll cb' l').
Proof.
  revert cb. induction l as [|x l IH]; intros cb; simpl; [done |].
  destruct (Add cb x) as [cb'|]; simpl; [apply IH | done].
Qed.

(** The copy of [GetAll] on a size and a head read before the entries of
    [l'] were added. *)
Lemma GetAll_copy_stale N l l' cb cb' xs :
  0 < N → ring_inv N l cb → ring_inv N (l ++ l') cb' →
  Z.of_nat (length xs) = Z.min (Z.of_nat (length l)) N →
  (∀ (j : nat) x, xs !! j = Some x →
     ∃ i : nat, (l ++ l') !! i = Some x ∧
                Z.of_nat (length (l ++ l')) - N <= Z.of_nat i ∧
                Z.of_nat i mod N
                = (Z.of_nat (length l) - Z.of_nat (length xs) + Z.of_nat j) mod N) →
  GetAll_copy cb' (size cb) (head cb) = Some (Some <$> xs).
Proof.
  intros HN [Hc Hl Hh Hs Hsl] [Hc' Hl' Hh' Hs' Hsl'] Hlen Hxs.
  unfold GetAll_copy. rewrite Hs, <- Hlen.
  destruct (Z.eqb_spec (Z.of_nat (length xs)) 0) as [H0|H0].
  - by destruct xs.
  - destruct (Z.ltb_spec (Z.of_nat (length xs)) 0); [lia |].
    set (start := if head cb - Z.of_nat (length xs) <? 0 then _ else _).
    assert (Hst : 0 <= start ∧
                  start mod N = (Z.of_nat (length l) - Z.of_nat (length xs)) mod N).
    { unfold start. rewrite Hc', Hh.
      pose proof (Z.mod_pos_bound (Z.of_nat (length l)) N HN) as Hm.
      destruct (Z.ltb_spec (Z.of_nat (length l) mod N - Z.of_nat (length xs)) 0).
      - split; [lia |].
        replace (Z.of_nat (length l) mod N - Z.of_nat (length xs) + N)
          with (Z.of_nat (length l) mod N - Z.of_nat (length xs) + 1 * N) by lia.
        rewrite Z.mod_add by lia.
        by rewrite Zminus_mod_idemp_l.
      - split; [lia |]. by rewrite Zminus_mod_idemp_l. }
    destruct Hst as [Hst0 Hst].
    pose proof (GetAll_loop_spec cb' start (Some <$> xs) []) as Hloop.
    rewrite length_fmap in Hloop. simpl in Hloop.
    rewrite Nat2Z.id. apply Hloop; [lia |].
    intros k x Hk. rewrite list_lookup_fmap in Hk.
    destruct (xs !! k) as [e|] eqn:He; [| done]. injection Hk as <-.
    destruct (Hxs k e He) as (i & Hi & Hw & Hslot).
    rewrite Hc', Z.rem_mod_nonneg by lia.
    rewrite <- Zplus_mod_idemp_l, Hst, Zplus_mod_idemp_l.
    replace (Z.of_nat (length l) - Z.of_nat (length xs) + (Z.of_nat 0 + Z.of_nat k))
      with (Z.of_nat (length l) - Z.of_nat (length xs) + Z.of_nat k) by lia.
    rewrite <- Hslot. by apply Hsl'.
Qed.

End torn_read.

(** X20. [GetAll] reads the size and the head under one lock and copies
    under another. When the entries of [l'], at most a ring full of them,
    are added between the two: while the ring has room for them the result
    is the entries [l] of the first reading; once the ring is full the
    result holds the new entries first, where the oldest were, followed by
    the older entries that remain, so it is not in chronological order. No
    call panics. *)
Theorem GetAll_between_its_two_locks (N : Z) (l l' : list Logging.LogEntry) :
  0 < N → Z.of_nat (length l') <= N →
  ∃ cb0 cb cb',
    Logging.NewCircularBuffer N = Some cb0 ∧
    Logging.AddAll cb0 l = Some cb ∧ Logging.AddAll cb l' = Some cb' ∧
    (Z.of_nat (length l) + Z.of_nat (length l') <= N →
       Logging.GetAll_copy cb' (Logging.size cb) (Logging.head cb) = Some (Some <$> l)) ∧
    (N <= Z.of_nat (length l) →
       Logging.GetAll_copy cb' (Logging.size cb) (Logging.head cb)
         = Some (Some <$> (l' ++ drop (length l - Z.to_nat N + length l') l))).
Proof.
  intros HN Hk.
  destruct (ring_inv_AddAll N l HN) as (cb0 & cb & Hnew & Hadd & Hinv).
  destruct (ring_inv_AddAll N (l ++ l') HN) as (cb0' & cb' & Hnew' & Hadd' & Hinv').
  rewrite Hnew in Hnew'. injection Hnew' as <-.
  rewrite AddAll_app, Hadd in Hadd'. simpl in Hadd'.
  exists cb0, cb, cb'. split; [done |]. split; [done |]. split; [done |]. split.
  - intros Hroom. apply (GetAll_copy_stale N l l' cb cb' l HN Hinv Hinv'); [lia |].
    intros j x Hj. exists j. split; [by apply lookup_app_l_Some |].
    rewrite length_app. split; [lia |]. f_equal. lia.
  - intros Hfull.
    set (xs := l' ++ drop (length l - Z.to_nat N + length l') l).
    assert (Hxs : Z.of_nat (length xs) = N).
    { unfold xs. rewrite length_app, length_drop. lia. }
    apply (GetAll_copy_stale N l l' cb cb' xs HN Hinv Hinv'); [lia |].
    intros j x Hj. rewrite Hxs. unfold xs in Hj.
    destruct (decide (j < length l')%nat) as [Hlt|Hge].
    + rewrite lookup_app_l in Hj by done.
      exists (length l + j)%nat. split; [| split].
      * by rewrite lookup_app_r, Nat.add_comm, Nat.add_sub by lia.
      * rewrite length_app. lia.
      * replace (Z.of_nat (length l) - N + Z.of_nat j)
          with (Z.of_nat (length l + j) + (-1) * N) by lia.
        by rewrite Z.mod_add by lia.
    + rewrite lookup_app_r, lookup_drop in Hj by lia.
      exists (length l - Z.to_nat N + length l' + (j - length l'))%nat.
      split; [| split].
      * by apply lookup_app_l_Some.
      * rewrite length_app. lia.
      * f_equal. apply lookup_lt_Some in Hj. lia.
Qed.

Lemma GetAll_between_its_two_locks_witness :
  ∃ cb0 cb cb',
    Logging.NewCircularBuffer 2 = Some cb0 ∧
    Logging.AddAll cb0 [Logging.mkLogEntry 1 "a"; Logging.mkLogEntry 2 "b"] = Some cb ∧
    Logging.AddAll cb [Logging.mkLogEntry 3 "c"] = Some cb' ∧
    Logging.GetAll_copy cb' (Logging.size cb) (Logging.head cb)
      = Some [Some (Logging.mkLogEntry 3 "c"); Some (Logging.mkLogEntry 2 "b")].
Proof.
  destruct (GetAll_between_its_two_locks 2
              [Logging.mkLogEntry 1 "a"; Logging.mkLogEntry 2 "b"]
              [Logging.mkLogEntry 3 "c"])
    as (cb0 & cb & cb' & Hnew & Hadd & Hadd' & _ & Hfull); [lia | simpl; lia |].
  exists cb0, cb, cb'. repeat split; try done. apply Hfull. simpl. lia.
Defined.

(** ** signalPeerConnections *)

Section signal.
Import Signal.
Variable negotiate : nat → peerConnectionState → bool.

Lemma attemptSync_loop_spec a rest : ∀ before offers,
  let result := attemptSync_loop negotiate a before rest offers in
  filter (λ p, removable p = false) result.1.2
    = filter (λ p, removable p = false) (before ++ rest) ∧
  filter (λ p, signalsCount p <= 0) result.1.2
    = filter (λ p, signalsCount p <= 0) (before ++ rest) ∧
  (result.1.1 = false →
     result.1.2 = before ++ rest ∧ Forall (λ p, removable p = false) rest ∧
     ∀ p, p ∈ rest → 0 < signalsCount p → pc p ∈ result.2) ∧
  (result.1.1 = true →
     (length (filter (λ p, removable p = true) result.1.2)
      < length (filter (λ p, removable p = true) (before ++ rest)))%nat ∨
     ∃ p, p ∈ rest ∧ negotiate a p = false) ∧
  (∀ x, x ∈ offers → x ∈ result.2).
Proof.
  induction rest as [|p rest IH]; intros before offers; simpl.
  - rewrite app_nil_r. split; [done |]. split; [done |]. split; [| done].
    intros _. split; [done |]. split; [done |]. by intros p ?%elem_of_nil.
  - destruct (Z.leb_spec (signalsCount p) 0) as [Hle|Hgt].
    { specialize (IH (before ++ [p]) offers). simpl in IH.
      rewrite <- app_assoc in IH. simpl in IH.
      destruct IH as (Hk & Hn & Hf & Ht & Ho).
      split; [done |]. split; [done |]. split; [| split; [| done]].
      - intros Hr. destruct (Hf Hr) as (-> & Hall & Hoff).
        split; [done |]. split.
        + constructor; [| done]. unfold removable.
          destruct (Z.ltb_spec 0 (signalsCount p)); [lia |]. by rewrite andb_false_r.
        + intros q [->|Hq]%elem_of_cons Hpos; [lia | by apply Hoff].
      - intros Hr. destruct (Ht Hr) as [? | (q & Hq & Hneg)]; [by left |].
        right. exists q. split; [by right | done]. }
    assert (Hpos : (0 <? signalsCount p) = true) by (by apply Z.ltb_lt).
    destruct (Closed p) eqn:Hclosed; simpl.
    { assert (Hrem : removable p = true) by (unfold removable; by rewrite Hclosed, Hpos).
      rewrite !filter_app, !filter_cons.
      destruct (decide (removable p = false)); [congruence |].
      destruct (decide (signalsCount p <= 0)); [lia |].
      destruct (decide (removable p = true)); [| done].
      split; [done |]. split; [done |]. split; [done |]. split; [| done].
      intros _. left. rewrite !length_app. simpl. lia. }
    destruct (negotiate a p) eqn:Hneg; simpl.
    + specialize (IH (before ++ [p]) (offers ++ [pc p])). simpl in IH.
      rewrite <- app_assoc in IH. simpl in IH.
      destruct IH as (Hk & Hn & Hf & Ht & Ho).
      split; [done |]. split; [done |]. split; [| split].
      * intros Hr. destruct (Hf Hr) as (-> & Hall & Hoff).
        split; [done |]. split.
        -- constructor; [| done]. unfold removable. by rewrite Hclosed.
        -- intros q [->|Hq]%elem_of_cons Hq0; [| by apply Hoff].
           apply Ho, elem_of_app. right. by apply list_elem_of_singleton.
      * intros Hr. destruct (Ht Hr) as [? | (q & Hq & Hneg')]; [by left |].
        right. exists q. split; [by right | done].
      * intros x Hx. apply Ho, elem_of_app. by left.
    + split; [done |]. split; [done |]. split; [done |]. split; [| done].
      intros _. right. exists p. split; [by left | done].
Qed.

Lemma sync_loop_spec left : ∀ a peers offers,
  let result := sync_loop negotiate left a peers offers in
  filter (λ p, removable p = false) result.1.1 = filter (λ p, removable p = false) peers ∧
  filter (λ p, signalsCount p <= 0) result.1.1 = filter (λ p, signalsCount p <= 0) peers ∧
  (result.2 = false →
     Forall (λ p, removable p = false) result.1.1 ∧
     ∀ p, p ∈ result.1.1 → 0 < signalsCount p → pc p ∈ result.1.2) ∧
  ((∀ a p, negotiate a p = true) →
   (length (filter (λ p, removable p = true) peers) < left)%nat →
   result.2 = false).
Proof.
  induction left as [|left IH]; intros a peers offers; simpl.
  - split; [done |]. split; [done |]. split; [done |]. intros _ ?. lia.
  - pose proof (attemptSync_loop_spec a peers [] []) as Hspec. simpl in Hspec.
    unfold attemptSync.
    destruct (attemptSync_loop negotiate a [] peers []) as [[again peers'] sent].
    simpl in Hspec. destruct Hspec as (Hk & Hn & Hf & Ht & _).
    destruct again; simpl.
    + specialize (IH (S a) peers' (offers ++ sent)). simpl in IH.
      destruct IH as (Hk' & Hn' & Hf' & Hc').
      split; [by rewrite Hk' |]. split; [by rewrite Hn' |]. split; [done |].
      intros Hneg Hlen. apply Hc'; [done |].
      destruct (Ht eq_refl) as [Hlt | (q & _ & Hq)]; [lia |].
      by rewrite Hneg in Hq.
    + destruct (Hf eq_refl) as (-> & Hall & Hoff).
      split; [done |]. split; [done |]. split; [| done].
      intros _. split; [done |]. intros p Hp Hpos.
      apply elem_of_app. right. by apply Hoff.
Qed.

End signal.

(** X21. [signalPeerConnections] removes from the list only connections that
    are closed and still have signals left, and keeps the others in order; a
    connection whose signals are used up stays in the list, closed or not.
    When it ends without giving up, every closed connection with signals
    left is gone and every connection left with signals has been written an
    offer. It gives up after 25 attempts and schedules itself again; it never
    does when every call of the library succeeds and fewer than 25 closed
    connections have signals left. *)
Theorem signalPeerConnections_prunes (negotiate : nat → Signal.peerConnectionState → bool)
    (peerConnections : list Signal.peerConnectionState) :
  let result := Signal.signalPeerConnections negotiate peerConnections in
  let remaining := result.1.1 in
  filter (λ p, Signal.removable p = false) remaining
    = filter (λ p, Signal.removable p = false) peerConnections ∧
  filter (λ p, Signal.signalsCount p <= 0) remaining
    = filter (λ p, Signal.signalsCount p <= 0) peerConnections ∧
  (result.2 = false →
     remaining = filter (λ p, Signal.removable p = false) peerConnections ∧
     ∀ p, p ∈ remaining → 0 < Signal.signalsCount p → Signal.pc p ∈ result.1.2) ∧
  ((∀ a p, negotiate a p = true) →
   (length (filter (λ p, Signal.removable p = true) peerConnections) < 25)%nat →
   result.2 = false).
Proof.
  intros result remaining.
  destruct (sync_loop_spec negotiate 25 0 peerConnections []) as (Hk & Hn & Hf & Hc).
  fold (Signal.signalPeerConnections negotiate peerConnections) in Hk, Hn, Hf, Hc.
  fold result in Hk, Hn, Hf, Hc. fold remaining in Hk, Hn, Hf.
  split; [done |]. split; [done |]. split; [| done].
  intros Hr. destruct (Hf Hr) as [Hall Hoff]. split; [| done].
  rewrite <- Hk. symmetry. by apply filter_all.
Qed.

(** ** addTrack and removeTrack *)

Section tracks.
Import Signal Tracks.

Lemma reset_signals_removable peers :
  filter (λ p, removable p = false) (reset_signals peers)
  = reset_signals (filter (λ p, Closed p = false) peers).
Proof.
  unfold reset_signals. induction peers as [|p peers IH]; [done |].
  rewrite fmap_cons, !filter_cons. simpl.
  unfold removable at 1. simpl.
  change (0 <? DefaultSignalsCount) with true.
  destruct (Closed p) eqn:Hc; simpl.
  - apply IH.
  - rewrite IH. simpl. by rewrite ?Hc.
Qed.

End tracks.

(** X23. A change of tracks prunes every closed connection: when the
    [signalPeerConnections] that [addTrack] or [removeTrack] starts ends
    without giving up, the connections left are the open ones, in order,
    each with its signals back at 5 and each written an offer. *)
Theorem track_change_prunes_closed (negotiate : nat → Signal.peerConnectionState → bool)
    (trackLocals : gmap string string) (id : string)
    (peerConnections : list Signal.peerConnectionState) :
  let open := Tracks.reset_signals (filter (λ p, Signal.Closed p = false) peerConnections) in
  let pruned (result : list Signal.peerConnectionState * list nat * bool) :=
    result.2 = false →
    result.1.1 = open ∧ ∀ p, p ∈ open → Signal.pc p ∈ result.1.2 in
  pruned (Tracks.addTrack negotiate trackLocals id peerConnections).2 ∧
  pruned (Tracks.removeTrack negotiate trackLocals id peerConnections).2.
Proof.
  intros open pruned.
  assert (Hboth : pruned (Signal.signalPeerConnections negotiate
                            (Tracks.reset_signals peerConnections))); [| by split].
  intros Hr.
  destruct (sync_loop_spec negotiate 25 0 (Tracks.reset_signals peerConnections) [])
    as (Hk & _ & Hf & _).
  fold (Signal.signalPeerConnections negotiate (Tracks.reset_signals peerConnections))
    in Hk, Hf.
  destruct (Hf Hr) as [Hall Hoff].
  assert (Hleft : (Signal.signalPeerConnections negotiate
                     (Tracks.reset_signals peerConnections)).1.1 = open).
  { rewrite <- (filter_all (λ p, Signal.removable p = false) _ Hall), Hk.
    apply reset_signals_removable. }
  split; [done |]. intros p Hp. apply Hoff; [by rewrite Hleft |].
  unfold open, Tracks.reset_signals in Hp.
  apply list_elem_of_fmap in Hp as (q & -> & _). simpl.
  unfold Tracks.DefaultSignalsCount. lia.
Qed.

(** ** The login protocol *)

(** X24. The login protocol works from the start of the server: GET /v1/auth
    gives the salt and changes nothing; a first POST /v1/auth whose body is
    the JSON object with the key "username" holding the configured username
    and the key "passwordHash" holding the SHA-512 of the password followed
    by that salt passes the limiter and is answered with the token that
    [generateToken] issues for that user, whose expiry is the second of its
    first clock reading plus 86400 seconds, with the lifetime 86400 and the
    log level; the server's settings stay as they were. *)
Theorem login_protocol (L : ServerRun.Library) (env : Server.Env) (now : Z)
    (r_salt r_login : Server.Request) :
  let g := ServerRun.start L env in
  let digest :=
    ServerRun.lib_sha512_hex L
      (Server.ADMIN_PANEL_PASSWORD env ++ ServerRun.lib_random_salt L)%string in
  let issued := ServerRun.lib_later L now in
  let issued' := ServerRun.lib_later L issued in
  ServerRun.float64_rounding (ServerRun.lib_rnd L) →
  Server.ADMIN_PANEL_PASSWORD env ≠ ""%string → digest ≠ ""%string →
  0 <= now / 1000000000 < 2 ^ 32 →
  Server.Path r_salt = "/v1/auth"%string → Server.Method r_salt = "GET"%string →
  Server.Path r_login = "/v1/auth"%string → Server.Method r_login = "POST"%string →
  Server.Body r_login
    = Some (Rcon.VObject [("username"%string, Rcon.VString (Server.adminUsername g));
                          ("passwordHash"%string, Rcon.VString digest)]) →
  ServerRun.serve L r_salt now g = (Server.Salt (ServerRun.lib_random_salt L), g) ∧
  Auth.ExpiresAt
    (Auth.Registered (ServerRun.issued_claims (Server.adminUsername g) issued issued'))
    = Some (issued / 1000000000 + 86400) ∧
  ∃ g', ServerRun.serve L r_login now g
        = (Server.Login
             (ServerRun.lib_render_token L (ServerRun.issued_token L g issued issued'))
             86400 (Server.adminLogLevel g), g') ∧
        ServerRun.same_settings g g'.
Proof.
  intros g digest issued issued' [Hmono Hint] Hpw Hdigest Ht Hps Hms Hpl Hml Hjson.
  assert (Hbody : Server.DecodeLogin (Server.Body r_login)
                  = Some {| Server.Username := Server.adminUsername g;
                            Server.PasswordHash := digest |})
    by (by rewrite Hjson).
  assert (Hg : g = {| Server.adminPassword := Server.ADMIN_PANEL_PASSWORD env;
                      Server.adminUsername := Server.adminUsername g;
                      Server.passwordSalt := ServerRun.lib_random_salt L;
                      Server.adminLogLevel := Server.adminLogLevel g;
                      Server.jwtSecret := ServerRun.lib_random_secret L;
                      Server.loginRateLimiter :=
                        Some (RateLimit.NewRateLimiter (ServerRun.lib_rnd L) 5);
                      Server.rconRateLimiter :=
                        Some (RateLimit.NewRateLimiter (ServerRun.lib_rnd L) 30);
                      Server.engine := [] |}).
  { unfold g, ServerRun.start, Server.init.
    by destruct (String.eqb_spec (Server.ADMIN_PANEL_PASSWORD env) ""). }
  assert (Huser : Server.adminUsername g ≠ ""%string).
  { unfold g, ServerRun.start, Server.init.
    destruct (String.eqb_spec (Server.ADMIN_PANEL_PASSWORD env) ""); [done |]. simpl.
    by destruct (String.eqb_spec (Server.ADMIN_PANEL_USER env) ""). }
  assert (Hd : Server.disabled g = false).
  { unfold Server.disabled. rewrite Hg. simpl.
    destruct (String.eqb_spec (Server.ADMIN_PANEL_PASSWORD env) ""); [done |].
    by destruct (String.eqb_spec (Server.adminUsername g) ""). }
  split; [| split].
  - unfold ServerRun.serve, Server.ServeHTTP. rewrite Hps, Hms. simpl.
    unfold Server.saltHandler. rewrite Hd, Hms. simpl. by rewrite Hg at 1.
  - simpl. by rewrite NewNumericDate_expiry.
  - unfold ServerRun.serve.
    rewrite serve_login by done. unfold Server.Middleware.
    assert (Hl : Server.loginRateLimiter g
                 = Some (RateLimit.NewRateLimiter (ServerRun.lib_rnd L) 5))
      by (by rewrite Hg).
    rewrite Hl. change Auth.second with 1000000000.
    rewrite (Allow_same_instant (ServerRun.lib_rnd L) Hmono Hint 5 (now / 1000000000)
               _ _ 5) by (simpl; try done; lia).
    simpl.
    set (g1 := Server.set_login _ g).
    pose proof (login_answer L r_login now g1 _ Hd Hml Hbody) as Hans.
    unfold ServerRun.login in Hans. rewrite Hans. simpl.
    destruct (String.eqb_spec (Server.adminUsername g) "") as [?|_]; [done |].
    destruct (String.eqb_spec digest "") as [?|_]; [done |]. simpl.
    rewrite (bool_decide_eq_true_2 _ eq_refl).
    assert (Hdig : bool_decide
              (digest = ServerRun.lib_sha512_hex L
                          (Server.adminPassword g ++ Server.passwordSalt g)%string) = true).
    { apply bool_decide_eq_true_2. unfold digest. by rewrite Hg. }
    rewrite Hdig. simpl. eexists. split; [reflexivity |].
    by repeat split.
Qed.

Lemma login_protocol_witness :
  ServerRun.serve ServerRun.example_library
    (Server.mkRequest "/v1/auth" "GET" "" "" "" "10.0.0.1:5000" None) 0
    (ServerRun.start ServerRun.example_library (Server.mkEnv "" "hunter2" ""))
  = (Server.Salt "73616c74",
     ServerRun.start ServerRun.example_library (Server.mkEnv "" "hunter2" "")).
Proof.
  refine (proj1 (login_protocol ServerRun.example_library (Server.mkEnv "" "hunter2" "") 0
            (Server.mkRequest "/v1/auth" "GET" "" "" "" "10.0.0.1:5000" None)
            (Server.mkRequest "/v1/auth" "POST" "" "" "" "10.0.0.1:5000"
               (Some (Rcon.VObject [("username"%string, Rcon.VString "admin");
                                    ("passwordHash"%string,
                                     Rcon.VString "h(hunter273616c74)")])))
            _ _ _ _ _ _ _ _ _)).
  - split; [intros x y H; exact H | intros z _; reflexivity].
  - discriminate.
  - discriminate.
  - assert (0 / 1000000000 = 0) as -> by reflexivity. lia.
  - reflexivity.
  - reflexivity.
  - reflexivity.
  - reflexivity.
  - reflexivity.
Defined.
